(** * Smart collapsed chunking of a syntax tree (src/index.js)

    A shallow embedding of the chunk generator of [src/index.js] and the
    properties of its collapsing engine.

    Conventions of the embedding:
    - a JavaScript string is the list of its UTF-16 code units
      ([jsstring]); [js "..."] builds one from an ASCII literal;
    - grammar tags ([node.type]) and object keys are ASCII identifiers and
      are kept as [string];
    - offsets, rows and columns of the syntax tree are unsigned ([nat]);
      numbers that can be negative in the source ([lastIndexOf],
      [firstWhiteSpaceInGroup], the budget) are [Z];
    - a property that an object does not have reads as [undefined]: an
      argument of [slice] that can be [undefined] is an [option];
    - [async] functions are modelled by their results: there is one
      thread of control and every [await] is on a call of this file. *)

From Stdlib Require Import String Ascii.
From Stdlib Require Import List ZArith NArith Lia Bool Arith.
From Stdlib Require Decimal DecimalString DecimalNat.
Import ListNotations.

Set Warnings "-register-all".

(* ================================================================== *)
(** ** JavaScript strings *)

Module JsString.

Definition code_unit := N.
Definition jsstring := list code_unit.

Definition js (s : string) : jsstring :=
  map N_of_ascii (list_ascii_of_string s).

Definition unit_eqb (a b : code_unit) : bool := N.eqb a b.

Fixpoint str_eqb (a b : jsstring) : bool :=
  match a, b with
  | [], [] => true
  | x :: a', y :: b' => unit_eqb x y && str_eqb a' b'
  | _, _ => false
  end.

(** The class [\s] of a regular expression, which is also the set that
    [String.prototype.trim] strips: WhiteSpace and LineTerminator. *)
Definition is_ws (c : code_unit) : bool :=
  ((9 <=? c) && (c <=? 13)         (* TAB LF VT FF CR *)
   || (c =? 32)                    (* SPACE *)
   || (c =? 160)                   (* NBSP *)
   || (c =? 5760)                  (* U+1680 *)
   || ((8192 <=? c) && (c <=? 8202)) (* U+2000 .. U+200A *)
   || (c =? 8232) || (c =? 8233)   (* LS PS *)
   || (c =? 8239)                  (* U+202F *)
   || (c =? 8287)                  (* U+205F *)
   || (c =? 12288)                 (* U+3000 *)
   || (c =? 65279))%N.             (* U+FEFF *)

Definition newline : code_unit := 10%N.

(** [s.slice(a, b)] and [s.slice(a)] for non-negative integer arguments:
    both bounds are clamped to the length, an empty string results when
    the bounds cross. *)
Definition slice (s : jsstring) (a b : nat) : jsstring :=
  firstn (b - a) (skipn a s).

Definition slice_from (s : jsstring) (a : nat) : jsstring := skipn a s.

(** [s.slice(a, b)] and [s.slice(a)] where an argument can be
    [undefined], which is [None] (as is the argument left out): an
    [undefined] start counts as 0, an [undefined] end as the length. *)
Definition slice_opt (s : jsstring) (a b : option nat) : jsstring :=
  slice s (match a with Some i => i | None => 0 end)
          (match b with Some j => j | None => length s end).

Fixpoint drop_ws (s : jsstring) : jsstring :=
  match s with
  | c :: r => if is_ws c then drop_ws r else s
  | [] => []
  end.

(** [s.trim()] *)
Definition trim (s : jsstring) : jsstring :=
  rev (drop_ws (rev (drop_ws s))).

(** [" ".repeat(n)] *)
Definition repeat_space (n : nat) : jsstring := repeat 32%N n.

(** [s.split(/\s+/)]: the pieces between the maximal runs of white space.
    [in_ws] tells that the previous code unit belonged to a separator,
    [cur] is the piece being read. *)
Fixpoint split_ws_go (in_ws : bool) (cur s : jsstring) : list jsstring :=
  match s with
  | [] => [cur]
  | c :: r =>
      if is_ws c
      then if in_ws then split_ws_go true cur r
           else cur :: split_ws_go true [] r
      else split_ws_go false (cur ++ [c]) r
  end.

Definition split_ws (s : jsstring) : list jsstring := split_ws_go false [] s.

(** [s.split("\n")] *)
Fixpoint split_nl_go (cur s : jsstring) : list jsstring :=
  match s with
  | [] => [cur]
  | c :: r =>
      if unit_eqb c newline then cur :: split_nl_go [] r
      else split_nl_go (cur ++ [c]) r
  end.

Definition split_nl (s : jsstring) : list jsstring := split_nl_go [] s.

(** [lines.join("\n")] *)
Fixpoint join_nl (ls : list jsstring) : jsstring :=
  match ls with
  | [] => []
  | [l] => l
  | l :: rest => l ++ newline :: join_nl rest
  end.

(** [s.startsWith(u)], used to spell out [lastIndexOf]. *)
Fixpoint starts_with (u s : jsstring) : bool :=
  match u, s with
  | [], _ => true
  | x :: u', y :: s' => unit_eqb x y && starts_with u' s'
  | _ :: _, [] => false
  end.

(** [s.lastIndexOf(u)]: the largest offset at which [u] occurs in [s],
    [-1] when there is none.  [last_index_go] scans the suffixes of [s]
    from offset [k] on and keeps the last match. *)
Fixpoint last_index_go (u s : jsstring) (k : Z) (found : Z) : Z :=
  let found' := if starts_with u s then k else found in
  match s with
  | [] => found'
  | _ :: r => last_index_go u r (k + 1) found'
  end.

Definition lastIndexOf (s u : jsstring) : Z := last_index_go u s 0 (-1).

End JsString.
Import JsString.

(* ================================================================== *)
(** ** The token estimator *)

(** [countTokens(text)]: [text.split(/\s+/).length] *)
Definition countTokens (text : jsstring) : Z :=
  Z.of_nat (length (split_ws text)).

(** Number of maximal runs of non-white-space code units; [in_run] tells
    that the previous code unit belonged to such a run. *)
Fixpoint nonws_runs_go (in_run : bool) (s : jsstring) : nat :=
  match s with
  | [] => 0
  | c :: r =>
      if is_ws c then nonws_runs_go false r
      else (if in_run then 0 else 1) + nonws_runs_go true r
  end.

Definition nonws_runs (s : jsstring) : nat := nonws_runs_go false s.

(** Number of maximal runs of white space. *)
Fixpoint ws_runs_go (in_ws : bool) (s : jsstring) : nat :=
  match s with
  | [] => 0
  | c :: r =>
      if is_ws c then (if in_ws then 0 else 1) + ws_runs_go true r
      else ws_runs_go false r
  end.

Definition ws_runs (s : jsstring) : nat := ws_runs_go false s.

Definition starts_ws (s : jsstring) : bool :=
  match s with c :: _ => is_ws c | [] => false end.

Definition ends_ws (s : jsstring) : bool := starts_ws (rev s).

Definition b2n (b : bool) : nat := if b then 1 else 0.

(** Whether the text read so far ends in white space, [p] being the
    answer before [s]. *)
Fixpoint last_ws (p : bool) (s : jsstring) : bool :=
  match s with
  | [] => p
  | c :: r => last_ws (is_ws c) r
  end.

(* ================================================================== *)
(** ** Syntax nodes *)

(** A position of the parser (web-tree-sitter) is a point: [row] and
    [column]. *)
Record position := mkPosition { row : nat; column : nat }.

(** [position.index]: the code reads this property of the positions of a
    node, but a point has none (the offsets of a node are
    [node.startIndex] and [node.endIndex]); the read gives [undefined]. *)
Definition index (p : position) : option nat := None.

(** What the code reads of a tree-sitter node.  [fieldName] is the field
    of the parent under which the node hangs ([childForFieldName]);
    [node.parent] is not stored: a function that reads it receives the
    chain of ancestors, nearest first. *)
Inductive node : Type := mkNode {
  type : string;
  text : jsstring;
  startPosition : position;
  endPosition : position;
  endIndex : nat;
  fieldName : option string;
  children : list node
}.

Definition includes (l : list string) (s : string) : bool :=
  existsb (String.eqb s) l.

(** [collapsedReplacement(node)] *)
Definition collapsedReplacement (n : node) : jsstring :=
  if String.eqb (type n) "statement_block"
     || String.eqb (type n) "compound_statement"
  then js "{ ... }"
  else js "...".

(** The second argument of [firstChild] is an array of tags or one tag. *)
Inductive grammar_name :=
| Tags (l : list string)
| Tag (s : string).

(** [firstChild(node, grammarName)]; [None] is [null]. *)
Definition firstChild (n : node) (grammarName : grammar_name) : option node :=
  match grammarName with
  | Tags l => find (fun child => includes l (type child)) (children n)
  | Tag s => find (fun child => String.eqb (type child) s) (children n)
  end.

Definition FUNCTION_BLOCK_NODE_TYPES : list string :=
  ["block"; "statement_block"; "compound_statement"]%string.

Definition FUNCTION_DECLARATION_NODE_TYPES : list string :=
  ["method_definition"; "function_definition"; "function_item";
   "function_declaration"; "method_declaration"]%string.

Definition CLASS_BLOCK_NODE_TYPES : list string :=
  ["block"; "class_body"; "declaration_list"]%string.

(* ================================================================== *)
(** ** The collapsing engine *)

Section Collapse.

(** The estimator the eviction loop consults; the program uses
    [countTokens]. *)
Variable estimate : jsstring -> Z.

(** One turn of the [for] loop of [collapseChildren] (lines 91-106), on the
    working text and the array [collapsedChildren]. *)
Definition collapse_child (collapseBlockTypes : grammar_name)
    (st : jsstring * list jsstring) (child : node) : jsstring * list jsstring :=
  let '(code, collapsedChildren) := st in
  match firstChild child collapseBlockTypes with
  | Some grandChild =>
      let start := index (startPosition grandChild) in
      let end_ := index (endPosition grandChild) in
      let collapsedChild :=
        slice_opt code (index (startPosition child)) start
        ++ collapsedReplacement grandChild in
      let code' :=
        slice_opt code (Some 0) start ++ collapsedReplacement grandChild
        ++ slice_opt code end_ None in
      (code', collapsedChild :: collapsedChildren)   (* unshift *)
  | None => st
  end.

(** The state of the [while] loop (lines 110-120). *)
Record evict_state := mkEvict {
  ev_code : jsstring;
  ev_units : list jsstring;      (* collapsedChildren *)
  ev_removed : bool              (* removedChild *)
}.

(** The guard of the loop. *)
Definition evict_guard (maxChunkSize : Z) (st : evict_state) : bool :=
  (maxChunkSize <? estimate (trim (ev_code st)))%Z
  && (0 <? length (ev_units st)).

(** Removal of the text at [index], [len] code units long. *)
Definition cut (code : jsstring) (idx len : nat) : jsstring :=
  slice code 0 idx ++ slice_from code (idx + len).

(** Lines 116-119: what a turn of the loop does to the working text. *)
Definition evict_text (code childCode : jsstring) : jsstring :=
  let idx := lastIndexOf code childCode in
  if (0 <? idx)%Z
  then cut code (Z.to_nat idx) (length childCode)
  else code.

(** The body of the loop.  [pop] takes the last element; the guard makes
    the array non-empty, so the default of [last] is never used. *)
Definition evict_body (st : evict_state) : evict_state :=
  let childCode := last (ev_units st) [] in
  let units' := removelast (ev_units st) in
  mkEvict (evict_text (ev_code st) childCode) units' true.

(** The loop, with fuel; [None] when the fuel runs out. *)
Fixpoint evict_loop (fuel : nat) (maxChunkSize : Z) (st : evict_state)
  : option evict_state :=
  match fuel with
  | O => None
  | S fuel' =>
      if evict_guard maxChunkSize st
      then evict_loop fuel' maxChunkSize (evict_body st)
      else Some st
  end.

(** [lines[i].trim() === ""] *)
Definition blank (l : jsstring) : bool :=
  match trim l with [] => true | _ :: _ => false end.

(** The state of the [for] loop of lines 125-139: the array [lines] and
    [firstWhiteSpaceInGroup]. *)
Definition norm_state := (list jsstring * Z)%type.

(** The turn of that loop at index [i]. *)
Definition norm_step (i : nat) (st : norm_state) : norm_state :=
  let '(lines, firstWhiteSpaceInGroup) := st in
  if blank (nth i lines [])
  then if (firstWhiteSpaceInGroup <? 0)%Z then (lines, Z.of_nat i)
       else (lines, firstWhiteSpaceInGroup)
  else
    let lines' :=
      if (1 <? firstWhiteSpaceInGroup - Z.of_nat i)%Z
      then firstn (i + 1) lines
           ++ skipn (Z.to_nat (firstWhiteSpaceInGroup + 1)) lines
      else lines in
    (lines', (-1)%Z).

(** [for (let i = n - 1; i >= 0; i--)]: [norm_loop n] runs the turns
    [n - 1], ..., [0]. *)
Fixpoint norm_loop (n : nat) (st : norm_state) : norm_state :=
  match n with
  | O => st
  | S i => norm_loop i (norm_step i st)
  end.

(** The white-space-group normalization (lines 123-141). *)
Definition normalize (code : jsstring) : jsstring :=
  let lines := split_nl code in
  join_nl (fst (norm_loop (length lines) (lines, (-1)%Z))).

(** The collapsing phase of [collapseChildren] (lines 83-108): the working
    text and the units, before any eviction. *)
Definition collapse_phase (n : node) (code : jsstring)
    (blockTypes : grammar_name) (collapseTypes : list string)
    (collapseBlockTypes : grammar_name) : jsstring * list jsstring :=
  let code0 := slice code 0 (endIndex n) in
  let '(code1, collapsedChildren) :=
    match firstChild n blockTypes with
    | Some block =>
        let childrenToCollapse :=
          filter (fun child => includes collapseTypes (type child))
                 (children block) in
        fold_left (collapse_child collapseBlockTypes)
                  (rev childrenToCollapse) (code0, [])
    | None => (code0, [])
    end in
  (slice_opt code1 (index (startPosition n)) None, collapsedChildren).

(** [collapseChildren]; the loop gets one unit of fuel more than there are
    units, [None] would mean that it was not enough. *)
Definition collapseChildren (n : node) (code : jsstring)
    (blockTypes : grammar_name) (collapseTypes : list string)
    (collapseBlockTypes : grammar_name) (maxChunkSize : Z) : option jsstring :=
  let '(code1, collapsedChildren) :=
    collapse_phase n code blockTypes collapseTypes collapseBlockTypes in
  match evict_loop (S (length collapsedChildren)) maxChunkSize
                   (mkEvict code1 collapsedChildren false) with
  | Some st =>
      Some (if ev_removed st then normalize (ev_code st) else ev_code st)
  | None => None
  end.

(** [constructClassDefinitionChunk] *)
Definition constructClassDefinitionChunk (n : node) (code : jsstring)
    (maxChunkSize : Z) : option jsstring :=
  collapseChildren n code (Tags CLASS_BLOCK_NODE_TYPES)
    FUNCTION_DECLARATION_NODE_TYPES (Tags FUNCTION_BLOCK_NODE_TYPES)
    maxChunkSize.

End Collapse.

(** *** The normalization, line by line

    The same loop read from the last line up, on lists: the state is the
    part of [lines] below the current index, and the number of blank
    lines that open it. *)
Definition squeeze_step (l : jsstring) (st : list jsstring * nat)
  : list jsstring * nat :=
  let '(out, group) := st in
  if blank l then (l :: out, S group)
  else (l :: (if 1 <? group then skipn group out else out), 0).

Definition squeeze (lines : list jsstring) : list jsstring * nat :=
  fold_right squeeze_step ([], 0) lines.

(** [firstWhiteSpaceInGroup] when the loop is about to read index [n - 1]
    and [group] blank lines lie below it. *)
Definition group_end (n group : nat) : Z :=
  match group with
  | O => (-1)%Z
  | S _ => (Z.of_nat (n + group) - 1)%Z
  end.

(** Number of blank lines that open a list of lines. *)
Fixpoint lead_blanks (lines : list jsstring) : nat :=
  match lines with
  | l :: rest => if blank l then S (lead_blanks rest) else 0
  | [] => 0
  end.

(** No line with text is followed by two blank lines or more. *)
Fixpoint tidy (lines : list jsstring) : Prop :=
  match lines with
  | [] => True
  | l :: rest => (blank l = false -> lead_blanks rest <= 1) /\ tidy rest
  end.

Definition no_newline (l : jsstring) : Prop :=
  forall c, In c l -> unit_eqb c newline = false.

(** The collapsing phase, read from the first member on.  The members
    are collapsed from the last one to the first; [working_text] is the
    working text once [members] are done, [code0] being the text the
    phase starts from.  A member with a body block turns the text [t]
    into [t], the placeholder and [t] again. *)
Fixpoint working_text (code0 : jsstring) (collapseBlockTypes : grammar_name)
    (members : list node) : jsstring :=
  match members with
  | [] => code0
  | m :: rest =>
      let t := working_text code0 collapseBlockTypes rest in
      match firstChild m collapseBlockTypes with
      | Some grandChild => t ++ collapsedReplacement grandChild ++ t
      | None => t
      end
  end.

(** The units of the members that have a body block, in source order:
    the unit of a member is the working text it found, followed by its
    placeholder. *)
Fixpoint units_of (code0 : jsstring) (collapseBlockTypes : grammar_name)
    (members : list node) : list jsstring :=
  match members with
  | [] => []
  | m :: rest =>
      match firstChild m collapseBlockTypes with
      | Some grandChild =>
          (working_text code0 collapseBlockTypes rest
           ++ collapsedReplacement grandChild)
          :: units_of code0 collapseBlockTypes rest
      | None => units_of code0 collapseBlockTypes rest
      end
  end.

(** The members that have a body block. *)
Definition with_body (collapseBlockTypes : grammar_name)
    (members : list node) : list node :=
  filter (fun m => match firstChild m collapseBlockTypes with
                   | Some _ => true
                   | None => false
                   end) members.

(** [u] occurs in [code] at offset [i]. *)
Definition occurs_at (code u : jsstring) (i : nat) : Prop :=
  exists pre post, code = pre ++ u ++ post /\ length pre = i.

(** The last occurrence of [u] in [code] is at offset [i]. *)
Definition last_occurrence (code u : jsstring) (i : nat) : Prop :=
  occurs_at code u i /\ forall j, occurs_at code u j -> j <= i.

Definition absent (code u : jsstring) : Prop :=
  forall i, ~ occurs_at code u i.

(** What a turn does to the working text [code] when it pops [u]: the
    last occurrence of [u] is cut out when it lies at an offset above 0;
    the text is kept when [u] occurs last at offset 0 or not at all. *)
Definition turn_cuts (code u code' : jsstring) : Prop :=
  (exists i,
      0 < i /\ last_occurrence code u i
      /\ code' = firstn i code ++ skipn (i + length u) code)
  \/ ((absent code u \/ last_occurrence code u 0) /\ code' = code).

(** What a call can throw.  The message is the one V8 gives. *)
Inductive exn :=
| TypeError (message : string).

(** [node.children[node.children.length - 1]]; [None] is [undefined],
    which the empty array gives. *)
Definition lastChild (n : node) : option node :=
  match children n with
  | [] => None
  | _ :: _ => nth_error (children n) (length (children n) - 1)
  end.

(** [constructFunctionDefinitionChunk]; [ancestors] is the chain
    [node.parent], [node.parent.parent], ..., empty at the root. *)
Definition constructFunctionDefinitionChunk (n : node) (ancestors : list node)
    (code : jsstring) (maxChunkSize : Z) : exn + jsstring :=
  match lastChild n with
  | None =>
      inl (TypeError
             "Cannot read properties of undefined (reading 'startPosition')")
  | Some bodyNode =>
      let funcText :=
        slice_opt code (index (startPosition n))
                  (index (startPosition bodyNode))
        ++ collapsedReplacement bodyNode in
      match ancestors with
      | classBlock :: classNode :: _ =>
          if includes ["block"; "declaration_list"]%string (type classBlock)
             && includes ["class_definition"; "impl_item"]%string
                         (type classNode)
          then inr (slice_opt code (index (startPosition classNode))
                                   (index (startPosition classBlock))
                    ++ js "..." ++ [newline; newline]
                    ++ repeat_space (column (startPosition n))
                    ++ funcText)
          else inr funcText
      | _ => inr funcText
      end
  end.

(** The two functions [collapsedNodeConstructors] maps to. *)
Inductive constructor :=
| ClassDefinitionChunk
| FunctionDefinitionChunk.

(** The own properties of [collapsedNodeConstructors]. *)
Definition collapsedNodeConstructors : list (string * constructor) :=
  [("class_definition", ClassDefinitionChunk);
   ("class_declaration", ClassDefinitionChunk);
   ("impl_item", ClassDefinitionChunk);
   ("function_definition", FunctionDefinitionChunk);
   ("function_declaration", FunctionDefinitionChunk);
   ("function_item", FunctionDefinitionChunk);
   ("method_declaration", FunctionDefinitionChunk)]%string.

(** The table is an object literal: it inherits the members of
    [Object.prototype], which [in] and a property read reach as they
    reach its own keys. *)
Inductive inherited :=
| Object_constructor
| defineGetter
| defineSetter
| hasOwnProperty
| lookupGetter
| lookupSetter
| isPrototypeOf
| propertyIsEnumerable
| toString
| valueOf
| proto
| toLocaleString.

Definition Object_prototype : list (string * inherited) :=
  [("constructor", Object_constructor);
   ("__defineGetter__", defineGetter);
   ("__defineSetter__", defineSetter);
   ("hasOwnProperty", hasOwnProperty);
   ("__lookupGetter__", lookupGetter);
   ("__lookupSetter__", lookupSetter);
   ("isPrototypeOf", isPrototypeOf);
   ("propertyIsEnumerable", propertyIsEnumerable);
   ("toString", toString);
   ("valueOf", valueOf);
   ("__proto__", proto);
   ("toLocaleString", toLocaleString)]%string.

(** What a property read on the table gives. *)
Inductive entry :=
| Own (c : constructor)
| Inherited (m : inherited).

(** [type in collapsedNodeConstructors] *)
Definition in_collapsedNodeConstructors (t : string) : bool :=
  existsb (fun kv => String.eqb (fst kv) t) collapsedNodeConstructors
  || existsb (fun kv => String.eqb (fst kv) t) Object_prototype.

(** [collapsedNodeConstructors[type]]: an own property first, then the
    prototype; [None] is [undefined]. *)
Definition constructor_of (t : string) : option entry :=
  match find (fun kv => String.eqb (fst kv) t) collapsedNodeConstructors with
  | Some kv => Some (Own (snd kv))
  | None =>
      match find (fun kv => String.eqb (fst kv) t) Object_prototype with
      | Some kv => Some (Inherited (snd kv))
      | None => None
      end
  end.

(* ================================================================== *)
(** ** JavaScript values and objects *)

Inductive jsval :=
| VUndefined
| VNum (z : Z)
| VBool (b : bool)
| VStr (s : jsstring)
| VArr (l : list jsval)
| VObj (o : list (string * jsval)).

(** An object: its own properties in insertion order. *)
Definition obj := list (string * jsval).

Fixpoint obj_set (k : string) (v : jsval) (o : obj) : obj :=
  match o with
  | [] => [(k, v)]
  | (k', v') :: o' =>
      if String.eqb k' k then (k, v) :: o' else (k', v') :: obj_set k v o'
  end.

Fixpoint obj_get (k : string) (o : obj) : jsval :=
  match o with
  | [] => VUndefined
  | (k', v') :: o' => if String.eqb k' k then v' else obj_get k o'
  end.

(** [{...target, ...source}]: the properties of [source] are set one by
    one, overriding those of [target]. *)
Definition spread (target source : obj) : obj :=
  fold_left (fun o kv => obj_set (fst kv) (snd kv) o) source target.

Definition truthy (v : jsval) : bool :=
  match v with
  | VUndefined => false
  | VNum z => negb (z =? 0)%Z
  | VBool b => b
  | VStr [] => false
  | VStr (_ :: _) => true
  | VArr _ => true
  | VObj _ => true
  end.

(** A [Map]; the keys met here are strings and [undefined]. *)
Definition jsmap := list (jsval * jsval).

Definition key_eqb (a b : jsval) : bool :=
  match a, b with
  | VUndefined, VUndefined => true
  | VNum x, VNum y => (x =? y)%Z
  | VBool x, VBool y => Bool.eqb x y
  | VStr x, VStr y => str_eqb x y
  | _, _ => false
  end.

Fixpoint map_set (k v : jsval) (m : jsmap) : jsmap :=
  match m with
  | [] => [(k, v)]
  | (k', v') :: m' =>
      if key_eqb k' k then (k, v) :: m' else (k', v') :: map_set k v m'
  end.

Fixpoint map_get (k : jsval) (m : jsmap) : jsval :=
  match m with
  | [] => VUndefined
  | (k', v') :: m' => if key_eqb k' k then v' else map_get k m'
  end.

(** [m.get(k)[field].push(x)] where the entry exists. *)
Definition map_push (k : jsval) (field : string) (x : jsval) (m : jsmap)
  : jsmap :=
  match map_get k m with
  | VObj o =>
      match obj_get field o with
      | VArr l => map_set k (VObj (obj_set field (VArr (l ++ [x])) o)) m
      | _ => m
      end
  | _ => m
  end.

(* ================================================================== *)
(** ** The enrichment pass *)

Record GlobalContext := mkContext {
  variables : jsmap;
  functions : jsmap;
  macros : jsmap;
  currentFunction : jsval;
  currentFile : jsval
}.

Definition globalContext : GlobalContext :=
  mkContext [] [] [] VUndefined VUndefined.

(** [node.childForFieldName(name)] *)
Definition childForFieldName (n : node) (name : string) : option node :=
  find (fun c => match fieldName c with
                 | Some f => String.eqb f name
                 | None => false
                 end) (children n).

(** [x?.text] *)
Definition text_of (x : option node) : jsval :=
  match x with
  | Some c => VStr (text c)
  | None => VUndefined
  end.

Definition field_text (n : node) (name : string) : jsval :=
  text_of (childForFieldName n name).

Definition line_of (n : node) : jsval :=
  VNum (Z.of_nat (row (startPosition n)) + 1).

(** [extractParameters] *)
Definition extractParameters (parametersNode : option node) : jsval :=
  match parametersNode with
  | None => VArr []
  | Some p =>
      VArr (map (fun param =>
                   VObj [("type", field_text param "type");
                         ("name", field_text param "declarator")]%string)
                (filter (fun child =>
                           String.eqb (type child) "parameter_declaration")
                        (children p)))
  end.

(** [extractArguments] *)
Definition extractArguments (argumentsNode : option node) : jsval :=
  match argumentsNode with
  | None => VArr []
  | Some a =>
      VArr (map (fun arg => VStr (text arg))
                (filter (fun child => negb (String.eqb (type child) ","))
                        (children a)))
  end.

(** [traverseNode]: the callback works on a state [S]. *)
Fixpoint traverseNode {S : Type} (n : node) (callback : node -> S -> S)
    (s : S) : S :=
  fold_left (fun s' child => traverseNode child callback s')
            (children n) (callback n s).

(** The three arrays of [bodyDetails]. *)
Record bodyDetails := mkBody {
  bd_variables : list jsval;
  bd_controlStructures : list jsval;
  bd_functionCalls : list jsval
}.

(** The callback of [extractFunctionBody]. *)
Definition body_callback (n : node) (b : bodyDetails) : bodyDetails :=
  let t := type n in
  if String.eqb t "declaration" then
    mkBody (bd_variables b
            ++ [VObj [("type", field_text n "type");
                      ("name", field_text n "declarator");
                      ("line", line_of n)]%string])
           (bd_controlStructures b) (bd_functionCalls b)
  else if includes ["if_statement"; "for_statement"; "while_statement";
                    "do_statement"]%string t then
    mkBody (bd_variables b)
           (bd_controlStructures b
            ++ [VObj [("type", VStr (js t));
                      ("condition", field_text n "condition");
                      ("line", line_of n)]%string])
           (bd_functionCalls b)
  else if String.eqb t "call_expression" then
    mkBody (bd_variables b) (bd_controlStructures b)
           (bd_functionCalls b
            ++ [VObj [("name", field_text n "function");
                      ("arguments",
                       extractArguments (childForFieldName n "arguments"));
                      ("line", line_of n)]%string])
  else b.

(** [extractFunctionBody]; the parameter [code] is not read. *)
Definition extractFunctionBody (bodyNode : option node) (code : jsval)
  : jsval :=
  match bodyNode with
  | None => VStr []
  | Some b =>
      let d := traverseNode b body_callback (mkBody [] [] []) in
      VObj [("variables", VArr (bd_variables d));
            ("controlStructures", VArr (bd_controlStructures d));
            ("functionCalls", VArr (bd_functionCalls d))]%string
  end.

Definition set_currentFunction (v : jsval) (g : GlobalContext)
  : GlobalContext :=
  mkContext (variables g) (functions g) (macros g) v (currentFile g).

Definition set_currentFile (v : jsval) (g : GlobalContext) : GlobalContext :=
  mkContext (variables g) (functions g) (macros g) (currentFunction g) v.

Definition set_variables (m : jsmap) (g : GlobalContext) : GlobalContext :=
  mkContext m (functions g) (macros g) (currentFunction g) (currentFile g).

Definition set_functions (m : jsmap) (g : GlobalContext) : GlobalContext :=
  mkContext (variables g) m (macros g) (currentFunction g) (currentFile g).

Definition set_macros (m : jsmap) (g : GlobalContext) : GlobalContext :=
  mkContext (variables g) (functions g) m (currentFunction g) (currentFile g).

(** [s.includes('*')] on an optional string *)
Definition includes_star (v : jsval) : bool :=
  match v with
  | VStr s => existsb (unit_eqb 42%N) s
  | _ => false
  end.

(** The object [extractNodeDetails] starts from. *)
Definition base_details (n : node) : obj :=
  [("type", VStr (js (type n)));
   ("startLine", VNum (Z.of_nat (row (startPosition n)) + 1));
   ("endLine", VNum (Z.of_nat (row (endPosition n)) + 1));
   ("content", VStr (text n))]%string.

(** [extractNodeDetails]: the details, and the context after the
    assignment to [globalContext.currentFunction]. *)
Definition extractNodeDetails (n : node) (code : jsval) (g : GlobalContext)
  : obj * GlobalContext :=
  let details := base_details n in
  let t := type n in
  if String.eqb t "function_definition" then
    let details := obj_set "name" (field_text n "declarator") details in
    let details := obj_set "returnType" (field_text n "type") details in
    let details :=
      obj_set "parameters"
              (extractParameters (childForFieldName n "parameters"))
              details in
    let details :=
      obj_set "body" (extractFunctionBody (childForFieldName n "body") code)
              details in
    (details, set_currentFunction (obj_get "name" details) g)
  else if String.eqb t "declaration" then
    let details := obj_set "declarationType" (field_text n "type") details in
    let details :=
      obj_set "declarationName" (field_text n "declarator") details in
    let details :=
      if includes_star (obj_get "declarationType" details)
      then obj_set "isPointer" (VBool true) details
      else details in
    (details, g)
  else if String.eqb t "identifier" then
    let details := obj_set "name" (VStr (text n)) details in
    let details := obj_set "usage" (VStr (js "access")) details in
    (details, g)
  else if String.eqb t "pointer_expression" then
    let details := obj_set "pointerName" (field_text n "argument") details in
    let details := obj_set "usage" (VStr (js "dereference")) details in
    (details, g)
  else if String.eqb t "call_expression" then
    let details := obj_set "functionName" (field_text n "function") details in
    let details :=
      obj_set "arguments" (extractArguments (childForFieldName n "arguments"))
              details in
    (details, g)
  else if String.eqb t "macro_definition" then
    let details := obj_set "name" (field_text n "name") details in
    let details := obj_set "value" (field_text n "value") details in
    (details, g)
  else if String.eqb t "preproc_include" then
    let details := obj_set "path" (field_text n "path") details in
    (details, g)
  else (details, g).

(** The use site recorded by the [identifier] and [call_expression]
    cases. *)
Definition use_site (details : obj) (g : GlobalContext) : jsval :=
  VObj [("file", currentFile g);
        ("function", currentFunction g);
        ("line", obj_get "startLine" details)]%string.

(** The [switch] of [updateGlobalContext] (lines 338-383). *)
Definition update_switch (details : obj) (g : GlobalContext)
  : GlobalContext :=
  match obj_get "type" details with
  | VStr t =>
      if str_eqb t (js "function_definition") then
        set_functions
          (map_set (obj_get "name" details)
             (VObj (obj_set "calls" (VArr [])
                      (obj_set "file" (currentFile g) details)))
             (functions g)) g
      else if str_eqb t (js "declaration") then
        if truthy (obj_get "declarationName" details) then
          set_variables
            (map_set (obj_get "declarationName" details)
               (VObj (obj_set "accesses" (VArr [])
                        (obj_set "function" (currentFunction g)
                           (obj_set "file" (currentFile g) details))))
               (variables g)) g
        else g
      else if str_eqb t (js "identifier") then
        if truthy (map_get (obj_get "name" details) (variables g)) then
          set_variables
            (map_push (obj_get "name" details) "accesses"
                      (use_site details g) (variables g)) g
        else g
      else if str_eqb t (js "call_expression") then
        if truthy (map_get (obj_get "functionName" details) (functions g))
        then
          set_functions
            (map_push (obj_get "functionName" details) "calls"
                      (use_site details g) (functions g)) g
        else g
      else if str_eqb t (js "macro_definition") then
        set_macros
          (map_set (obj_get "name" details)
             (VObj (obj_set "uses" (VArr [])
                      (obj_set "file" (currentFile g) details)))
             (macros g)) g
      else g
  | _ => g
  end.

(** [processNode(node, code, filePath)].  The loop that ends
    [updateGlobalContext] calls it on every child with two arguments,
    [globalContext.currentFile] for [code] and nothing for [filePath]. *)
Fixpoint processNode (n : node) (code filePath : jsval) (g : GlobalContext)
  : obj * GlobalContext :=
  let g := set_currentFile filePath g in
  let '(details, g) := extractNodeDetails n code g in
  (details,
   fold_left (fun g' child =>
                snd (processNode child (currentFile g') VUndefined g'))
             (children n) (update_switch details g)).

(** [updateGlobalContext(details, node)] *)
Definition updateGlobalContext (details : obj) (n : node) (g : GlobalContext)
  : GlobalContext :=
  fold_left (fun g' child =>
               snd (processNode child (currentFile g') VUndefined g'))
            (children n) (update_switch details g).

(* ================================================================== *)
(** ** The chunk generator *)

(** [maybeYieldChunk]; [None] is [undefined]. *)
Definition maybeYieldChunk (n : node) (code : jsstring) (maxChunkSize : Z)
    (root : bool) : option obj :=
  if root || in_collapsedNodeConstructors (type n)
  then
    let tokenCount := countTokens (text n) in
    if (tokenCount <? maxChunkSize)%Z
    then Some [("content", VStr (text n));
               ("startLine", VNum (Z.of_nat (row (startPosition n)) + 1));
               ("endLine", VNum (Z.of_nat (row (endPosition n)) + 1))]%string
    else None
  else None.

(** How the consumption of a generator ends. *)
Inductive outcome :=
| Done
| Threw (e : exn)
| OutOfFuel.

(** What a run of a generator leaves: the chunks it yielded, in order,
    the context and the way it ended. *)
Record run := mkRun {
  yielded : list obj;
  context : GlobalContext;
  status : outcome
}.

(** An object of which the code reads no property: the node, which
    [Object(node)] returns, and the table, which [valueOf] returns. *)
Definition unread_object : jsval := VObj [].

(** The call of an inherited member with the arguments [(node, code,
    maxChunkSize)], a node, a string and a number, the table being the
    receiver.  [Object] returns the object it is given; [toString] and
    [toLocaleString] name the class of the table; the string of a node is
    no key of the table and the table is in the prototype chain of no
    node; [__defineGetter__] and [__defineSetter__] refuse [code], which
    is not a function; [__proto__] is [Object.prototype], which cannot be
    called.  The messages are those of V8. *)
Definition call_inherited (m : inherited) : exn + jsval :=
  match m with
  | Object_constructor => inr unread_object
  | valueOf => inr unread_object
  | toString | toLocaleString => inr (VStr (js "[object Object]"))
  | hasOwnProperty | isPrototypeOf | propertyIsEnumerable =>
      inr (VBool false)
  | lookupGetter | lookupSetter => inr VUndefined
  | defineGetter =>
      inl (TypeError "Object.prototype.__defineGetter__: Expecting function")
  | defineSetter =>
      inl (TypeError "Object.prototype.__defineSetter__: Expecting function")
  | proto =>
      inl (TypeError "collapsedNodeConstructors[node.type] is not a function")
  end.

(** [await collapsedNodeConstructors[node.type](node, code, maxChunkSize)] *)
Definition construct (c : entry) (n : node) (ancestors : list node)
    (code : jsstring) (maxChunkSize : Z) : outcome + jsval :=
  match c with
  | Own ClassDefinitionChunk =>
      match constructClassDefinitionChunk countTokens n code maxChunkSize with
      | Some s => inr (VStr s)
      | None => inl OutOfFuel
      end
  | Own FunctionDefinitionChunk =>
      match constructFunctionDefinitionChunk n ancestors code maxChunkSize with
      | inr s => inr (VStr s)
      | inl e => inl (Threw e)
      end
  | Inherited m =>
      match call_inherited m with
      | inr v => inr v
      | inl e => inl (Threw e)
      end
  end.

(** The object of the second [yield] (lines 447-456), before the
    details are spread into it. *)
Definition collapsed_chunk (content : jsval) (n : node) : obj :=
  [("content", content);
   ("startLine", VNum (Z.of_nat (row (startPosition n)) + 1));
   ("endLine", VNum (Z.of_nat (row (endPosition n)) + 1))]%string.

(** The chunks a [for ... yield*] loop yields on the children: the run
    so far continues with the run on the next child unless it has ended
    by an exception. *)
Definition then_child (descend : node -> GlobalContext -> run) (r : run)
    (child : node) : run :=
  match status r with
  | Done =>
      let r' := descend child (context r) in
      mkRun (yielded r ++ yielded r') (context r') (status r')
  | _ => r
  end.

(** The second declaration of [getSmartCollapsedChunks] (lines 436-462).
    Both declarations are hoisted and the later one wins: this is the
    function the name denotes wherever the program uses it. *)
Fixpoint getSmartCollapsedChunks (n : node) (ancestors : list node)
    (code : jsstring) (maxChunkSize : Z) (root : bool) (g : GlobalContext)
  : run :=
  match maybeYieldChunk n code maxChunkSize root with
  | Some chunk =>
      let '(details, g1) := extractNodeDetails n (VStr code) g in
      mkRun [spread chunk details] g1 Done
  | None =>
      let own :=
        if in_collapsedNodeConstructors (type n) then
          match constructor_of (type n) with
          | Some c =>
              match construct c n ancestors code maxChunkSize with
              | inr content =>
                  let '(details, g1) := extractNodeDetails n (VStr code) g in
                  mkRun [spread (collapsed_chunk content n) details] g1 Done
              | inl o => mkRun [] g o
              end
          | None =>
              mkRun [] g
                (Threw (TypeError
                   "collapsedNodeConstructors[node.type] is not a function"))
          end
        else mkRun [] g Done in
      fold_left
        (then_child (fun child g' =>
           getSmartCollapsedChunks child (n :: ancestors) code maxChunkSize
             false g'))
        (children n) own
  end.

(** The value the parameter [root] of the later declaration takes when a
    call gives it [filePath]: the default [true] stands in for
    [undefined], any other value is read as a condition. *)
Definition as_root (filePath : jsval) : bool :=
  match filePath with
  | VUndefined => true
  | v => truthy v
  end.

(** The first declaration of [getSmartCollapsedChunks] (lines 391-413).
    The call in its body (line 411) is a call of the name, which is bound
    to the later declaration: that one receives [filePath] where it
    expects [root], and the fifth argument is dropped. *)
Definition getSmartCollapsedChunks_l391 (n : node) (ancestors : list node)
    (code : jsstring) (maxChunkSize : Z) (filePath : jsval) (root : bool)
    (g : GlobalContext) : run :=
  match maybeYieldChunk n code maxChunkSize root with
  | Some chunk =>
      let '(details, g1) := processNode n (VStr code) filePath g in
      mkRun [spread chunk details] g1 Done
  | None =>
      let own :=
        if in_collapsedNodeConstructors (type n) then
          match constructor_of (type n) with
          | Some c =>
              match construct c n ancestors code maxChunkSize with
              | inr content =>
                  let '(details, g1) :=
                    processNode n (VStr code) filePath g in
                  mkRun [spread (collapsed_chunk content n) details] g1 Done
              | inl o => mkRun [] g o
              end
          | None =>
              mkRun [] g
                (Threw (TypeError
                   "collapsedNodeConstructors[node.type] is not a function"))
          end
        else mkRun [] g Done in
      fold_left
        (then_child (fun child g' =>
           getSmartCollapsedChunks child (n :: ancestors) code maxChunkSize
             (as_root filePath) g'))
        (children n) own
  end.

(** The fields of a chunk its consumer is promised. *)
Definition core (chunk : obj) : jsval * jsval * jsval :=
  (obj_get "content" chunk, obj_get "startLine" chunk,
   obj_get "endLine" chunk).

(** Case analysis on every test of a goal. *)
Ltac split_ifs :=
  repeat match goal with
         | |- context [if ?b then _ else _] => destruct b
         end.

(** What the node itself contributes on the collapsed path, with the
    details [details] and the context [g1] after them. *)
Definition own_run (n : node) (ancestors : list node) (code : jsstring)
    (maxChunkSize : Z) (details : obj) (g g1 : GlobalContext) : run :=
  if in_collapsedNodeConstructors (type n) then
    match constructor_of (type n) with
    | Some c =>
        match construct c n ancestors code maxChunkSize with
        | inr content =>
            mkRun [spread (collapsed_chunk content n) details] g1 Done
        | inl o => mkRun [] g o
        end
    | None =>
        mkRun [] g
          (Threw (TypeError
             "collapsedNodeConstructors[node.type] is not a function"))
    end
  else mkRun [] g Done.

(** Two runs that yield the same chunks and end the same way. *)
Definition same_chunks (r1 r2 : run) : Prop :=
  yielded r1 = yielded r2 /\ status r1 = status r2.

(* ================================================================== *)
(** ** Inputs of the examples *)

Definition pos (r c : nat) : position := mkPosition r c.

(** A node of a one-line source, from the offset [s] to the offset [e]:
    its text is its span of the source, its columns are the offsets. *)
Definition mk (code : jsstring) (t : string) (s e : nat) (cs : list node)
  : node :=
  mkNode t (slice code s e) (pos 0 s) (pos 0 e) e None cs.

(** A Rust implementation block with two methods. *)
Definition impl_code : jsstring :=
  js "impl A { fn f() { a b c } fn g() { d e f } }".

Definition impl_f_block : node := mk impl_code "block" 16 25 [].
Definition impl_g_block : node := mk impl_code "block" 33 42 [].

Definition impl_f : node :=
  mk impl_code "function_item" 9 25
     [mk impl_code "fn" 9 11 []; mk impl_code "identifier" 12 13 [];
      mk impl_code "parameters" 13 15 []; impl_f_block].

Definition impl_g : node :=
  mk impl_code "function_item" 26 42
     [mk impl_code "fn" 26 28 []; mk impl_code "identifier" 29 30 [];
      mk impl_code "parameters" 30 32 []; impl_g_block].

Definition impl_list : node :=
  mk impl_code "declaration_list" 7 44
     [mk impl_code "{" 7 8 []; impl_f; impl_g; mk impl_code "}" 43 44 []].

Definition impl_item : node :=
  mk impl_code "impl_item" 0 44
     [mk impl_code "impl" 0 4 []; mk impl_code "type_identifier" 5 6 [];
      impl_list].

(** A Java class with one method. *)
Definition java_code : jsstring := js "class A { void f() { a } }".

Definition java_method : node :=
  mk java_code "method_declaration" 10 24
     [mk java_code "void_type" 10 14 []; mk java_code "identifier" 15 16 [];
      mk java_code "formal_parameters" 16 18 [];
      mk java_code "block" 19 24 []].

Definition java_body : node :=
  mk java_code "class_body" 8 26
     [mk java_code "{" 8 9 []; java_method; mk java_code "}" 25 26 []].

Definition java_class : node :=
  mk java_code "class_declaration" 0 26
     [mk java_code "class" 0 5 []; mk java_code "identifier" 6 7 [];
      java_body].

(** A method declaration without a body. *)
Definition abstract_code : jsstring := js "void f();".

Definition abstract_method : node :=
  mk abstract_code "method_declaration" 0 9
     [mk abstract_code "void_type" 0 4 [];
      mk abstract_code "identifier" 5 6 [];
      mk abstract_code "formal_parameters" 6 8 [];
      mk abstract_code ";" 8 9 []].

(** An estimator that grows when text is removed. *)
Definition growing_estimate (s : jsstring) : Z := 1000 - Z.of_nat (length s).

Definition three_words : evict_state :=
  mkEvict (js "ab cd ef") [js "cd"; js "ef"] false.

(** The working text and the units of [impl_item] after the collapsing
    phase: [g] is collapsed first and finds the source, [f] finds the
    text [g] has left. *)
Definition impl_after_g : jsstring := impl_code ++ js "..." ++ impl_code.
Definition impl_collapsed : jsstring :=
  impl_after_g ++ js "..." ++ impl_after_g.
Definition impl_units : list jsstring :=
  [impl_after_g ++ js "..."; impl_code ++ js "..."].

(** The arguments [constructClassDefinitionChunk] gives
    [collapseChildren]. *)
Definition class_phase (n : node) (code : jsstring)
  : jsstring * list jsstring :=
  collapse_phase n code (Tags CLASS_BLOCK_NODE_TYPES)
    FUNCTION_DECLARATION_NODE_TYPES (Tags FUNCTION_BLOCK_NODE_TYPES).

(** A member that starts where its container starts. *)
Definition lone_code : jsstring := js "fn f() ...".

(** A Java class whose last method has no body. *)
Definition mixed_code : jsstring := js "class A { void f() { a } void g(); }".

Definition mixed_f : node :=
  mk mixed_code "method_declaration" 10 24
     [mk mixed_code "void_type" 10 14 []; mk mixed_code "identifier" 15 16 [];
      mk mixed_code "formal_parameters" 16 18 [];
      mk mixed_code "block" 19 24 []].

Definition mixed_g : node :=
  mk mixed_code "method_declaration" 25 34
     [mk mixed_code "void_type" 25 29 []; mk mixed_code "identifier" 30 31 [];
      mk mixed_code "formal_parameters" 31 33 [];
      mk mixed_code ";" 33 34 []].

Definition mixed_body : node :=
  mk mixed_code "class_body" 8 36
     [mk mixed_code "{" 8 9 []; mixed_f; mixed_g; mk mixed_code "}" 35 36 []].

Definition mixed_class : node :=
  mk mixed_code "class_declaration" 0 36
     [mk mixed_code "class" 0 5 []; mk mixed_code "identifier" 6 7 [];
      mixed_body].

(** A C file of two declarations. *)
Definition decls_code : jsstring := js "int x; int y;".

Definition decls_unit : node :=
  mk decls_code "translation_unit" 0 13
     [mk decls_code "declaration" 0 6 []; mk decls_code "declaration" 7 13 []].

(* ================================================================== *)
(** ** Notions used to state what the generator yields *)

(** The nodes of a tree, parents before children, children in order. *)
Fixpoint preorder (n : node) : list node :=
  n :: flat_map preorder (children n).

(** [l1] is [l2] with some elements left out. *)
Inductive subseq {A : Type} : list A -> list A -> Prop :=
| subseq_nil : subseq [] []
| subseq_skip (x : A) (l1 l2 : list A) :
    subseq l1 l2 -> subseq l1 (x :: l2)
| subseq_take (x : A) (l1 l2 : list A) :
    subseq l1 l2 -> subseq (x :: l1) (x :: l2).

(** The details of a node, which depend on nothing else. *)
Definition details_of (n : node) : obj :=
  fst (extractNodeDetails n VUndefined globalContext).

(** The chunk of a node: its text and lines, and its details. *)
Definition node_chunk (n : node) : obj :=
  spread (collapsed_chunk (VStr (text n)) n) (details_of n).

(** [node.type in collapsedNodeConstructors] *)
Definition collapsible (n : node) : bool :=
  in_collapsedNodeConstructors (type n).

(** The nodes on which the call of line 449 throws, and what it throws:
    a node that the table maps to [constructFunctionDefinitionChunk] and
    that has no child, and the nodes whose type names the member
    [__proto__], [__defineGetter__] or [__defineSetter__] of
    [Object.prototype]. *)
Inductive throwing : node -> exn -> Prop :=
| throwing_childless (m : node) :
    constructor_of (type m) = Some (Own FunctionDefinitionChunk) ->
    children m = [] ->
    throwing m
      (TypeError
         "Cannot read properties of undefined (reading 'startPosition')")
| throwing_proto (m : node) :
    type m = "__proto__"%string ->
    throwing m
      (TypeError "collapsedNodeConstructors[node.type] is not a function")
| throwing_defineGetter (m : node) :
    type m = "__defineGetter__"%string ->
    throwing m
      (TypeError "Object.prototype.__defineGetter__: Expecting function")
| throwing_defineSetter (m : node) :
    type m = "__defineSetter__"%string ->
    throwing m
      (TypeError "Object.prototype.__defineSetter__: Expecting function").

(** The generator has thrown, on a node among [nodes] that is not under
    the budget. *)
Definition failed_at (maxChunkSize : Z) (nodes : list node) (o : outcome)
  : Prop :=
  exists e m,
    o = Threw e
    /\ In m nodes
    /\ throwing m e
    /\ (maxChunkSize <= countTokens (text m))%Z.

(** A function node without children, as an error-recovering parse can
    leave it. *)
Definition empty_function : node :=
  mkNode "function_definition" (js "int f ( ) { }") (pos 0 0) (pos 0 13)
         13 None [].

(** Two lines of text with one blank line between them. *)
Definition spaced_text : jsstring :=
  js "int a;" ++ [newline; newline] ++ js "int b;".

(** The entries [extractFunctionBody] pushes for a node. *)
Definition variable_entry (n : node) : jsval :=
  VObj [("type", field_text n "type");
        ("name", field_text n "declarator");
        ("line", line_of n)]%string.

Definition control_entry (n : node) : jsval :=
  VObj [("type", VStr (js (type n)));
        ("condition", field_text n "condition");
        ("line", line_of n)]%string.

Definition call_entry (n : node) : jsval :=
  VObj [("name", field_text n "function");
        ("arguments", extractArguments (childForFieldName n "arguments"));
        ("line", line_of n)]%string.

Definition is_declaration (n : node) : bool :=
  String.eqb (type n) "declaration".

Definition is_control (n : node) : bool :=
  includes ["if_statement"; "for_statement"; "while_statement";
            "do_statement"]%string (type n).

Definition is_call (n : node) : bool :=
  String.eqb (type n) "call_expression".

(** [m.get(k)] is truthy: [k] is registered in the table. *)
Definition registered (k : jsval) (m : jsmap) : Prop :=
  truthy (map_get k m) = true.

(* ================================================================== *)
(** ** Writing the chunks *)

(** [A-Za-z0-9], what [/[a-z0-9]/i] matches. *)
Definition alnum (c : code_unit) : bool :=
  ((48 <=? c) && (c <=? 57) || (65 <=? c) && (c <=? 90)
   || (97 <=? c) && (c <=? 122))%N.

(** [s.replace(/[^a-z0-9]/gi, '_').toLowerCase()]: after the replacement
    only ASCII letters, digits and [_] are left, of which the letters
    [A-Z] are changed by [toLowerCase]. *)
Definition sanitize (s : jsstring) : jsstring :=
  map (fun c =>
         if alnum c
         then (if (65 <=? c) && (c <=? 90) then c + 32 else c)%N
         else 95%N) s.

(** A non-negative integer in a template literal. *)
Definition decimal (i : nat) : jsstring :=
  js (DecimalString.NilEmpty.string_of_uint (Nat.to_uint i)).

(** The [chunkName] of [processFile] (line 431) for the chunk of index
    [i]. *)
Definition chunkName (fileName : jsstring) (i : nat) : jsstring :=
  fileName ++ js "_chunk_" ++ decimal i.

(** The name of the file [writeChunkToFile] writes in [outputDir] (lines
    466-472); [relativeFilePath] is what [path.relative] answers. *)
Definition output_name (relativeFilePath chunkName : jsstring) : jsstring :=
  let fileIdentifier := sanitize relativeFilePath in
  let uniqueChunkName := fileIdentifier ++ js "_" ++ chunkName in
  let sanitizedName := sanitize uniqueChunkName in
  sanitizedName ++ js ".txt".

(** [a-z0-9_] *)
Definition name_unit (c : code_unit) : bool :=
  ((48 <=? c) && (c <=? 57) || (97 <=? c) && (c <=? 122) || (c =? 95))%N.

(** A computation that may throw. *)
Definition result (A : Type) : Type := (exn + A)%type.

Definition bind {A B : Type} (x : result A) (f : A -> result B) : result B :=
  match x with
  | inl e => inl e
  | inr a => f a
  end.

Notation "x <- c ;; k" := (bind c (fun x => k))
  (at level 61, c at next level, right associativity).

(** [array.map(f)], [f] being able to throw. *)
Fixpoint mapM {A B : Type} (f : A -> result B) (l : list A)
  : result (list B) :=
  match l with
  | [] => inr []
  | a :: rest =>
      b <- f a ;; bs <- mapM f rest ;; inr (b :: bs)
  end.

(** [strings.join(sep)] *)
Fixpoint join (sep : jsstring) (l : list jsstring) : jsstring :=
  match l with
  | [] => []
  | [s] => s
  | s :: rest => s ++ sep ++ join sep rest
  end.

(** An integer as a template literal prints it. *)
Definition number_string (z : Z) : jsstring :=
  js (DecimalString.NilEmpty.string_of_int (Z.to_int z)).

(** [`${v}`]: the string of a value.  An array is the join by [,] of the
    strings of its elements, [undefined] counting as empty. *)
Fixpoint to_js_string (v : jsval) : jsstring :=
  match v with
  | VUndefined => js "undefined"
  | VNum z => number_string z
  | VBool true => js "true"
  | VBool false => js "false"
  | VStr s => s
  | VArr l =>
      join (js ",")
           ((fix elems (l : list jsval) : list jsstring :=
               match l with
               | [] => []
               | VUndefined :: rest => [] :: elems rest
               | x :: rest => to_js_string x :: elems rest
               end) l)
  | VObj _ => js "[object Object]"
  end.

(** The string of an element in [array.join]. *)
Definition element_string (v : jsval) : jsstring :=
  match v with
  | VUndefined => []
  | _ => to_js_string v
  end.

(** [v.key], for the keys read here, none of which a string, an array or
    a number has. *)
Definition prop (v : jsval) (key : string) : result jsval :=
  match v with
  | VUndefined =>
      inl (TypeError
             ("Cannot read properties of undefined (reading '" ++ key
              ++ "')"))
  | VObj o => inr (obj_get key o)
  | _ => inr VUndefined
  end.

(** The array on which a method of arrays, [map] or [join], is called. *)
Definition array_for (method : string) (v : jsval) : result (list jsval) :=
  match v with
  | VArr l => inr l
  | VUndefined =>
      inl (TypeError
             ("Cannot read properties of undefined (reading '" ++ method
              ++ "')"))
  | _ => inl (TypeError (method ++ " is not a function"))
  end.

(** The lines of [content] every chunk gets first (lines 474-478);
    [fileName] is what [path.basename] answers. *)
Definition content_header (chunk : obj) (filePath fileName : jsstring)
  : jsstring :=
  js "File: " ++ filePath ++ [newline]
  ++ js "File Name: " ++ fileName ++ [newline]
  ++ js "Node Type: " ++ to_js_string (obj_get "type" chunk) ++ [newline]
  ++ js "Start Line: " ++ to_js_string (obj_get "startLine" chunk)
  ++ [newline]
  ++ js "End Line: " ++ to_js_string (obj_get "endLine" chunk) ++ [newline].

(** The lines of a function definition (lines 481-487). *)
Definition function_section (chunk : obj) : result jsstring :=
  let name := js "Function Name: " ++ to_js_string (obj_get "name" chunk)
              ++ [newline] in
  let returnType :=
    js "Return Type: " ++ to_js_string (obj_get "returnType" chunk)
    ++ [newline] in
  ps <- array_for "map" (obj_get "parameters" chunk) ;;
  parameters <-
    mapM (fun p =>
            t <- prop p "type" ;;
            n <- prop p "name" ;;
            inr (js "  - " ++ to_js_string t ++ js " " ++ to_js_string n))
         ps ;;
  vs0 <- prop (obj_get "body" chunk) "variables" ;;
  vs <- array_for "map" vs0 ;;
  variables <-
    mapM (fun v =>
            t <- prop v "type" ;;
            n <- prop v "name" ;;
            l <- prop v "line" ;;
            inr (js "    - " ++ to_js_string t ++ js " " ++ to_js_string n
                 ++ js " (line " ++ to_js_string l ++ js ")"))
         vs ;;
  cs0 <- prop (obj_get "body" chunk) "controlStructures" ;;
  cs <- array_for "map" cs0 ;;
  controls <-
    mapM (fun c =>
            t <- prop c "type" ;;
            l <- prop c "line" ;;
            k <- prop c "condition" ;;
            inr (js "    - " ++ to_js_string t ++ js " (line "
                 ++ to_js_string l ++ js "): " ++ to_js_string k))
         cs ;;
  fs0 <- prop (obj_get "body" chunk) "functionCalls" ;;
  fs <- array_for "map" fs0 ;;
  calls <-
    mapM (fun fc =>
            n <- prop fc "name" ;;
            a0 <- prop fc "arguments" ;;
            a <- array_for "join" a0 ;;
            l <- prop fc "line" ;;
            inr (js "    - " ++ to_js_string n ++ js "("
                 ++ join (js ", ") (map element_string a)
                 ++ js ") (line " ++ to_js_string l ++ js ")"))
         fs ;;
  inr (name ++ returnType
       ++ js "Parameters:" ++ [newline] ++ join [newline] parameters
       ++ [newline]
       ++ js "Function Body:" ++ [newline]
       ++ js "  Variables:" ++ [newline] ++ join [newline] variables
       ++ [newline]
       ++ js "  Control Structures:" ++ [newline] ++ join [newline] controls
       ++ [newline]
       ++ js "  Function Calls:" ++ [newline] ++ join [newline] calls
       ++ [newline]).

(** [if (chunk.key) content += `label${chunk.key}\n`] *)
Definition optional_line (label key : string) (chunk : obj) : jsstring :=
  if truthy (obj_get key chunk)
  then js label ++ to_js_string (obj_get key chunk) ++ [newline]
  else [].

(** The lines of any other chunk (lines 490-497). *)
Definition other_section (chunk : obj) : result jsstring :=
  arguments <-
    (if truthy (obj_get "arguments" chunk)
     then a <- array_for "join" (obj_get "arguments" chunk) ;;
          inr (js "Arguments: " ++ join (js ", ") (map element_string a)
               ++ [newline])
     else inr []) ;;
  inr (optional_line "Name: " "name" chunk
       ++ optional_line "Declaration Type: " "declarationType" chunk
       ++ optional_line "Declaration Name: " "declarationName" chunk
       ++ (if truthy (obj_get "isPointer" chunk)
           then js "Is Pointer: Yes" ++ [newline] else [])
       ++ optional_line "Usage: " "usage" chunk
       ++ optional_line "Function Name: " "functionName" chunk
       ++ arguments
       ++ optional_line "Include Path: " "path" chunk).

(** The last lines (line 500). *)
Definition content_footer (chunk : obj) : jsstring :=
  [newline] ++ js "Content:" ++ [newline]
  ++ to_js_string (obj_get "content" chunk) ++ [newline].

(** The [content] [writeChunkToFile] writes (lines 474-500), or what it
    throws before writing. *)
Definition writeChunkToFile_content (chunk : obj)
    (filePath fileName : jsstring) : result jsstring :=
  section <-
    (if key_eqb (obj_get "type" chunk) (VStr (js "function_definition"))
     then function_section chunk
     else other_section chunk) ;;
  inr (content_header chunk filePath fileName ++ section
       ++ content_footer chunk).

(** [writeChunkToFile]: the file written, name and content. *)
Definition writeChunkToFile (relativeFilePath fileName : jsstring)
    (chunkName : jsstring) (chunk : obj) (filePath : jsstring)
  : result (jsstring * jsstring) :=
  content <- writeChunkToFile_content chunk filePath fileName ;;
  inr (output_name relativeFilePath chunkName, content).

(** The loop of [processFile] (lines 429-433) on the chunks the generator
    yields, from the index [i] on: the files written, and the exception
    that ended the loop if one did. *)
Fixpoint write_chunks (relativeFilePath fileName filePath : jsstring)
    (i : nat) (chunks : list obj)
  : list (jsstring * jsstring) * option exn :=
  match chunks with
  | [] => ([], None)
  | chunk :: rest =>
      match writeChunkToFile relativeFilePath fileName
              (chunkName fileName i) chunk filePath with
      | inl e => ([], Some e)
      | inr file =>
          let '(files, e) :=
            write_chunks relativeFilePath fileName filePath (S i) rest in
          (file :: files, e)
      end
  end.

(** [processFile] from the parsed tree on: [rootNode] is [tree.rootNode],
    [code] the text read; the budget is 1000. *)
Definition processFile (rootNode : node) (code : jsstring)
    (relativeFilePath fileName filePath : jsstring) (g : GlobalContext)
  : list (jsstring * jsstring) * outcome :=
  let r := getSmartCollapsedChunks rootNode [] code 1000 true g in
  match write_chunks relativeFilePath fileName filePath 0 (yielded r) with
  | (files, Some e) => (files, Threw e)
  | (files, None) => (files, status r)
  end.

(** A C function with a body. *)
Definition c_code : jsstring := js "int f() { g(1); }".

Definition field (name : string) (n : node) : node :=
  mkNode (type n) (text n) (startPosition n) (endPosition n) (endIndex n)
         (Some name) (children n).

Definition c_call : node :=
  mk c_code "call_expression" 10 14
     [field "function" (mk c_code "identifier" 10 11 []);
      field "arguments"
        (mk c_code "argument_list" 11 14
            [mk c_code "(" 11 12 []; mk c_code "number_literal" 12 13 [];
             mk c_code ")" 13 14 []])].

Definition c_body : node :=
  mk c_code "compound_statement" 8 17
     [mk c_code "{" 8 9 [];
      mk c_code "expression_statement" 10 15 [c_call; mk c_code ";" 14 15 []];
      mk c_code "}" 16 17 []].

Definition c_function : node :=
  mk c_code "function_definition" 0 17
     [field "type" (mk c_code "primitive_type" 0 3 []);
      field "declarator" (mk c_code "function_declarator" 4 7 []);
      field "body" c_body].

(** The content written for the chunk of the node [m], [section] being
    the lines that depend on its type. *)
Definition file_content (m : node) (filePath fileName section : jsstring)
  : jsstring :=
  js "File: " ++ filePath ++ [newline]
  ++ js "File Name: " ++ fileName ++ [newline]
  ++ js "Node Type: " ++ js (type m) ++ [newline]
  ++ js "Start Line: "
  ++ number_string (Z.of_nat (row (startPosition m)) + 1) ++ [newline]
  ++ js "End Line: "
  ++ number_string (Z.of_nat (row (endPosition m)) + 1) ++ [newline]
  ++ section
  ++ [newline] ++ js "Content:" ++ [newline] ++ text m ++ [newline].

(** A [function_definition] without a child for the field [body]. *)
Definition bodiless_function (m : node) : Prop :=
  type m = "function_definition"%string /\ childForFieldName m "body" = None.

(** A class declaration without a body, behind an import. *)
Definition forward_code : jsstring := js "import b; class A;".

Definition forward_class : node :=
  mk forward_code "class_declaration" 10 18
     [mk forward_code "class" 10 15 []; mk forward_code "identifier" 16 17 [];
      mk forward_code ";" 17 18 []].

(** A node whose type names a member of [Object.prototype]. *)
Definition keyword_code : jsstring := js "a constructor b".

Definition keyword_node : node :=
  mk keyword_code "constructor" 2 13 [].

Definition keyword_root : node :=
  mk keyword_code "program" 0 15
     [mk keyword_code "identifier" 0 1 []; keyword_node;
      mk keyword_code "identifier" 14 15 []].

(* ================================================================== *)
(** * Properties *)

(** ** The token estimator *)

Lemma split_ws_go_length (s : jsstring) :
  forall in_ws cur,
    length (split_ws_go in_ws cur s) = S (ws_runs_go in_ws s).
Proof.
  induction s as [|c r IH]; intros in_ws cur; simpl; [reflexivity|].
  destruct (is_ws c).
  - destruct in_ws; simpl; rewrite IH; reflexivity.
  - apply IH.
Qed.

Lemma countTokens_ws_runs (text : jsstring) :
  countTokens text = (Z.of_nat (ws_runs text) + 1)%Z.
Proof.
  unfold countTokens, split_ws, ws_runs.
  rewrite split_ws_go_length. lia.
Qed.

Lemma last_ws_snoc (s : jsstring) :
  forall p c, last_ws p (s ++ [c]) = is_ws c.
Proof.
  induction s as [|d r IH]; intros p c; simpl; [reflexivity|apply IH].
Qed.

Lemma ends_ws_last_ws (s : jsstring) : ends_ws s = last_ws false s.
Proof.
  unfold ends_ws.
  destruct (rev s) as [|c l] eqn:E.
  - apply (f_equal (@rev _)) in E. rewrite rev_involutive in E.
    subst s. reflexivity.
  - apply (f_equal (@rev _)) in E. rewrite rev_involutive in E.
    subst s. simpl. rewrite last_ws_snoc. reflexivity.
Qed.

Lemma runs_balance (s : jsstring) :
  ws_runs_go true s + 1 = nonws_runs_go false s + b2n (last_ws true s)
  /\ ws_runs_go false s = nonws_runs_go true s + b2n (last_ws false s).
Proof.
  induction s as [|c r [IHa IHb]]; simpl; [split; reflexivity|].
  destruct (is_ws c); simpl; split; lia.
Qed.

Lemma countTokens_words (text : jsstring) :
  countTokens text =
  match text with
  | [] => 1%Z
  | _ :: _ =>
      Z.of_nat (nonws_runs text + b2n (starts_ws text) + b2n (ends_ws text))
  end.
Proof.
  rewrite countTokens_ws_runs, ends_ws_last_ws.
  unfold ws_runs, nonws_runs.
  destruct text as [|c r]; [reflexivity|].
  destruct (runs_balance r) as [Ha Hb].
  simpl. destruct (is_ws c); simpl; lia.
Qed.

(** C6, as the code has it: [countTokens] is one more than the number of
    maximal runs of white space; on a non-empty text that is the number of
    maximal runs of non-white-space code units, plus one when the text
    starts with white space and plus one when it ends with white space;
    on the empty text it is 1. *)
Theorem countTokens_run_count (text : jsstring) :
  countTokens text = (Z.of_nat (ws_runs text) + 1)%Z
  /\ countTokens text =
     match text with
     | [] => 1%Z
     | _ :: _ =>
         Z.of_nat (nonws_runs text + b2n (starts_ws text)
                   + b2n (ends_ws text))
     end.
Proof.
  split; [apply countTokens_ws_runs|apply countTokens_words].
Qed.

(** C6, as the claim has it, fails on a text with leading white space:
    [" a"] has one run of non-white-space code units and two tokens. *)
Lemma countTokens_leading_space :
  countTokens (js " a") <> Z.of_nat (nonws_runs (js " a")).
Proof. vm_compute. discriminate. Qed.

(** ** Placeholders *)

Lemma js_braces_not_dots : js "{ ... }" <> js "...".
Proof. vm_compute. discriminate. Qed.

(** C3, as the code has it: the placeholder is ["{ ... }"] exactly when
    the body's tag is [statement_block] or [compound_statement], two of
    the three tags the collapser accepts as a function body, and ["..."]
    otherwise, [block] included. *)
Theorem collapsedReplacement_placeholder (n : node) :
  (collapsedReplacement n = js "{ ... }" <->
   type n = "statement_block"%string \/ type n = "compound_statement"%string)
  /\ (collapsedReplacement n = js "..." <->
      ~ (type n = "statement_block"%string
         \/ type n = "compound_statement"%string))
  /\ (collapsedReplacement n = js "{ ... }" <->
      includes FUNCTION_BLOCK_NODE_TYPES (type n) = true
      /\ type n <> "block"%string).
Proof.
  unfold collapsedReplacement, FUNCTION_BLOCK_NODE_TYPES, includes.
  simpl existsb.
  destruct (String.eqb_spec (type n) "statement_block") as [E1|E1];
    destruct (String.eqb_spec (type n) "compound_statement") as [E2|E2];
    destruct (String.eqb_spec (type n) "block") as [E3|E3];
    simpl; repeat split; intros;
    try congruence; try tauto;
    try (exfalso; apply js_braces_not_dots; congruence);
    try (intros [?|?]; congruence);
    try (rewrite E1 in *; discriminate);
    try (rewrite E2 in *; discriminate).
  all: try (destruct H; congruence).
Qed.

(** C3, as the claim has it, fails on [block]: the body of the Rust
    method [f] is the brace-delimited block the collapser picks as its
    body, and its placeholder is ["..."]. *)
Lemma block_body_gets_dots :
  firstChild impl_f (Tags FUNCTION_BLOCK_NODE_TYPES) = Some impl_f_block
  /\ includes FUNCTION_BLOCK_NODE_TYPES (type impl_f_block) = true
  /\ text impl_f_block = js "{ a b c }"
  /\ collapsedReplacement impl_f_block = js "..."
  /\ collapsedReplacement impl_f_block <> js "{ ... }".
Proof. repeat split; try reflexivity. vm_compute. discriminate. Qed.

(** ** The rendering of a function-like node *)

Lemma lastChild_none (n : node) : lastChild n = None <-> children n = [].
Proof.
  unfold lastChild. destruct (children n) as [|c cs] eqn:E.
  - tauto.
  - split; [|discriminate].
    intros H. apply nth_error_None in H. simpl in H. lia.
Qed.

Lemma lastChild_some (n : node) :
  children n <> [] ->
  exists front b, children n = front ++ [b] /\ lastChild n = Some b.
Proof.
  intros Hne. unfold lastChild.
  destruct (exists_last Hne) as [front [b E]].
  exists front, b. split; [exact E|].
  destruct (children n) as [|c cs] eqn:Ec; [congruence|].
  rewrite E, length_app, nth_error_app2; simpl; [|lia].
  replace (length front + 1 - 1 - length front) with 0 by lia.
  reflexivity.
Qed.

(** A bound [undefined] on both sides: the slice is the whole string. *)
Lemma slice_opt_whole (s : jsstring) : slice_opt s None None = s.
Proof.
  unfold slice_opt, slice. rewrite Nat.sub_0_r. cbn [skipn].
  apply firstn_all.
Qed.

Lemma slice_opt_from_0 (s : jsstring) : slice_opt s (Some 0) None = s.
Proof.
  unfold slice_opt, slice. rewrite Nat.sub_0_r. cbn [skipn].
  apply firstn_all.
Qed.

(** Only the parent and the grandparent are read. *)
Lemma function_chunk_two_levels (n : node) (ancestors ancestors' : list node)
    (code : jsstring) (maxChunkSize : Z) :
  firstn 2 ancestors = firstn 2 ancestors' ->
  constructFunctionDefinitionChunk n ancestors code maxChunkSize
  = constructFunctionDefinitionChunk n ancestors' code maxChunkSize.
Proof.
  intros H. unfold constructFunctionDefinitionChunk.
  destruct (lastChild n); [|reflexivity].
  destruct ancestors as [|p [|q above]];
    destruct ancestors' as [|p' [|q' above']]; simpl in H;
    try discriminate; try reflexivity.
  inversion H; subst. reflexivity.
Qed.

(** The rendering inside a container: the source, an ellipsis line, the
    indentation, the source again and the placeholder. *)
Lemma function_chunk_in_container
    (n classBlock classNode bodyNode : node) (above : list node)
    (code : jsstring) (maxChunkSize : Z) :
  lastChild n = Some bodyNode ->
  includes ["block"; "declaration_list"]%string (type classBlock) = true ->
  includes ["class_definition"; "impl_item"]%string (type classNode) = true ->
  constructFunctionDefinitionChunk n (classBlock :: classNode :: above)
    code maxChunkSize
  = inr (code ++ js "..." ++ [newline; newline]
         ++ repeat_space (column (startPosition n))
         ++ code ++ collapsedReplacement bodyNode).
Proof.
  intros Hb Hp Hg. unfold constructFunctionDefinitionChunk.
  rewrite Hb, Hp, Hg. unfold index. rewrite slice_opt_whole. reflexivity.
Qed.

(** The rendering without such a container: the source and the
    placeholder. *)
Lemma function_chunk_plain (n bodyNode : node) (ancestors : list node)
    (code : jsstring) (maxChunkSize : Z) :
  lastChild n = Some bodyNode ->
  (forall classBlock classNode above,
      ancestors = classBlock :: classNode :: above ->
      includes ["block"; "declaration_list"]%string (type classBlock)
      && includes ["class_definition"; "impl_item"]%string (type classNode)
      = false) ->
  constructFunctionDefinitionChunk n ancestors code maxChunkSize
  = inr (code ++ collapsedReplacement bodyNode).
Proof.
  intros Hb Hno. unfold constructFunctionDefinitionChunk. rewrite Hb.
  unfold index. rewrite slice_opt_whole.
  destruct ancestors as [|p [|g above]]; try reflexivity.
  rewrite (Hno p g above eq_refl). reflexivity.
Qed.

(** C4, as the code has it: when the parent's tag is [block] or
    [declaration_list] and the grandparent's tag is [class_definition]
    or [impl_item], the rendering is a leading text, an ellipsis line,
    the indentation of the node and the rendering the node has on its
    own, which ends in the placeholder of its last child; with any other
    parent or grandparent, or without them, it is the rendering the node
    has on its own, with nothing in front.  The rendering is the same for
    any two chains of ancestors with the same parent and grandparent. *)
Theorem function_chunk_container_prefix (n bodyNode : node)
    (ancestors : list node) (code : jsstring) (maxChunkSize : Z) :
  lastChild n = Some bodyNode ->
  exists alone,
    constructFunctionDefinitionChunk n [] code maxChunkSize = inr alone
    /\ (exists text, alone = text ++ collapsedReplacement bodyNode)
    /\ (forall classBlock classNode above,
          ancestors = classBlock :: classNode :: above ->
          includes ["block"; "declaration_list"]%string (type classBlock)
          = true ->
          includes ["class_definition"; "impl_item"]%string (type classNode)
          = true ->
          exists leading,
            constructFunctionDefinitionChunk n ancestors code maxChunkSize
            = inr (leading ++ js "..." ++ [newline; newline]
                   ++ repeat_space (column (startPosition n)) ++ alone))
    /\ ((forall classBlock classNode above,
           ancestors = classBlock :: classNode :: above ->
           includes ["block"; "declaration_list"]%string (type classBlock)
           && includes ["class_definition"; "impl_item"]%string
                       (type classNode)
           = false) ->
        constructFunctionDefinitionChunk n ancestors code maxChunkSize
        = inr alone)
    /\ forall ancestors',
         firstn 2 ancestors = firstn 2 ancestors' ->
         constructFunctionDefinitionChunk n ancestors code maxChunkSize
         = constructFunctionDefinitionChunk n ancestors' code maxChunkSize.
Proof.
  intros Hb. exists (code ++ collapsedReplacement bodyNode).
  split.
  { apply (function_chunk_plain n bodyNode [] code maxChunkSize Hb).
    intros classBlock classNode above E. discriminate E. }
  split; [exists code; reflexivity|]. split; [|split].
  - intros classBlock classNode above -> Hp Hg. exists code.
    apply function_chunk_in_container; assumption.
  - apply function_chunk_plain. exact Hb.
  - intros ancestors'. apply function_chunk_two_levels.
Qed.

Lemma function_chunk_container_prefix_witness :
  exists alone leading,
    constructFunctionDefinitionChunk impl_f [] impl_code 5 = inr alone
    /\ constructFunctionDefinitionChunk impl_f [impl_list; impl_item]
         impl_code 5
       = inr (leading ++ js "..." ++ [newline; newline]
              ++ js "         " ++ alone).
Proof.
  destruct (function_chunk_container_prefix impl_f impl_f_block
              [impl_list; impl_item] impl_code 5%Z eq_refl)
    as [alone [Ha [_ [Hin _]]]].
  destruct (Hin impl_list impl_item [] eq_refl eq_refl eq_refl)
    as [leading Hl].
  exists alone, leading. split; [exact Ha|exact Hl].
Defined.

(** C4, as the claim has it, fails on a method of a Java class: the
    class is a container, the method is a direct member of its body
    block, and the rendering has nothing of the class in front: it is the
    rendering the method has on its own, and there is no ellipsis line in
    it. *)
Lemma java_method_no_prefix :
  constructor_of (type java_class) = Some (Own ClassDefinitionChunk)
  /\ firstChild java_class (Tags CLASS_BLOCK_NODE_TYPES) = Some java_body
  /\ In java_method (children java_body)
  /\ includes FUNCTION_DECLARATION_NODE_TYPES (type java_method) = true
  /\ constructFunctionDefinitionChunk java_method [java_body; java_class]
       java_code 5
     = constructFunctionDefinitionChunk java_method [] java_code 5
  /\ constructFunctionDefinitionChunk java_method [java_body; java_class]
       java_code 5
     = inr (java_code ++ js "...")
  /\ existsb (unit_eqb newline) (java_code ++ js "...") = false.
Proof.
  repeat split; try reflexivity.
  simpl. right. left. reflexivity.
Qed.

(** C5, as the code has it: the rendering fails exactly when the node has
    no child at all, with the type error of a property read on
    [undefined], whose message names neither span nor tag; a node with
    children is rendered whatever its last child is, and the rendering
    ends in the placeholder of that child. *)
Theorem function_chunk_failure (n : node) (ancestors : list node)
    (code : jsstring) (maxChunkSize : Z) :
  (children n = [] <->
   constructFunctionDefinitionChunk n ancestors code maxChunkSize
   = inl (TypeError
            "Cannot read properties of undefined (reading 'startPosition')"))
  /\ (children n <> [] <->
      exists front b text,
        children n = front ++ [b]
        /\ constructFunctionDefinitionChunk n ancestors code maxChunkSize
           = inr (text ++ collapsedReplacement b)).
Proof.
  split.
  - split.
    + intros E. apply lastChild_none in E.
      unfold constructFunctionDefinitionChunk. rewrite E. reflexivity.
    + intros H. apply lastChild_none.
      unfold constructFunctionDefinitionChunk in H.
      destruct (lastChild n); [|reflexivity].
      destruct ancestors as [|p [|g above]]; try discriminate.
      destruct (_ && _); discriminate.
  - split.
    + intros Hne. destruct (lastChild_some n Hne) as [front [b [E Hb]]].
      unfold constructFunctionDefinitionChunk. rewrite Hb.
      destruct ancestors as [|p [|g above]];
        try (exists front, b; eexists; split; [exact E|reflexivity]).
      destruct (_ && _).
      * exists front, b. eexists. split; [exact E|].
        rewrite !app_assoc. reflexivity.
      * exists front, b. eexists. split; [exact E|reflexivity].
    + intros [front [b [text [E _]]]] Hnil. rewrite Hnil in E.
      destruct front; discriminate.
Qed.

(** C5, as the claim has it, fails on a method declaration without a
    body: the call returns, and the text ends in a placeholder, the one
    of the final [;]. *)
Lemma bodiless_method_is_rendered :
  firstChild abstract_method (Tags FUNCTION_BLOCK_NODE_TYPES) = None
  /\ constructor_of (type abstract_method)
     = Some (Own FunctionDefinitionChunk)
  /\ lastChild abstract_method = Some (mk abstract_code ";" 8 9 [])
  /\ constructFunctionDefinitionChunk abstract_method [] abstract_code 5
     = inr (js "void f();...").
Proof. repeat split; reflexivity. Qed.

(** ** [lastIndexOf] *)

Lemma unit_eqb_eq (a b : code_unit) : unit_eqb a b = true <-> a = b.
Proof. unfold unit_eqb. apply N.eqb_eq. Qed.

Lemma starts_with_prefix (u : jsstring) :
  forall s, starts_with u s = true <-> exists post, s = u ++ post.
Proof.
  induction u as [|x u IH]; intros s; simpl.
  - split; [intros _; exists s; reflexivity | reflexivity].
  - destruct s as [|y s].
    + split; [discriminate | intros [post E]; discriminate].
    + rewrite andb_true_iff, unit_eqb_eq, IH. split.
      * intros [-> [post ->]]. exists post. reflexivity.
      * intros [post E]. inversion E; subst. split; [reflexivity|].
        exists post. reflexivity.
Qed.

Lemma occurs_at_starts_with (code u : jsstring) (i : nat) :
  occurs_at code u i <->
  i <= length code /\ starts_with u (skipn i code) = true.
Proof.
  unfold occurs_at. rewrite starts_with_prefix. split.
  - intros [pre [post [-> <-]]]. split.
    + rewrite length_app. lia.
    + exists post. rewrite skipn_app, skipn_all, Nat.sub_diag. reflexivity.
  - intros [Hi [post E]]. exists (firstn i code), post. split.
    + rewrite <- E. symmetry. apply firstn_skipn.
    + apply firstn_length_le. exact Hi.
Qed.

(** The scan keeps the last offset at which [u] starts. *)
Lemma last_index_go_spec (u : jsstring) :
  forall s k found,
    (last_index_go u s k found = found
     /\ forall j, j <= length s -> starts_with u (skipn j s) = false)
    \/ (exists j, j <= length s
        /\ last_index_go u s k found = (k + Z.of_nat j)%Z
        /\ starts_with u (skipn j s) = true
        /\ forall j', j < j' <= length s ->
                      starts_with u (skipn j' s) = false).
Proof.
  induction s as [|c r IH]; intros k found.
  - simpl. destruct (starts_with u []) eqn:E.
    + right. exists 0. simpl. repeat split; try lia; try exact E.
    + left. split; [reflexivity|].
      intros j Hj. simpl in Hj. replace j with 0 by lia. exact E.
  - cbn [last_index_go].
    destruct (IH (k + 1)%Z (if starts_with u (c :: r) then k else found))
      as [[Hr Hno]|[j [Hj [Hr [Hyes Hno]]]]].
    + rewrite Hr. destruct (starts_with u (c :: r)) eqn:E.
      * right. exists 0. simpl. repeat split; try lia; try exact E.
        intros j' Hj'. destruct j' as [|j']; [lia|].
        simpl. apply Hno. lia.
      * left. split; [reflexivity|].
        intros j Hj. destruct j as [|j]; [exact E|].
        simpl. apply Hno. simpl in Hj. lia.
    + right. exists (S j). simpl. repeat split; try lia; try exact Hyes.
      intros j' Hj'. destruct j' as [|j']; [lia|].
      simpl. apply Hno. lia.
Qed.

Lemma lastIndexOf_spec (code u : jsstring) :
  (lastIndexOf code u = (-1)%Z /\ absent code u)
  \/ (exists i, lastIndexOf code u = Z.of_nat i /\ last_occurrence code u i).
Proof.
  unfold lastIndexOf.
  destruct (last_index_go_spec u code 0 (-1))
    as [[Hr Hno]|[j [Hj [Hr [Hyes Hno]]]]].
  - left. split; [exact Hr|].
    intros i Hi. apply occurs_at_starts_with in Hi. destruct Hi as [Hi Hs].
    rewrite Hno in Hs by exact Hi. discriminate.
  - right. exists j. split; [rewrite Hr; lia|]. split.
    + apply occurs_at_starts_with. split; assumption.
    + intros j' Hj'. apply occurs_at_starts_with in Hj'.
      destruct Hj' as [Hle Hs].
      destruct (Nat.le_gt_cases j' j) as [H|H]; [exact H|].
      rewrite Hno in Hs by lia. discriminate.
Qed.

Lemma last_occurrence_unique (code u : jsstring) (i j : nat) :
  last_occurrence code u i -> last_occurrence code u j -> i = j.
Proof.
  intros [Hi Hmi] [Hj Hmj]. apply Nat.le_antisymm; auto.
Qed.

Lemma lastIndexOf_last (code u : jsstring) (i : nat) :
  last_occurrence code u i -> lastIndexOf code u = Z.of_nat i.
Proof.
  intros H. destruct (lastIndexOf_spec code u) as [[_ Ha]|[j [E Hj]]].
  - exfalso. apply (Ha i). apply H.
  - rewrite E. f_equal. apply (last_occurrence_unique code u); assumption.
Qed.

Lemma lastIndexOf_absent (code u : jsstring) :
  absent code u -> lastIndexOf code u = (-1)%Z.
Proof.
  intros H. destruct (lastIndexOf_spec code u) as [[E _]|[j [_ [Hj _]]]].
  - exact E.
  - exfalso. apply (H j). exact Hj.
Qed.

(** ** The eviction loop *)

Section EvictionLoop.

Variable estimate : jsstring -> Z.
Variable maxChunkSize : Z.

Lemma evict_body_snoc (code : jsstring) (units : list jsstring)
    (u : jsstring) (removed : bool) :
  evict_body (mkEvict code (units ++ [u]) removed)
  = mkEvict (evict_text code u) units true.
Proof.
  unfold evict_body. simpl. rewrite last_last, removelast_last. reflexivity.
Qed.

(** [k] turns of the loop pop the last [k] units, last first. *)
Lemma iter_evict_body :
  forall k popped code removed,
    k <= length popped ->
    Nat.iter k evict_body (mkEvict code (rev popped) removed)
    = mkEvict (fold_left evict_text (firstn k popped) code)
              (rev (skipn k popped)) (removed || (0 <? k)).
Proof.
  induction k as [|k IH]; intros popped code removed Hk.
  - simpl. rewrite orb_false_r. reflexivity.
  - destruct popped as [|u popped]; [simpl in Hk; lia|].
    rewrite Nat.iter_succ_r. cbn [rev].
    rewrite evict_body_snoc, IH by (simpl in Hk; lia).
    simpl. rewrite orb_true_r. reflexivity.
Qed.

Lemma evict_guard_units (st : evict_state) :
  evict_guard estimate maxChunkSize st = true -> ev_units st <> [].
Proof.
  unfold evict_guard. intros H E. rewrite E in H. simpl in H.
  rewrite andb_false_r in H. discriminate.
Qed.

Lemma evict_body_length (st : evict_state) :
  ev_units st <> [] ->
  S (length (ev_units (evict_body st))) = length (ev_units st).
Proof.
  destruct st as [code units removed]. cbn [ev_units]. intros Hne.
  destruct (exists_last Hne) as [front [u E]]. subst units.
  rewrite evict_body_snoc. cbn [ev_units]. rewrite length_app. simpl. lia.
Qed.

(** With more fuel than units, the loop ends, after at most as many turns
    as there are units. *)
Lemma evict_loop_run :
  forall fuel st,
    length (ev_units st) < fuel ->
    exists k,
      k <= length (ev_units st)
      /\ evict_loop estimate fuel maxChunkSize st
         = Some (Nat.iter k evict_body st)
      /\ evict_guard estimate maxChunkSize (Nat.iter k evict_body st) = false
      /\ forall j, j < k ->
           evict_guard estimate maxChunkSize (Nat.iter j evict_body st)
           = true.
Proof.
  induction fuel as [|fuel IH]; intros st Hfuel; [lia|].
  simpl. destruct (evict_guard estimate maxChunkSize st) eqn:G.
  - pose proof (evict_body_length st (evict_guard_units st G)) as Hlen.
    destruct (IH (evict_body st)) as [k [Hk [Hrun [Hstop Hgo]]]]; [lia|].
    exists (S k). rewrite Nat.iter_succ_r. repeat split; try assumption.
    + lia.
    + intros j Hj. destruct j as [|j]; [exact G|].
      rewrite Nat.iter_succ_r. apply Hgo. lia.
  - exists 0. simpl. repeat split; try assumption; try lia.
Qed.

End EvictionLoop.

(** The same, with the guard spelt out. *)
Lemma evict_loop_stops (estimate : jsstring -> Z) (maxChunkSize : Z)
    (st : evict_state) (fuel : nat) :
  length (ev_units st) < fuel ->
  exists k,
    k <= length (ev_units st)
    /\ evict_loop estimate fuel maxChunkSize st
       = Some (Nat.iter k evict_body st)
    /\ (forall j, j < k ->
          (maxChunkSize
           < estimate (trim (ev_code (Nat.iter j evict_body st))))%Z
          /\ ev_units (Nat.iter j evict_body st) <> [])
    /\ ((estimate (trim (ev_code (Nat.iter k evict_body st)))
         <= maxChunkSize)%Z
        \/ ev_units (Nat.iter k evict_body st) = []).
Proof.
  intros Hfuel.
  destruct (evict_loop_run estimate maxChunkSize fuel st Hfuel)
    as [k [Hk [Hrun [Hstop Hgo]]]].
  exists k. repeat split; try assumption.
  - specialize (Hgo j H). unfold evict_guard in Hgo.
    apply andb_true_iff in Hgo. destruct Hgo as [Hgo _].
    apply Z.ltb_lt in Hgo. exact Hgo.
  - apply (evict_guard_units estimate maxChunkSize). apply Hgo. exact H.
  - unfold evict_guard in Hstop. apply andb_false_iff in Hstop.
    destruct Hstop as [Hs|Hs].
    + left. apply Z.ltb_ge in Hs. exact Hs.
    + right. apply Nat.ltb_ge in Hs.
      destruct (ev_units (Nat.iter k evict_body st)); [reflexivity|].
      simpl in Hs. lia.
Qed.

(** C8: whatever the estimator, monotone or not, the loop given more fuel
    than there are units ends after [k] turns, [k] at most the number of
    units; it then holds a text within the budget or no unit at all. *)
Theorem eviction_terminates (estimate : jsstring -> Z) (maxChunkSize : Z)
    (st : evict_state) (fuel : nat) :
  length (ev_units st) < fuel ->
  exists k,
    k <= length (ev_units st)
    /\ evict_loop estimate fuel maxChunkSize st
       = Some (Nat.iter k evict_body st)
    /\ (forall j, j < k ->
          (maxChunkSize
           < estimate (trim (ev_code (Nat.iter j evict_body st))))%Z
          /\ ev_units (Nat.iter j evict_body st) <> [])
    /\ ((estimate (trim (ev_code (Nat.iter k evict_body st)))
         <= maxChunkSize)%Z
        \/ ev_units (Nat.iter k evict_body st) = []).
Proof. apply evict_loop_stops. Qed.

Lemma eviction_terminates_witness :
  length (ev_units three_words) < 3
  /\ exists k,
       k <= length (ev_units three_words)
       /\ evict_loop growing_estimate 3 10 three_words
          = Some (Nat.iter k evict_body three_words)
       /\ (forall j, j < k ->
             (10 < growing_estimate
                     (trim (ev_code (Nat.iter j evict_body three_words))))%Z
             /\ ev_units (Nat.iter j evict_body three_words) <> [])
       /\ ((growing_estimate
              (trim (ev_code (Nat.iter k evict_body three_words))) <= 10)%Z
           \/ ev_units (Nat.iter k evict_body three_words) = []).
Proof.
  split; [simpl; lia|].
  apply (eviction_terminates growing_estimate 10 three_words 3).
  simpl; lia.
Defined.

(** ** One turn of the loop *)

Lemma cut_at_occurrence (code u : jsstring) (i : nat) :
  cut code i (length u) = firstn i code ++ skipn (i + length u) code.
Proof.
  unfold cut, slice, slice_from. rewrite Nat.sub_0_r. reflexivity.
Qed.

Lemma evict_text_found (code u : jsstring) (i : nat) :
  last_occurrence code u i -> 0 < i ->
  evict_text code u = firstn i code ++ skipn (i + length u) code.
Proof.
  intros Hl Hi. unfold evict_text. rewrite (lastIndexOf_last code u i Hl).
  destruct (Z.ltb_spec 0 (Z.of_nat i)) as [_|H]; [|lia].
  rewrite Nat2Z.id. apply cut_at_occurrence.
Qed.

Lemma evict_text_kept (code u : jsstring) :
  absent code u \/ last_occurrence code u 0 -> evict_text code u = code.
Proof.
  intros [H|H]; unfold evict_text.
  - rewrite (lastIndexOf_absent code u H). reflexivity.
  - rewrite (lastIndexOf_last code u 0 H). reflexivity.
Qed.

Lemma evict_text_changed (code u : jsstring) :
  evict_text code u <> code -> exists i, 0 < i /\ last_occurrence code u i.
Proof.
  intros Hne. destruct (lastIndexOf_spec code u) as [[E Ha]|[i [E Hl]]].
  - exfalso. apply Hne. apply evict_text_kept. left. exact Ha.
  - destruct i as [|i].
    + exfalso. apply Hne. apply evict_text_kept. right. exact Hl.
    + exists (S i). split; [lia|exact Hl].
Qed.

Lemma in_firstn (k : nat) (l : list jsstring) (x : jsstring) :
  In x (firstn k l) -> In x l.
Proof.
  intros H. rewrite <- (firstn_skipn k l). apply in_or_app. left. exact H.
Qed.

Lemma fold_evict_text_kept (popped : list jsstring) (code : jsstring) :
  (forall u, In u popped -> absent code u \/ last_occurrence code u 0) ->
  fold_left evict_text popped code = code.
Proof.
  induction popped as [|u popped IH]; intros H; simpl; [reflexivity|].
  rewrite evict_text_kept by (apply H; left; reflexivity).
  apply IH. intros v Hv. apply H. right. exact Hv.
Qed.

(** C10: a turn of the loop on the units [units ++ [u]] always drops [u]
    from the units; it changes the working text only when the last
    occurrence of [u] is at an offset [i > 0], cutting that occurrence
    out; when [u] does not occur or occurs last at offset 0 the text is
    kept.  So, when this holds of every unit and the text is over the
    budget, the loop ends with the same text and no unit. *)
Theorem eviction_turn (estimate : jsstring -> Z) (maxChunkSize : Z)
    (code : jsstring) (units : list jsstring) (u : jsstring)
    (removed : bool) :
  let st := mkEvict code (units ++ [u]) removed in
  ev_units (evict_body st) = units
  /\ ev_removed (evict_body st) = true
  /\ (forall i, last_occurrence code u i -> 0 < i ->
        ev_code (evict_body st)
        = firstn i code ++ skipn (i + length u) code)
  /\ (absent code u \/ last_occurrence code u 0 ->
      ev_code (evict_body st) = code)
  /\ (ev_code (evict_body st) <> code ->
      exists i, 0 < i /\ last_occurrence code u i)
  /\ ((forall v, In v (units ++ [u]) ->
         absent code v \/ last_occurrence code v 0) ->
      (maxChunkSize < estimate (trim code))%Z ->
      evict_loop estimate (S (length (units ++ [u]))) maxChunkSize st
      = Some (mkEvict code [] true)).
Proof.
  intros st. unfold st. rewrite evict_body_snoc.
  cbn [ev_units ev_code ev_removed].
  split; [reflexivity|]. split; [reflexivity|].
  split; [apply evict_text_found|].
  split; [apply evict_text_kept|].
  split; [apply evict_text_changed|].
  intros Hall Hover.
  set (all := units ++ [u]).
  destruct (evict_loop_run estimate maxChunkSize (S (length all))
              (mkEvict code all removed))
    as [k [Hk [Hrun [Hstop _]]]]; [simpl; lia|].
  simpl in Hk. rewrite Hrun. f_equal.
  rewrite <- (rev_involutive all) in Hstop |- *.
  rewrite iter_evict_body in Hstop |- * by (rewrite length_rev; exact Hk).
  assert (Hkeep : fold_left evict_text (firstn k (rev all)) code = code).
  { apply fold_evict_text_kept. intros v Hv. apply Hall.
    apply in_rev. apply (in_firstn k). exact Hv. }
  rewrite Hkeep in Hstop |- *.
  unfold evict_guard in Hstop. simpl in Hstop.
  apply andb_false_iff in Hstop. destruct Hstop as [Hs|Hs].
  { apply Z.ltb_ge in Hs. lia. }
  apply Nat.ltb_ge in Hs. rewrite length_rev, length_skipn, length_rev in Hs.
  assert (Ek : k = length all) by lia.
  assert (Hpos : 0 < length all).
  { unfold all. rewrite length_app. simpl. lia. }
  subst k. rewrite skipn_all2 by (rewrite length_rev; lia). simpl.
  destruct (Nat.ltb_spec 0 (length all)) as [_|H]; [|lia].
  rewrite orb_true_r. reflexivity.
Qed.

(** ** The units of a container *)

Section Units.

Variable collapseBlockTypes : grammar_name.

(** A turn of the [for] loop on a member with a body block. *)
Lemma collapse_child_body (code : jsstring) (units : list jsstring)
    (child grandChild : node) :
  firstChild child collapseBlockTypes = Some grandChild ->
  collapse_child collapseBlockTypes (code, units) child
  = (code ++ collapsedReplacement grandChild ++ code,
     (code ++ collapsedReplacement grandChild) :: units).
Proof.
  intros H. unfold collapse_child. rewrite H. unfold index.
  rewrite slice_opt_whole, slice_opt_from_0. reflexivity.
Qed.

(** The loop, from the last member to the first. *)
Lemma collapse_fold_spec (code0 : jsstring) :
  forall members,
    fold_right (fun m st => collapse_child collapseBlockTypes st m)
               (code0, []) members
    = (working_text code0 collapseBlockTypes members,
       units_of code0 collapseBlockTypes members).
Proof.
  induction members as [|m rest IH]; [reflexivity|].
  cbn [fold_right working_text units_of]. rewrite IH.
  destruct (firstChild m collapseBlockTypes) as [gc|] eqn:E.
  - apply collapse_child_body. exact E.
  - unfold collapse_child. rewrite E. reflexivity.
Qed.

(** The working text and every unit open with the text the phase
    started from. *)
Lemma working_text_prefix (code0 : jsstring) :
  forall members,
    exists rest, working_text code0 collapseBlockTypes members = code0 ++ rest.
Proof.
  induction members as [|m rest IH]; cbn [working_text].
  - exists []. rewrite app_nil_r. reflexivity.
  - destruct IH as [r E].
    destruct (firstChild m collapseBlockTypes) as [gc|].
    + rewrite E. eexists. rewrite <- app_assoc. reflexivity.
    + exists r. exact E.
Qed.

Lemma units_of_prefix (code0 : jsstring) :
  forall members,
    Forall (fun u => exists rest, u = code0 ++ rest)
           (units_of code0 collapseBlockTypes members).
Proof.
  induction members as [|m rest IH]; cbn [units_of]; [constructor|].
  destruct (firstChild m collapseBlockTypes) as [gc|]; [|exact IH].
  constructor; [|exact IH].
  destruct (working_text_prefix code0 rest) as [r E].
  rewrite E. eexists. rewrite <- app_assoc. reflexivity.
Qed.

(** One unit for each member that has a body block. *)
Lemma units_of_length (code0 : jsstring) :
  forall members,
    length (units_of code0 collapseBlockTypes members)
    = length (with_body collapseBlockTypes members).
Proof.
  unfold with_body.
  induction members as [|m rest IH]; cbn [units_of filter]; [reflexivity|].
  destruct (firstChild m collapseBlockTypes); simpl; [f_equal|]; exact IH.
Qed.


End Units.

(** The collapsing phase of a container with a body block. *)
Lemma collapse_phase_text (n block : node) (code : jsstring)
    (blockTypes : grammar_name) (collapseTypes : list string)
    (collapseBlockTypes : grammar_name) :
  firstChild n blockTypes = Some block ->
  collapse_phase n code blockTypes collapseTypes collapseBlockTypes
  = (working_text (slice code 0 (endIndex n)) collapseBlockTypes
       (filter (fun child => includes collapseTypes (type child))
               (children block)),
     units_of (slice code 0 (endIndex n)) collapseBlockTypes
       (filter (fun child => includes collapseTypes (type child))
               (children block))).
Proof.
  intros Hb. unfold collapse_phase. rewrite Hb.
  rewrite <- fold_left_rev_right, rev_involutive.
  rewrite (collapse_fold_spec collapseBlockTypes).
  unfold index. rewrite slice_opt_whole. reflexivity.
Qed.

(** Without a body block nothing is collapsed. *)
Lemma collapse_phase_without_block (n : node) (code : jsstring)
    (blockTypes : grammar_name) (collapseTypes : list string)
    (collapseBlockTypes : grammar_name) :
  firstChild n blockTypes = None ->
  collapse_phase n code blockTypes collapseTypes collapseBlockTypes
  = (slice code 0 (endIndex n), []).
Proof.
  intros Hb. unfold collapse_phase. rewrite Hb.
  unfold index. rewrite slice_opt_whole. reflexivity.
Qed.

(** ** The order of eviction *)

Lemma rev_skipn_rev (k : nat) (units : list jsstring) :
  rev (skipn k (rev units)) = firstn (length units - k) units.
Proof. rewrite skipn_rev, rev_involutive. reflexivity. Qed.

(** The loop on [units], from the last one. *)
Lemma evict_loop_order (estimate : jsstring -> Z) (maxChunkSize : Z)
    (code : jsstring) (units : list jsstring) (fuel : nat) :
  length units < fuel ->
  exists k,
    k <= length units
    /\ evict_loop estimate fuel maxChunkSize (mkEvict code units false)
       = Some (mkEvict (fold_left evict_text (firstn k (rev units)) code)
                       (firstn (length units - k) units) (0 <? k))
    /\ (forall j, j < k ->
          (maxChunkSize
           < estimate (trim (fold_left evict_text (firstn j (rev units))
                                       code)))%Z)
    /\ ((estimate (trim (fold_left evict_text (firstn k (rev units)) code))
         <= maxChunkSize)%Z
        \/ k = length units).
Proof.
  intros Hfuel.
  destruct (evict_loop_stops estimate maxChunkSize
              (mkEvict code units false) fuel Hfuel)
    as [k [Hk [Hrun [Hgo Hstop]]]].
  cbn [ev_units] in Hk.
  assert (Hiter : forall j, j <= length units ->
            Nat.iter j evict_body (mkEvict code units false)
            = mkEvict (fold_left evict_text (firstn j (rev units)) code)
                      (firstn (length units - j) units) (0 <? j)).
  { intros j Hj. rewrite <- (rev_involutive units) at 1.
    rewrite iter_evict_body by (rewrite length_rev; exact Hj).
    rewrite rev_skipn_rev. reflexivity. }
  exists k. split; [exact Hk|]. split; [|split].
  - rewrite Hrun, Hiter by exact Hk. reflexivity.
  - intros j Hj. destruct (Hgo j Hj) as [Hover _].
    rewrite Hiter in Hover by lia. exact Hover.
  - rewrite Hiter in Hstop by exact Hk. cbn [ev_code ev_units] in Hstop.
    destruct Hstop as [Hs|Hs]; [left; exact Hs|right].
    apply (f_equal (@length _)) in Hs. rewrite length_firstn in Hs.
    simpl in Hs. lia.
Qed.

Lemma evict_text_turn (code u : jsstring) :
  turn_cuts code u (evict_text code u).
Proof.
  destruct (lastIndexOf_spec code u) as [[_ Ha]|[i [_ Hl]]].
  - right. split; [left; exact Ha|].
    apply evict_text_kept. left. exact Ha.
  - destruct i as [|i].
    + right. split; [right; exact Hl|].
      apply evict_text_kept. right. exact Hl.
    + left. exists (S i). split; [lia|]. split; [exact Hl|].
      apply evict_text_found; [exact Hl|lia].
Qed.




(** Under the budget 3 the loop pops both units of the Rust block; the
    first turn cuts a copy of the source and a placeholder out, the second
    one cuts nothing, and the text of the two members, [f] and [g], is
    still in the text the loop ends with. *)
Lemma eviction_removes_no_member :
  class_phase impl_item impl_code = (impl_collapsed, impl_units)
  /\ evict_loop countTokens 3 3 (mkEvict impl_collapsed impl_units false)
     = Some (mkEvict (impl_code ++ js "..." ++ impl_code ++ js "..."
                      ++ impl_code) [] true)
  /\ occurs_at (impl_code ++ js "..." ++ impl_code ++ js "..." ++ impl_code)
               (text impl_f) 9
  /\ occurs_at (impl_code ++ js "..." ++ impl_code ++ js "..." ++ impl_code)
               (text impl_g) 26
  /\ last (impl_units) [] <> text impl_g.
Proof.
  split; [vm_compute; reflexivity|].
  split; [vm_compute; reflexivity|].
  split.
  { exists (js "impl A { "),
      (js " fn g() { d e f } }" ++ js "..." ++ impl_code ++ js "..."
       ++ impl_code).
    split; reflexivity. }
  split.
  { exists (js "impl A { fn f() { a b c } "),
      (js " }" ++ js "..." ++ impl_code ++ js "..." ++ impl_code).
    split; reflexivity. }
  vm_compute. discriminate.
Qed.

Lemma eviction_turn_witness :
  (0 < countTokens (trim lone_code))%Z
  /\ evict_loop countTokens 2 0 (mkEvict lone_code [lone_code] false)
     = Some (mkEvict lone_code [] true).
Proof.
  split; [reflexivity|].
  destruct (eviction_turn countTokens 0 lone_code [] lone_code false)
    as [_ [_ [_ [_ [_ H]]]]].
  apply H; [|reflexivity].
  intros v [<-|[]]. right. split.
  - exists [], []. split; reflexivity.
  - intros j Hj. apply occurs_at_starts_with in Hj. destruct Hj as [Hle Hs].
    destruct j as [|j]; [lia|]. exfalso.
    do 10 (destruct j as [|j]; [vm_compute in Hs; discriminate|]).
    simpl in Hle. lia.
Defined.

(** A member without a body block has no unit: in this Java class only
    the first member gets one. *)
Lemma bodiless_member_not_evicted :
  filter (fun child => includes FUNCTION_DECLARATION_NODE_TYPES (type child))
         (children mixed_body) = [mixed_f; mixed_g]
  /\ class_phase mixed_class mixed_code
     = (mixed_code ++ js "..." ++ mixed_code, [mixed_code ++ js "..."]).
Proof. split; vm_compute; reflexivity. Qed.

(** ** The normalization of blank lines *)

Lemma nth_middle_line (pre out : list jsstring) (l : jsstring) :
  nth (length pre) (pre ++ l :: out) [] = l.
Proof.
  rewrite app_nth2, Nat.sub_diag by lia. reflexivity.
Qed.

(** The loop of the source, index by index, is [squeeze]. *)
Lemma norm_loop_squeeze :
  forall pre out group,
    norm_loop (length pre) (pre ++ out, group_end (length pre) group)
    = (fst (fold_right squeeze_step (out, group) pre),
       group_end 0 (snd (fold_right squeeze_step (out, group) pre))).
Proof.
  induction pre as [|l pre IH] using rev_ind; intros out group.
  - reflexivity.
  - rewrite length_app, Nat.add_comm. cbn [length plus norm_loop].
    rewrite fold_right_app. cbn [fold_right].
    assert (Hstep :
      norm_step (length pre)
        ((pre ++ [l]) ++ out, group_end (S (length pre)) group)
      = (pre ++ fst (squeeze_step l (out, group)),
         group_end (length pre) (snd (squeeze_step l (out, group))))).
    { unfold norm_step, squeeze_step.
      rewrite <- app_assoc. cbn [app]. rewrite nth_middle_line.
      destruct (blank l).
      - cbn [fst snd]. destruct group as [|group]; cbn [group_end].
        + change (-1 <? 0)%Z with true. cbv iota. f_equal. lia.
        + destruct (Z.ltb_spec (Z.of_nat (S (length pre) + S group) - 1) 0);
            [lia|].
          f_equal. f_equal. lia.
      - cbn [fst snd group_end]. f_equal.
        destruct group as [|group]; cbn [group_end].
        + destruct (Z.ltb_spec 1 (-1 - Z.of_nat (length pre))); [lia|].
          reflexivity.
        + replace (Z.of_nat (S (length pre) + S group) - 1
                   - Z.of_nat (length pre))%Z
            with (Z.of_nat (S group)) by lia.
          destruct (Z.ltb_spec 1 (Z.of_nat (S group)));
            destruct (Nat.ltb_spec 1 (S group)); try lia; [|reflexivity].
          replace (Z.to_nat (Z.of_nat (S (length pre) + S group) - 1 + 1))
            with (length (pre ++ [l]) + S group)
            by (rewrite length_app; cbn [length]; lia).
          replace (length pre + 1) with (length (pre ++ [l]))
            by (rewrite length_app; cbn [length]; lia).
          change (pre ++ l :: out) with (pre ++ [l] ++ out).
          rewrite (app_assoc pre [l] out).
          rewrite firstn_app, firstn_all, Nat.sub_diag.
          rewrite skipn_app, skipn_all2 by lia.
          replace (length (pre ++ [l]) + S group - length (pre ++ [l]))
            with (S group) by lia.
          cbn [firstn app]. rewrite app_nil_r, <- app_assoc.
          reflexivity. }
    rewrite Hstep.
    destruct (squeeze_step l (out, group)) as [out' group'].
    cbn [fst snd]. apply IH.
Qed.

Lemma normalize_squeeze (code : jsstring) :
  normalize code = join_nl (fst (squeeze (split_nl code))).
Proof.
  unfold normalize, squeeze.
  pose proof (norm_loop_squeeze (split_nl code) [] 0) as H.
  rewrite app_nil_r in H. cbn [group_end] in H. rewrite H. reflexivity.
Qed.

Lemma lead_blanks_skipn (lines : list jsstring) :
  lead_blanks (skipn (lead_blanks lines) lines) = 0.
Proof.
  induction lines as [|l rest IH]; [reflexivity|].
  simpl. destruct (blank l) eqn:E; simpl; [exact IH|].
  rewrite E. reflexivity.
Qed.

Lemma tidy_skipn (k : nat) :
  forall lines, tidy lines -> tidy (skipn k lines).
Proof.
  induction k as [|k IH]; intros lines H; [exact H|].
  destruct lines as [|l rest]; [exact I|].
  simpl. apply IH. apply H.
Qed.

(** What [squeeze] returns is tidy, with the count of its leading blank
    lines. *)
Lemma squeeze_tidy (lines : list jsstring) :
  snd (squeeze lines) = lead_blanks (fst (squeeze lines))
  /\ tidy (fst (squeeze lines)).
Proof.
  unfold squeeze. induction lines as [|l rest [IHc IHt]]; [split; [reflexivity|exact I]|].
  cbn [fold_right].
  destruct (fold_right squeeze_step ([], 0) rest) as [out group].
  cbn [fst snd] in IHc, IHt. unfold squeeze_step.
  destruct (blank l) eqn:E; cbn [fst snd].
  - split.
    + simpl. rewrite E, IHc. reflexivity.
    + simpl. split; [rewrite E; discriminate|exact IHt].
  - split.
    + simpl. rewrite E. reflexivity.
    + simpl. split.
      * intros _. destruct (Nat.ltb_spec 1 group) as [H|H].
        -- rewrite IHc, lead_blanks_skipn. lia.
        -- lia.
      * destruct (1 <? group); [apply tidy_skipn|]; exact IHt.
Qed.

(** On tidy lines [squeeze] changes nothing. *)
Lemma squeeze_of_tidy (lines : list jsstring) :
  tidy lines -> squeeze lines = (lines, lead_blanks lines).
Proof.
  unfold squeeze. induction lines as [|l rest IH]; intros H; [reflexivity|].
  destruct H as [Hl Hrest]. cbn [fold_right]. rewrite (IH Hrest).
  unfold squeeze_step. simpl. destruct (blank l) eqn:E; [reflexivity|].
  specialize (Hl eq_refl).
  destruct (Nat.ltb_spec 1 (lead_blanks rest)); [lia|reflexivity].
Qed.

Lemma squeeze_idempotent (lines : list jsstring) :
  fst (squeeze (fst (squeeze lines))) = fst (squeeze lines).
Proof.
  destruct (squeeze_tidy lines) as [_ Ht].
  rewrite (squeeze_of_tidy _ Ht). reflexivity.
Qed.

Lemma squeeze_nonempty (lines : list jsstring) :
  lines <> [] -> fst (squeeze lines) <> [].
Proof.
  destruct lines as [|l rest]; [congruence|]. intros _.
  unfold squeeze. cbn [fold_right].
  destruct (fold_right squeeze_step ([], 0) rest) as [out group].
  unfold squeeze_step. destruct (blank l); discriminate.
Qed.

Lemma squeeze_incl (lines : list jsstring) :
  forall l, In l (fst (squeeze lines)) -> In l lines.
Proof.
  unfold squeeze. induction lines as [|x rest IH]; intros l Hl; [exact Hl|].
  cbn [fold_right] in Hl.
  destruct (fold_right squeeze_step ([], 0) rest) as [out group].
  cbn [fst] in IH. unfold squeeze_step in Hl.
  destruct (blank x); cbn [fst] in Hl; destruct Hl as [->|Hl];
    try (left; reflexivity); right; apply IH.
  - exact Hl.
  - destruct (1 <? group); [|exact Hl].
    rewrite <- (firstn_skipn group out). apply in_or_app. right. exact Hl.
Qed.

Lemma split_nl_go_line (l : jsstring) :
  no_newline l ->
  forall cur rest, split_nl_go cur (l ++ rest) = split_nl_go (cur ++ l) rest.
Proof.
  induction l as [|c l IH]; intros Hl cur rest.
  - rewrite app_nil_r. reflexivity.
  - simpl. rewrite (Hl c) by (left; reflexivity).
    rewrite IH.
    + rewrite <- app_assoc. reflexivity.
    + intros d Hd. apply Hl. right. exact Hd.
Qed.

(** Splitting what was joined gives the lines back. *)
Lemma split_join (lines : list jsstring) :
  lines <> [] -> Forall no_newline lines ->
  split_nl (join_nl lines) = lines.
Proof.
  unfold split_nl. intros Hne Hall.
  assert (H : forall cur,
             split_nl_go cur (join_nl lines)
             = match lines with
               | [] => [cur]
               | l :: rest => (cur ++ l) :: rest
               end).
  { clear Hne. induction lines as [|l rest IH]; intros cur; [reflexivity|].
    inversion Hall as [|? ? Hl Hrest]; subst.
    destruct rest as [|l' rest'].
    - simpl. rewrite <- (app_nil_r l) at 1.
      rewrite split_nl_go_line by exact Hl. reflexivity.
    - change (join_nl (l :: l' :: rest'))
        with (l ++ newline :: join_nl (l' :: rest')).
      rewrite split_nl_go_line by exact Hl.
      cbn [split_nl_go]. change (unit_eqb newline newline) with true.
      cbv iota. rewrite (IH Hrest []). reflexivity. }
  rewrite H. destruct lines as [|l rest]; [congruence|reflexivity].
Qed.

Lemma split_nl_go_no_newline (s : jsstring) :
  forall cur, no_newline cur -> Forall no_newline (split_nl_go cur s).
Proof.
  induction s as [|c s IH]; intros cur Hcur; simpl.
  - constructor; [exact Hcur|constructor].
  - destruct (unit_eqb c newline) eqn:E.
    + constructor; [exact Hcur|]. apply IH. intros d [].
    + apply IH. intros d Hd. apply in_app_or in Hd.
      destruct Hd as [Hd|[<-|[]]]; [apply Hcur; exact Hd|exact E].
Qed.

Lemma split_nl_no_newline (s : jsstring) : Forall no_newline (split_nl s).
Proof. apply split_nl_go_no_newline. intros d []. Qed.

Lemma split_nl_nonempty (s : jsstring) : split_nl s <> [].
Proof.
  unfold split_nl. generalize (@nil code_unit).
  induction s as [|c s IH]; intros cur; simpl; [discriminate|].
  destruct (unit_eqb c newline); [discriminate|apply IH].
Qed.

(** C7: normalizing a normalized text changes nothing. *)
Theorem normalize_idempotent (code : jsstring) :
  normalize (normalize code) = normalize code.
Proof.
  rewrite !normalize_squeeze.
  rewrite split_join.
  - rewrite squeeze_idempotent. reflexivity.
  - apply squeeze_nonempty, split_nl_nonempty.
  - apply Forall_forall. intros l Hl. apply squeeze_incl in Hl.
    pose proof (split_nl_no_newline code) as H.
    rewrite Forall_forall in H. apply H. exact Hl.
Qed.

(** ** The normalization keeps the tokens *)

Lemma nonws_runs_go_app (s r : jsstring) :
  forall in_run,
    nonws_runs_go in_run (s ++ r)
    = nonws_runs_go in_run s
      + nonws_runs_go (negb (last_ws (negb in_run) s)) r.
Proof.
  induction s as [|c s IH]; intros in_run; simpl.
  - rewrite negb_involutive. reflexivity.
  - destruct (is_ws c) eqn:E.
    + rewrite IH. reflexivity.
    + rewrite IH. simpl. lia.
Qed.

Lemma nonws_runs_go_ws (w : jsstring) :
  forallb is_ws w = true -> forall in_run, nonws_runs_go in_run w = 0.
Proof.
  induction w as [|c w IH]; intros H in_run; [reflexivity|].
  simpl in H. apply andb_true_iff in H. destruct H as [Hc Hw].
  simpl. rewrite Hc. apply IH. exact Hw.
Qed.

(** The words of joined lines are the words of the lines. *)
Lemma nonws_runs_join (lines : list jsstring) :
  forall in_run,
    nonws_runs_go in_run (join_nl lines)
    = match lines with
      | [] => 0
      | l :: rest =>
          nonws_runs_go in_run l + list_sum (map nonws_runs rest)
      end.
Proof.
  induction lines as [|l rest IH]; intros in_run; [reflexivity|].
  destruct rest as [|l' rest'].
  - simpl. lia.
  - change (join_nl (l :: l' :: rest'))
      with (l ++ newline :: join_nl (l' :: rest')).
    rewrite nonws_runs_go_app.
    cbn [nonws_runs_go]. change (is_ws newline) with true. cbv iota.
    rewrite IH. reflexivity.
Qed.

Lemma nonws_runs_lines (lines : list jsstring) :
  nonws_runs (join_nl lines) = list_sum (map nonws_runs lines).
Proof.
  unfold nonws_runs at 1. rewrite nonws_runs_join.
  destruct lines; reflexivity.
Qed.

Lemma join_split_go (s : jsstring) :
  forall cur, join_nl (split_nl_go cur s) = cur ++ s.
Proof.
  induction s as [|c s IH]; intros cur; simpl.
  - rewrite app_nil_r. reflexivity.
  - destruct (unit_eqb c newline) eqn:E.
    + apply unit_eqb_eq in E. subst c.
      destruct (split_nl_go [] s) as [|l rest] eqn:Es.
      * exfalso. revert Es. apply split_nl_nonempty.
      * change (join_nl (cur :: l :: rest))
          with (cur ++ newline :: join_nl (l :: rest)).
        rewrite <- Es, (IH []). reflexivity.
    + rewrite IH, <- app_assoc. reflexivity.
Qed.

Lemma join_split (s : jsstring) : join_nl (split_nl s) = s.
Proof. apply (join_split_go s []). Qed.

Lemma drop_ws_split (y : jsstring) :
  exists w, forallb is_ws w = true /\ y = w ++ drop_ws y.
Proof.
  induction y as [|c y [w [Hw E]]].
  - exists []. split; reflexivity.
  - simpl. destruct (is_ws c) eqn:Ec.
    + exists (c :: w). simpl. rewrite Ec, Hw. split; [reflexivity|].
      rewrite <- E. reflexivity.
    + exists []. split; reflexivity.
Qed.

Lemma starts_ws_drop_ws (y : jsstring) : starts_ws (drop_ws y) = false.
Proof.
  induction y as [|c y IH]; [reflexivity|].
  simpl. destruct (is_ws c) eqn:E; [exact IH|]. simpl. exact E.
Qed.

Lemma nonws_runs_drop_ws (y : jsstring) :
  nonws_runs (drop_ws y) = nonws_runs y.
Proof.
  unfold nonws_runs. induction y as [|c y IH]; [reflexivity|].
  simpl. destruct (is_ws c) eqn:E; [exact IH|]. simpl. rewrite E.
  reflexivity.
Qed.

(** A trimmed text is the text without the white space around it. *)
Lemma trim_split (s : jsstring) :
  exists w, forallb is_ws w = true /\ drop_ws s = trim s ++ w.
Proof.
  unfold trim. destruct (drop_ws_split (rev (drop_ws s))) as [w [Hw E]].
  exists (rev w). split.
  - rewrite forallb_forall in *. intros c Hc. apply Hw. apply in_rev.
    exact Hc.
  - rewrite <- rev_app_distr, <- E, rev_involutive. reflexivity.
Qed.

Lemma nonws_runs_trim (s : jsstring) : nonws_runs (trim s) = nonws_runs s.
Proof.
  rewrite <- (nonws_runs_drop_ws s).
  destruct (trim_split s) as [w [Hw E]]. rewrite E.
  unfold nonws_runs. rewrite nonws_runs_go_app, (nonws_runs_go_ws w Hw).
  lia.
Qed.

Lemma starts_ws_trim (s : jsstring) : starts_ws (trim s) = false.
Proof.
  destruct (trim_split s) as [w [Hw E]].
  pose proof (starts_ws_drop_ws s) as H. rewrite E in H.
  destruct (trim s) as [|c t]; [reflexivity|exact H].
Qed.

Lemma ends_ws_trim (s : jsstring) : ends_ws (trim s) = false.
Proof.
  unfold ends_ws, trim. rewrite rev_involutive. apply starts_ws_drop_ws.
Qed.

(** On a trimmed text the tokens are the words, one token at least. *)
Lemma countTokens_trim (s : jsstring) :
  countTokens (trim s) = Z.of_nat (Nat.max 1 (nonws_runs s)).
Proof.
  rewrite countTokens_words.
  rewrite starts_ws_trim, ends_ws_trim, nonws_runs_trim.
  pose proof (nonws_runs_trim s) as Hn.
  pose proof (starts_ws_trim s) as Hs.
  destruct (trim s) as [|c t].
  - rewrite <- Hn. reflexivity.
  - simpl in Hs. unfold nonws_runs in Hn. simpl in Hn. rewrite Hs in Hn.
    unfold nonws_runs, b2n. lia.
Qed.

Lemma blank_no_words (l : jsstring) : blank l = true -> nonws_runs l = 0.
Proof.
  unfold blank. intros H. rewrite <- nonws_runs_trim.
  destruct (trim l); [reflexivity|discriminate].
Qed.

Lemma words_skip_blanks (lines : list jsstring) :
  list_sum (map nonws_runs (skipn (lead_blanks lines) lines))
  = list_sum (map nonws_runs lines).
Proof.
  induction lines as [|l rest IH]; [reflexivity|].
  simpl. destruct (blank l) eqn:E; [|reflexivity].
  simpl. rewrite IH, (blank_no_words l E). reflexivity.
Qed.

Lemma squeeze_words (lines : list jsstring) :
  list_sum (map nonws_runs (fst (squeeze lines)))
  = list_sum (map nonws_runs lines).
Proof.
  induction lines as [|l rest IH]; [reflexivity|].
  pose proof (squeeze_tidy rest) as [Hc _].
  unfold squeeze in *. cbn [fold_right].
  destruct (fold_right squeeze_step ([], 0) rest) as [out group].
  cbn [fst snd] in IH, Hc. unfold squeeze_step.
  pose proof (words_skip_blanks out) as Hw. rewrite <- Hc in Hw.
  unfold list_sum in *.
  destruct (blank l); cbn [fst map fold_right].
  - rewrite IH. reflexivity.
  - destruct (1 <? group).
    + rewrite Hw, IH. reflexivity.
    + rewrite IH. reflexivity.
Qed.

Lemma normalize_words (code : jsstring) :
  nonws_runs (normalize code) = nonws_runs code.
Proof.
  rewrite normalize_squeeze, nonws_runs_lines, squeeze_words.
  rewrite <- nonws_runs_lines, join_split. reflexivity.
Qed.

(** The normalization does not change the estimate the loop ended on. *)
Lemma normalize_keeps_tokens (code : jsstring) :
  countTokens (trim (normalize code)) = countTokens (trim code).
Proof.
  rewrite !countTokens_trim, normalize_words. reflexivity.
Qed.

(** ** The rendering of a container *)

Lemma collapseChildren_unfold (estimate : jsstring -> Z) (n : node)
    (code : jsstring) (blockTypes : grammar_name)
    (collapseTypes : list string) (collapseBlockTypes : grammar_name)
    (maxChunkSize : Z) :
  collapseChildren estimate n code blockTypes collapseTypes
    collapseBlockTypes maxChunkSize
  = match evict_loop estimate
            (S (length (snd (collapse_phase n code blockTypes collapseTypes
                                            collapseBlockTypes))))
            maxChunkSize
            (mkEvict (fst (collapse_phase n code blockTypes collapseTypes
                                          collapseBlockTypes))
                     (snd (collapse_phase n code blockTypes collapseTypes
                                          collapseBlockTypes)) false) with
    | Some st =>
        Some (if ev_removed st then normalize (ev_code st) else ev_code st)
    | None => None
    end.
Proof.
  unfold collapseChildren.
  destruct (collapse_phase n code blockTypes collapseTypes
                           collapseBlockTypes) as [code1 units].
  reflexivity.
Qed.

(** Whatever the estimator, the rendering of a container is the working
    text the loop ends with (normalized when a unit was removed), and the
    loop ends when the estimate of the trimmed working text is at most the
    budget, or when every unit has been removed. *)
Lemma collapseChildren_stops (estimate : jsstring -> Z) (n : node)
    (code : jsstring) (blockTypes : grammar_name)
    (collapseTypes : list string) (collapseBlockTypes : grammar_name)
    (maxChunkSize : Z) :
  let phase :=
    collapse_phase n code blockTypes collapseTypes collapseBlockTypes in
  exists st,
    evict_loop estimate (S (length (snd phase))) maxChunkSize
               (mkEvict (fst phase) (snd phase) false) = Some st
    /\ collapseChildren estimate n code blockTypes collapseTypes
         collapseBlockTypes maxChunkSize
       = Some (if ev_removed st then normalize (ev_code st) else ev_code st)
    /\ ((estimate (trim (ev_code st)) <= maxChunkSize)%Z
        \/ ev_units st = []).
Proof.
  intros phase. unfold phase. rewrite collapseChildren_unfold.
  set (start := mkEvict _ _ false).
  destruct (evict_loop_stops estimate maxChunkSize start
              (S (length (ev_units start))) (Nat.lt_succ_diag_r _))
    as [k [_ [Hrun [_ Hstop]]]].
  exists (Nat.iter k evict_body start).
  change (snd (collapse_phase n code blockTypes collapseTypes
                              collapseBlockTypes)) with (ev_units start).
  rewrite Hrun. repeat split. exact Hstop.
Qed.



(** ** The two definitions of the generator *)

(** Induction on a node with the property known of its children. *)
Lemma node_children_ind (P : node -> Prop) :
  (forall n, Forall P (children n) -> P n) -> forall n, P n.
Proof.
  intros step.
  fix IH 1. intros n. apply step.
  destruct n as [t tx sp ep ei fn cs]. cbn [children].
  induction cs as [|c cs IHcs]; constructor; [apply IH|exact IHcs].
Qed.

(** The details do not depend on the context, nor on [code]. *)
Lemma extractNodeDetails_details (n : node) (code code' : jsval)
    (g g' : GlobalContext) :
  fst (extractNodeDetails n code g) = fst (extractNodeDetails n code' g').
Proof.
  unfold extractNodeDetails.
  split_ifs; reflexivity.
Qed.

(** [processNode] returns the details [extractNodeDetails] builds. *)
Lemma processNode_details (n : node) (code filePath : jsval)
    (g : GlobalContext) :
  fst (processNode n code filePath g)
  = fst (extractNodeDetails n code (set_currentFile filePath g)).
Proof.
  destruct n as [t tx sp ep ei fn cs]. cbn [processNode].
  destruct (extractNodeDetails _ _ _) as [details g1]. reflexivity.
Qed.

Lemma enrichment_agrees (n : node) (code : jsstring) (filePath : jsval)
    (g1 g2 : GlobalContext) :
  fst (processNode n (VStr code) filePath g1)
  = fst (extractNodeDetails n (VStr code) g2).
Proof.
  rewrite processNode_details. apply extractNodeDetails_details.
Qed.

Lemma getSmartCollapsedChunks_l391_unfold (n : node) (ancestors : list node)
    (code : jsstring) (maxChunkSize : Z) (filePath : jsval) (root : bool)
    (g : GlobalContext) :
  getSmartCollapsedChunks_l391 n ancestors code maxChunkSize filePath root g
  = match maybeYieldChunk n code maxChunkSize root with
    | Some chunk =>
        mkRun [spread chunk (fst (processNode n (VStr code) filePath g))]
              (snd (processNode n (VStr code) filePath g)) Done
    | None =>
        fold_left
          (then_child (fun child g' =>
             getSmartCollapsedChunks child (n :: ancestors) code
               maxChunkSize (as_root filePath) g'))
          (children n)
          (own_run n ancestors code maxChunkSize
             (fst (processNode n (VStr code) filePath g)) g
             (snd (processNode n (VStr code) filePath g)))
    end.
Proof.
  unfold getSmartCollapsedChunks_l391, own_run.
  destruct (processNode _ _ _ _) as [details g1]. reflexivity.
Qed.

Lemma getSmartCollapsedChunks_unfold (n : node) (ancestors : list node)
    (code : jsstring) (maxChunkSize : Z) (root : bool) (g : GlobalContext) :
  getSmartCollapsedChunks n ancestors code maxChunkSize root g
  = match maybeYieldChunk n code maxChunkSize root with
    | Some chunk =>
        mkRun [spread chunk (fst (extractNodeDetails n (VStr code) g))]
              (snd (extractNodeDetails n (VStr code) g)) Done
    | None =>
        fold_left
          (then_child (fun child g' =>
             getSmartCollapsedChunks child (n :: ancestors) code maxChunkSize
               false g'))
          (children n)
          (own_run n ancestors code maxChunkSize
             (fst (extractNodeDetails n (VStr code) g)) g
             (snd (extractNodeDetails n (VStr code) g)))
    end.
Proof.
  destruct n as [t tx sp ep ei fn cs]. cbn [getSmartCollapsedChunks].
  unfold own_run.
  destruct (extractNodeDetails _ _ _) as [details g1]. reflexivity.
Qed.

(** The chunks and the end of [own_run] do not depend on the contexts. *)
Lemma own_run_chunks (n : node) (ancestors : list node) (code : jsstring)
    (maxChunkSize : Z) (details : obj) (g g1 h h1 : GlobalContext) :
  same_chunks (own_run n ancestors code maxChunkSize details g g1)
              (own_run n ancestors code maxChunkSize details h h1).
Proof.
  unfold own_run.
  destruct (in_collapsedNodeConstructors (type n)); [|split; reflexivity].
  destruct (constructor_of (type n)); [|split; reflexivity].
  destruct (construct _ _ _ _ _); split; reflexivity.
Qed.

(** The loops over the children agree when the calls on each child do. *)
Lemma children_agree (descend1 descend2 : node -> GlobalContext -> run) :
  forall cs r1 r2,
    Forall (fun c => forall g1 g2,
                same_chunks (descend1 c g1) (descend2 c g2)) cs ->
    same_chunks r1 r2 ->
    same_chunks (fold_left (then_child descend1) cs r1)
                (fold_left (then_child descend2) cs r2).
Proof.
  induction cs as [|c cs IH]; intros r1 r2 Hcs Hr; [exact Hr|].
  inversion Hcs as [|? ? Hc Hrest]; subst. cbn [fold_left].
  apply IH; [exact Hrest|].
  destruct Hr as [Hy Hs]. unfold then_child. rewrite <- Hs.
  destruct (status r1) eqn:E1; try (split; [exact Hy|congruence]).
  destruct (Hc (context r1) (context r2)) as [Hy' Hs'].
  split; cbn [yielded status]; congruence.
Qed.

(** The chunks of the generator do not depend on the context it starts
    from. *)
Lemma chunks_whatever_context (code : jsstring) (maxChunkSize : Z) :
  forall n ancestors root g1 g2,
    same_chunks
      (getSmartCollapsedChunks n ancestors code maxChunkSize root g1)
      (getSmartCollapsedChunks n ancestors code maxChunkSize root g2).
Proof.
  induction n as [n IH] using node_children_ind.
  intros ancestors root g1 g2.
  rewrite !getSmartCollapsedChunks_unfold.
  rewrite (extractNodeDetails_details n (VStr code) (VStr code) g1 g2).
  destruct (maybeYieldChunk n code maxChunkSize root).
  - split; reflexivity.
  - apply children_agree.
    + eapply Forall_impl; [|exact IH].
      intros c Hc h1 h2. apply Hc.
    + apply own_run_chunks.
Qed.

(** The first declaration against the second: the same chunks when the
    node yields its own text, when it has no child, or when [filePath]
    makes a false [root]. *)
Lemma definitions_agree (code : jsstring) (maxChunkSize : Z)
    (filePath : jsval) (n : node) (ancestors : list node) (root : bool)
    (g1 g2 : GlobalContext) :
  as_root filePath = false
  \/ children n = []
  \/ maybeYieldChunk n code maxChunkSize root <> None ->
  same_chunks
    (getSmartCollapsedChunks_l391 n ancestors code maxChunkSize filePath
       root g1)
    (getSmartCollapsedChunks n ancestors code maxChunkSize root g2).
Proof.
  intros H.
  rewrite getSmartCollapsedChunks_l391_unfold, getSmartCollapsedChunks_unfold.
  rewrite (enrichment_agrees n code filePath g1 g2).
  destruct (maybeYieldChunk n code maxChunkSize root) as [chunk|].
  - split; reflexivity.
  - destruct H as [H|[H|H]]; [| |congruence].
    + rewrite H. apply children_agree.
      * apply Forall_forall. intros c _ h1 h2.
        apply chunks_whatever_context.
      * apply own_run_chunks.
    + rewrite H. cbn [fold_left]. apply own_run_chunks.
Qed.

(** Where the two declarations agree.  The call in the body of the
    first declaration reaches the second one, with [filePath] where
    [root] is expected.  The chunks the two declarations yield have the
    same [content], [startLine] and [endLine], one by one, and the two
    runs end the same way, when [filePath] makes a false [root] (a value
    that is falsy and not [undefined], such as the empty string), when
    the node has no child, or when the node yields its own text. *)
Lemma chunk_definitions_equivalent (n : node) (ancestors : list node)
    (code : jsstring) (maxChunkSize : Z) (filePath : jsval) (root : bool)
    (g1 g2 : GlobalContext) :
  as_root filePath = false
  \/ children n = []
  \/ maybeYieldChunk n code maxChunkSize root <> None ->
  map core (yielded (getSmartCollapsedChunks_l391 n ancestors code
                       maxChunkSize filePath root g1))
  = map core (yielded (getSmartCollapsedChunks n ancestors code maxChunkSize
                         root g2))
  /\ status (getSmartCollapsedChunks_l391 n ancestors code maxChunkSize
               filePath root g1)
     = status (getSmartCollapsedChunks n ancestors code maxChunkSize root g2).
Proof.
  intros H.
  destruct (definitions_agree code maxChunkSize filePath n ancestors root
              g1 g2 H) as [Hy Hs].
  rewrite Hy, Hs. split; reflexivity.
Qed.

Lemma chunk_definitions_equivalent_witness :
  map core (yielded (getSmartCollapsedChunks_l391 impl_item [] impl_code
                       10 (VStr []) true globalContext))
  = map core (yielded (getSmartCollapsedChunks impl_item [] impl_code 10
                         true globalContext))
  /\ status (getSmartCollapsedChunks_l391 impl_item [] impl_code 10
               (VStr []) true globalContext)
     = status (getSmartCollapsedChunks impl_item [] impl_code 10 true
                 globalContext).
Proof.
  apply (chunk_definitions_equivalent impl_item [] impl_code 10 (VStr [])
           true globalContext globalContext).
  left. reflexivity.
Defined.

(** The fuel of the eviction loop never runs out. *)
Lemma construct_has_fuel (c : entry) (n : node) (ancestors : list node)
    (code : jsstring) (maxChunkSize : Z) :
  construct c n ancestors code maxChunkSize <> inl OutOfFuel.
Proof.
  unfold construct, constructClassDefinitionChunk. destruct c as [[|]|m].
  - destruct (collapseChildren_stops countTokens n code
                (Tags CLASS_BLOCK_NODE_TYPES) FUNCTION_DECLARATION_NODE_TYPES
                (Tags FUNCTION_BLOCK_NODE_TYPES) maxChunkSize)
      as [st [_ [Hres _]]].
    rewrite Hres. discriminate.
  - destruct (constructFunctionDefinitionChunk _ _ _ _); discriminate.
  - destruct (call_inherited m); discriminate.
Qed.

Lemma own_run_has_fuel (n : node) (ancestors : list node) (code : jsstring)
    (maxChunkSize : Z) (details : obj) (g g1 : GlobalContext) :
  status (own_run n ancestors code maxChunkSize details g g1) <> OutOfFuel.
Proof.
  unfold own_run.
  destruct (in_collapsedNodeConstructors (type n)); [|discriminate].
  destruct (constructor_of (type n)) as [c|]; [|discriminate].
  pose proof (construct_has_fuel c n ancestors code maxChunkSize) as Hf.
  destruct (construct c n ancestors code maxChunkSize) as [o|s];
    [|discriminate].
  cbn [status]. congruence.
Qed.

Lemma children_have_fuel (descend : node -> GlobalContext -> run) :
  forall cs r,
    Forall (fun c => forall g, status (descend c g) <> OutOfFuel) cs ->
    status r <> OutOfFuel ->
    status (fold_left (then_child descend) cs r) <> OutOfFuel.
Proof.
  induction cs as [|c cs IH]; intros r Hcs Hr; [exact Hr|].
  inversion Hcs as [|? ? Hc Hrest]; subst. cbn [fold_left].
  apply IH; [exact Hrest|]. unfold then_child.
  destruct (status r) eqn:E; [|rewrite E; discriminate|congruence].
  cbn [status]. apply Hc.
Qed.

(** The generator ends, by [Done] or by an exception. *)
Lemma getSmartCollapsedChunks_ends (code : jsstring) (maxChunkSize : Z) :
  forall n ancestors root g,
    status (getSmartCollapsedChunks n ancestors code maxChunkSize root g)
    <> OutOfFuel.
Proof.
  induction n as [n IH] using node_children_ind. intros ancestors root g.
  rewrite getSmartCollapsedChunks_unfold.
  destruct (maybeYieldChunk n code maxChunkSize root); [discriminate|].
  apply children_have_fuel.
  - eapply Forall_impl; [|exact IH]. intros c Hc h. apply Hc.
  - apply own_run_has_fuel.
Qed.


(** ** The content of a yielded chunk *)

(** The details carry [content], [startLine] and [endLine] of their own,
    and a spread sets them last: whatever object they are spread into,
    these three fields are those of the node. *)
Lemma spread_details_core (n : node) (code : jsval) (g : GlobalContext)
    (content startLine endLine : jsval) :
  core (spread [("content", content); ("startLine", startLine);
                ("endLine", endLine)]%string
               (fst (extractNodeDetails n code g)))
  = (VStr (text n),
     VNum (Z.of_nat (row (startPosition n)) + 1),
     VNum (Z.of_nat (row (endPosition n)) + 1)).
Proof.
  unfold extractNodeDetails, base_details.
  split_ifs; reflexivity.
Qed.

(** So the chunk of the second [yield] does not hold the collapsed
    rendering: its [content] is the text of the node. *)
Lemma collapsed_chunk_content (rendering : jsval) (n : node)
    (code : jsval) (g : GlobalContext) :
  obj_get "content"
    (spread (collapsed_chunk rendering n) (fst (extractNodeDetails n code g)))
  = VStr (text n).
Proof.
  pose proof (spread_details_core n code g rendering
                (VNum (Z.of_nat (row (startPosition n)) + 1))
                (VNum (Z.of_nat (row (endPosition n)) + 1))) as H.
  unfold core in H. unfold collapsed_chunk. congruence.
Qed.


(* ================================================================== *)
(** * Further properties *)

(** ** What the generator yields *)

Section Subsequences.

Context {A : Type}.

Lemma subseq_refl (l : list A) : subseq l l.
Proof. induction l; constructor; assumption. Qed.

Lemma subseq_nil_l (l : list A) : subseq [] l.
Proof. induction l; constructor; assumption. Qed.

Lemma subseq_app (l1 l2 m1 m2 : list A) :
  subseq l1 l2 -> subseq m1 m2 -> subseq (l1 ++ m1) (l2 ++ m2).
Proof.
  intros H Hm. induction H; simpl; try constructor; assumption.
Qed.

Lemma subseq_length (l1 l2 : list A) :
  subseq l1 l2 -> length l1 <= length l2.
Proof. intros H. induction H; simpl; lia. Qed.

Lemma subseq_incl (l1 l2 : list A) :
  subseq l1 l2 -> forall x, In x l1 -> In x l2.
Proof.
  intros H. induction H; intros y Hy; simpl in *; [exact Hy| |].
  - right. apply IHsubseq. exact Hy.
  - destruct Hy as [->|Hy]; [left; reflexivity|right; apply IHsubseq; exact Hy].
Qed.

End Subsequences.

(** Whatever it is spread into, a chunk object ends as the chunk of the
    node. *)
Lemma spread_is_node_chunk (n : node) (code : jsval) (g : GlobalContext)
    (content : jsval) :
  spread (collapsed_chunk content n) (fst (extractNodeDetails n code g))
  = node_chunk n.
Proof.
  unfold node_chunk, details_of, extractNodeDetails, base_details,
    collapsed_chunk.
  split_ifs; reflexivity.
Qed.

Lemma maybeYieldChunk_some (n : node) (code : jsstring) (maxChunkSize : Z)
    (root : bool) (chunk : obj) :
  maybeYieldChunk n code maxChunkSize root = Some chunk ->
  chunk = collapsed_chunk (VStr (text n)) n
  /\ (countTokens (text n) < maxChunkSize)%Z
  /\ (root = true \/ collapsible n = true).
Proof.
  unfold maybeYieldChunk, collapsible. intros H.
  destruct (root || _) eqn:E; [|discriminate].
  destruct (Z.ltb_spec (countTokens (text n)) maxChunkSize); [|discriminate].
  inversion H; subst. split; [reflexivity|]. split; [assumption|].
  apply orb_true_iff in E. exact E.
Qed.

Lemma maybeYieldChunk_none (n : node) (code : jsstring) (maxChunkSize : Z)
    (root : bool) :
  maybeYieldChunk n code maxChunkSize root = None ->
  collapsible n = true -> (maxChunkSize <= countTokens (text n))%Z.
Proof.
  unfold maybeYieldChunk, collapsible. intros H Hc. rewrite Hc in H.
  rewrite orb_true_r in H.
  destruct (Z.ltb_spec (countTokens (text n)) maxChunkSize);
    [discriminate|assumption].
Qed.

Section Yielded.

Variable code : jsstring.
Variable maxChunkSize : Z.

(** The chunks of a loop over the children, when those of each child are
    chunks of its nodes. *)
Lemma children_chunks (descend : node -> GlobalContext -> run) :
  forall cs r ms0,
    yielded r = map node_chunk ms0 ->
    Forall (fun c => forall g,
                exists ms,
                  yielded (descend c g) = map node_chunk ms
                  /\ subseq ms (preorder c)
                  /\ Forall (fun m => collapsible m = true) ms) cs ->
    exists ms,
      yielded (fold_left (then_child descend) cs r)
      = map node_chunk (ms0 ++ ms)
      /\ subseq ms (flat_map preorder cs)
      /\ Forall (fun m => collapsible m = true) ms.
Proof.
  induction cs as [|c cs IH]; intros r ms0 Hr Hcs.
  - exists []. rewrite app_nil_r. repeat split; [exact Hr|constructor|constructor].
  - inversion Hcs as [|? ? Hc Hrest]; subst. cbn [fold_left flat_map].
    unfold then_child at 2. destruct (status r).
    + destruct (Hc (context r)) as [msc [Hy [Hs Hp]]].
      destruct (IH (mkRun (yielded r ++ yielded (descend c (context r)))
                          (context (descend c (context r)))
                          (status (descend c (context r))))
                   (ms0 ++ msc)) as [ms [Hy' [Hs' Hp']]].
      * cbn [yielded]. rewrite Hr, Hy, map_app. reflexivity.
      * exact Hrest.
      * exists (msc ++ ms). rewrite app_assoc. split; [exact Hy'|].
        split; [apply subseq_app; assumption|].
        apply Forall_app. split; assumption.
    + destruct (IH r ms0 Hr Hrest) as [ms [Hy' [Hs' Hp']]].
      exists ms. split; [exact Hy'|]. split; [|exact Hp'].
      apply (subseq_app [] (preorder c) ms _ (subseq_nil_l _) Hs').
    + destruct (IH r ms0 Hr Hrest) as [ms [Hy' [Hs' Hp']]].
      exists ms. split; [exact Hy'|]. split; [|exact Hp'].
      apply (subseq_app [] (preorder c) ms _ (subseq_nil_l _) Hs').
Qed.

(** Every chunk is the chunk of a node; the nodes come in the order of
    the tree, each at most once; apart from a root that fits, they are
    nodes whose type is [in collapsedNodeConstructors]. *)
Lemma chunks_of_nodes :
  forall n ancestors root g,
    exists ms,
      yielded (getSmartCollapsedChunks n ancestors code maxChunkSize root g)
      = map node_chunk ms
      /\ subseq ms (preorder n)
      /\ Forall (fun m =>
                   collapsible m = true
                   \/ (root = true /\ m = n
                       /\ (countTokens (text n) < maxChunkSize)%Z)) ms.
Proof.
  induction n as [n IH] using node_children_ind. intros ancestors root g.
  rewrite getSmartCollapsedChunks_unfold.
  destruct (maybeYieldChunk n code maxChunkSize root) as [chunk|] eqn:Ey.
  - destruct (maybeYieldChunk_some n code maxChunkSize root chunk Ey)
      as [-> [Hfit Hwhy]].
    exists [n]. cbn [yielded map]. rewrite spread_is_node_chunk.
    split; [reflexivity|]. split.
    + destruct n; simpl. apply subseq_take. apply subseq_nil_l.
    + constructor; [|constructor].
      destruct Hwhy as [Hr|Hc]; [right; auto|left; exact Hc].
  - set (own := own_run n ancestors code maxChunkSize _ _ _).
    assert (Hown : exists ms0,
               yielded own = map node_chunk ms0
               /\ subseq ms0 [n]
               /\ Forall (fun m => collapsible m = true) ms0).
    { unfold own, own_run, collapsible.
      destruct (in_collapsedNodeConstructors (type n)) eqn:Ein.
      - destruct (constructor_of (type n)) as [c|] eqn:Ec.
        + destruct (construct c n ancestors code maxChunkSize)
            as [o|content].
          * exists []. repeat split; [apply subseq_nil_l|constructor].
          * exists [n]. cbn [yielded map]. rewrite spread_is_node_chunk.
            repeat split; [apply subseq_refl|].
            constructor; [exact Ein|constructor].
        + exists []. repeat split; [apply subseq_nil_l|constructor].
      - exists []. repeat split; [apply subseq_nil_l|constructor]. }
    destruct Hown as [ms0 [Hy0 [Hs0 Hp0]]].
    destruct (children_chunks
                (fun child g' =>
                   getSmartCollapsedChunks child (n :: ancestors) code
                     maxChunkSize false g')
                (children n) own ms0 Hy0) as [ms [Hy [Hs Hp]]].
    + eapply Forall_impl; [|exact IH]. intros c Hc h.
      destruct (Hc (n :: ancestors) false h) as [msc [Hyc [Hsc Hpc]]].
      exists msc. split; [exact Hyc|]. split; [exact Hsc|].
      eapply Forall_impl; [|exact Hpc].
      intros m [Hm|[Hf _]]; [exact Hm|discriminate].
    + exists (ms0 ++ ms). split; [exact Hy|]. split.
      * destruct n as [t tx sp ep ei fn cs]. cbn [preorder children] in *.
        apply (subseq_app ms0 [_] ms _ Hs0 Hs).
      * apply Forall_app. split; eapply Forall_impl; try eassumption;
          intros m Hm; left; exact Hm.
Qed.

End Yielded.

Lemma node_chunk_core (m : node) :
  core (node_chunk m)
  = (VStr (text m),
     VNum (Z.of_nat (row (startPosition m)) + 1),
     VNum (Z.of_nat (row (endPosition m)) + 1)).
Proof.
  unfold node_chunk, details_of, collapsed_chunk.
  apply spread_details_core.
Qed.

(** X1: the chunks the generator yields are the chunks of nodes of the
    tree, in the order of a parent-first, left-to-right walk, each node
    at most once; so there are at most as many chunks as nodes.  Apart
    from a root that fits the budget, only nodes whose type is [in
    collapsedNodeConstructors] give a chunk: one of its seven keys, or
    the name of a member of [Object.prototype], which [in] finds too. *)
Theorem chunks_follow_tree (code : jsstring) (maxChunkSize : Z) (n : node)
    (ancestors : list node) (root : bool) (g : GlobalContext) :
  exists ms,
    yielded (getSmartCollapsedChunks n ancestors code maxChunkSize root g)
    = map node_chunk ms
    /\ subseq ms (preorder n)
    /\ length (yielded (getSmartCollapsedChunks n ancestors code
                          maxChunkSize root g))
       <= length (preorder n)
    /\ Forall (fun m =>
                 collapsible m = true
                 \/ (root = true /\ m = n
                     /\ (countTokens (text n) < maxChunkSize)%Z)) ms.
Proof.
  destruct (chunks_of_nodes code maxChunkSize n ancestors root g)
    as [ms [Hy [Hs Hp]]].
  exists ms. split; [exact Hy|]. split; [exact Hs|]. split; [|exact Hp].
  rewrite Hy, length_map. apply subseq_length. exact Hs.
Qed.

(** X2: the [content] of every chunk is the whole text of a node of the
    tree, and its lines are the rows of that node plus one, on the
    verbatim path and on the collapsed path alike; a chunk whose text
    is not under the budget belongs to a node whose type is [in
    collapsedNodeConstructors], as a key of its own or as the name of a
    member of [Object.prototype]. *)
Theorem chunk_is_node_text (code : jsstring) (maxChunkSize : Z) (n : node)
    (ancestors : list node) (root : bool) (g : GlobalContext) (chunk : obj) :
  In chunk (yielded (getSmartCollapsedChunks n ancestors code maxChunkSize
                       root g)) ->
  exists m,
    In m (preorder n)
    /\ core chunk
       = (VStr (text m),
          VNum (Z.of_nat (row (startPosition m)) + 1),
          VNum (Z.of_nat (row (endPosition m)) + 1))
    /\ ((countTokens (text m) < maxChunkSize)%Z \/ collapsible m = true).
Proof.
  intros Hin.
  destruct (chunks_of_nodes code maxChunkSize n ancestors root g)
    as [ms [Hy [Hs Hp]]].
  rewrite Hy in Hin. apply in_map_iff in Hin. destruct Hin as [m [<- Hm]].
  exists m. split; [apply (subseq_incl ms _ Hs); exact Hm|].
  split; [apply node_chunk_core|].
  rewrite Forall_forall in Hp. destruct (Hp m Hm) as [Hc|[_ [-> Hf]]].
  - right. exact Hc.
  - left. exact Hf.
Qed.

Lemma chunk_is_node_text_witness :
  In (node_chunk impl_f)
     (yielded (getSmartCollapsedChunks impl_item [] impl_code 10 true
                 globalContext))
  /\ exists m,
       In m (preorder impl_item)
       /\ core (node_chunk impl_f)
          = (VStr (text m),
             VNum (Z.of_nat (row (startPosition m)) + 1),
             VNum (Z.of_nat (row (endPosition m)) + 1))
       /\ ((countTokens (text m) < 10)%Z \/ collapsible m = true).
Proof.
  assert (H : In (node_chunk impl_f)
                 (yielded (getSmartCollapsedChunks impl_item [] impl_code 10
                             true globalContext))).
  { vm_compute. right. left. reflexivity. }
  split; [exact H|].
  apply (chunk_is_node_text impl_code 10 impl_item [] true globalContext).
  exact H.
Defined.

(** X3: a root whose text is under the budget gives one chunk, its own,
    whatever its type, and the walk stops there: no chunk comes from its
    descendants. *)
Theorem root_that_fits (code : jsstring) (maxChunkSize : Z) (n : node)
    (ancestors : list node) (g : GlobalContext) :
  (countTokens (text n) < maxChunkSize)%Z ->
  yielded (getSmartCollapsedChunks n ancestors code maxChunkSize true g)
  = [node_chunk n]
  /\ status (getSmartCollapsedChunks n ancestors code maxChunkSize true g)
     = Done
  /\ core (node_chunk n)
     = (VStr (text n),
        VNum (Z.of_nat (row (startPosition n)) + 1),
        VNum (Z.of_nat (row (endPosition n)) + 1)).
Proof.
  intros Hfit. rewrite getSmartCollapsedChunks_unfold.
  unfold maybeYieldChunk. cbn [orb].
  destruct (Z.ltb_spec (countTokens (text n)) maxChunkSize); [|lia].
  cbn [yielded status].
  change [("content", VStr (text n));
          ("startLine", VNum (Z.of_nat (row (startPosition n)) + 1));
          ("endLine", VNum (Z.of_nat (row (endPosition n)) + 1))]%string
    with (collapsed_chunk (VStr (text n)) n).
  rewrite spread_is_node_chunk.
  split; [reflexivity|]. split; [reflexivity|apply node_chunk_core].
Qed.

Lemma root_that_fits_witness :
  (countTokens (text decls_unit) < 5)%Z
  /\ yielded (getSmartCollapsedChunks decls_unit [] decls_code 5 true
                globalContext)
     = [node_chunk decls_unit].
Proof.
  split; [reflexivity|].
  apply (root_that_fits decls_code 5 decls_unit [] globalContext).
  reflexivity.
Defined.

(** ** How the generator fails *)

Lemma existsb_find {A : Type} (f : A -> bool) (l : list A) :
  existsb f l = match find f l with Some _ => true | None => false end.
Proof.
  induction l as [|a l IH]; [reflexivity|].
  simpl. destruct (f a); [reflexivity|exact IH].
Qed.

(** [in] holds exactly when the property read gives something. *)
Lemma in_collapsedNodeConstructors_spec (t : string) :
  in_collapsedNodeConstructors t
  = match constructor_of t with Some _ => true | None => false end.
Proof.
  unfold in_collapsedNodeConstructors, constructor_of.
  rewrite !existsb_find.
  destruct (find _ collapsedNodeConstructors); [reflexivity|].
  destruct (find _ Object_prototype); reflexivity.
Qed.

(** An inherited member is found under its own name. *)
Lemma constructor_of_inherited (t : string) (m : inherited) :
  constructor_of t = Some (Inherited m) -> In (t, m) Object_prototype.
Proof.
  unfold constructor_of.
  destruct (find _ collapsedNodeConstructors); [discriminate|].
  destruct (find _ Object_prototype) as [kv|] eqn:E; [|discriminate].
  intros H. inversion H; subst.
  apply find_some in E. destruct E as [Hin Heq].
  apply String.eqb_eq in Heq. subst t. destruct kv. exact Hin.
Qed.

Section Failure.

Variable code : jsstring.
Variable maxChunkSize : Z.

Lemma failed_at_incl (l1 l2 : list node) (o : outcome) :
  (forall m, In m l1 -> In m l2) ->
  failed_at maxChunkSize l1 o -> failed_at maxChunkSize l2 o.
Proof.
  intros Hincl [e [m [He [Hm Hrest]]]].
  exists e, m. split; [exact He|].
  split; [apply Hincl; exact Hm|exact Hrest].
Qed.

Lemma children_failure (descend : node -> GlobalContext -> run) :
  forall cs r nodes,
    status r = Done \/ failed_at maxChunkSize nodes (status r) ->
    Forall (fun c => forall g,
                status (descend c g) = Done
                \/ failed_at maxChunkSize (preorder c)
                             (status (descend c g))) cs ->
    status (fold_left (then_child descend) cs r) = Done
    \/ failed_at maxChunkSize (nodes ++ flat_map preorder cs)
                 (status (fold_left (then_child descend) cs r)).
Proof.
  induction cs as [|c cs IH]; intros r nodes Hr Hcs.
  - cbn [fold_left flat_map]. rewrite app_nil_r. exact Hr.
  - inversion Hcs as [|? ? Hc Hrest]; subst. cbn [fold_left flat_map].
    rewrite app_assoc. apply IH; [|exact Hrest].
    unfold then_child. destruct (status r) eqn:Es.
    + cbn [status]. destruct (Hc (context r)) as [Hd|Hf]; [left; exact Hd|].
      right. apply (failed_at_incl (preorder c)); [|exact Hf].
      intros m Hm. apply in_or_app. right. exact Hm.
    + right. destruct Hr as [Hd|Hf]; [discriminate|]. rewrite Es.
      apply (failed_at_incl nodes); [|exact Hf].
      intros m Hm. apply in_or_app. left. exact Hm.
    + right. destruct Hr as [Hd|Hf]; [discriminate|]. rewrite Es.
      apply (failed_at_incl nodes); [|exact Hf].
      intros m Hm. apply in_or_app. left. exact Hm.
Qed.

(** A loop over the children that starts after an exception yields
    nothing more and ends by that exception. *)
Lemma children_after_throw (descend : node -> GlobalContext -> run)
    (e : exn) :
  forall cs r,
    status r = Threw e ->
    fold_left (then_child descend) cs r = r.
Proof.
  induction cs as [|c cs IH]; intros r Hr; [reflexivity|].
  cbn [fold_left]. unfold then_child at 2. rewrite Hr.
  apply IH. exact Hr.
Qed.

(** What the call of line 449 throws on a node, it throws on a node that
    is [throwing]. *)
Lemma construct_throws (c : entry) (n : node) (ancestors : list node)
    (o : outcome) :
  constructor_of (type n) = Some c ->
  construct c n ancestors code maxChunkSize = inl o ->
  exists e, o = Threw e /\ throwing n e.
Proof.
  intros Ec E.
  pose proof (construct_has_fuel c n ancestors code maxChunkSize) as Hfuel.
  unfold construct in E. destruct c as [[|]|m].
  - exfalso. unfold construct in Hfuel.
    destruct (constructClassDefinitionChunk _ _ _ _);
      [discriminate|]. apply Hfuel. reflexivity.
  - destruct (constructFunctionDefinitionChunk _ _ _ _) as [e|s] eqn:Ef;
      [|discriminate].
    inversion E; subst. exists e. split; [reflexivity|].
    unfold constructFunctionDefinitionChunk in Ef.
    destruct (lastChild n) as [b|] eqn:El.
    + destruct ancestors as [|p [|q above]]; try discriminate.
      destruct (_ && _); discriminate.
    + inversion Ef; subst.
      apply throwing_childless; [exact Ec|].
      apply lastChild_none. exact El.
  - apply constructor_of_inherited in Ec.
    destruct (call_inherited m) as [e|v] eqn:Ei; [|discriminate].
    inversion E; subst. exists e. split; [reflexivity|].
    simpl in Ec.
    repeat (destruct Ec as [Ec|Ec];
            [inversion Ec; subst; try discriminate Ei;
             inversion Ei; subst|]);
      try (destruct Ec).
    + apply throwing_defineGetter. congruence.
    + apply throwing_defineSetter. congruence.
    + apply throwing_proto. congruence.
Qed.

(** On a node that is [throwing], the call of line 449 throws. *)
Lemma throwing_construct (n : node) (ancestors : list node) (e : exn) :
  throwing n e ->
  in_collapsedNodeConstructors (type n) = true
  /\ exists c,
       constructor_of (type n) = Some c
       /\ construct c n ancestors code maxChunkSize = inl (Threw e).
Proof.
  intros H. destruct H as [m Hc Hnil|m Ht|m Ht|m Ht].
  - split; [rewrite in_collapsedNodeConstructors_spec, Hc; reflexivity|].
    exists (Own FunctionDefinitionChunk). split; [exact Hc|].
    unfold construct, constructFunctionDefinitionChunk.
    apply lastChild_none in Hnil. rewrite Hnil. reflexivity.
  - rewrite Ht. split; [reflexivity|].
    exists (Inherited proto). split; reflexivity.
  - rewrite Ht. split; [reflexivity|].
    exists (Inherited defineGetter). split; reflexivity.
  - rewrite Ht. split; [reflexivity|].
    exists (Inherited defineSetter). split; reflexivity.
Qed.

Lemma own_run_outcome (n : node) (ancestors : list node) (root : bool)
    (details : obj) (g g1 : GlobalContext) :
  maybeYieldChunk n code maxChunkSize root = None ->
  status (own_run n ancestors code maxChunkSize details g g1) = Done
  \/ failed_at maxChunkSize [n]
       (status (own_run n ancestors code maxChunkSize details g g1)).
Proof.
  intros Ey. unfold own_run.
  destruct (in_collapsedNodeConstructors (type n)) eqn:Ein;
    [|left; reflexivity].
  pose proof (in_collapsedNodeConstructors_spec (type n)) as Hspec.
  rewrite Ein in Hspec.
  destruct (constructor_of (type n)) as [c|] eqn:Ec; [|discriminate].
  destruct (construct c n ancestors code maxChunkSize) as [o|content] eqn:E;
    [|left; reflexivity].
  right. cbn [status].
  destruct (construct_throws c n ancestors o Ec E) as [e [-> Ht]].
  exists e, n. split; [reflexivity|]. split; [left; reflexivity|].
  split; [exact Ht|].
  apply (maybeYieldChunk_none n code maxChunkSize root Ey). exact Ein.
Qed.

Lemma generator_outcome :
  forall n ancestors root g,
    status (getSmartCollapsedChunks n ancestors code maxChunkSize root g)
    = Done
    \/ failed_at maxChunkSize (preorder n)
         (status (getSmartCollapsedChunks n ancestors code maxChunkSize
                    root g)).
Proof.
  induction n as [n IH] using node_children_ind. intros ancestors root g.
  rewrite getSmartCollapsedChunks_unfold.
  destruct (maybeYieldChunk n code maxChunkSize root) as [chunk|] eqn:Ey;
    [left; reflexivity|].
  set (own := own_run n ancestors code maxChunkSize _ _ _).
  assert (Hown : status own = Done
                 \/ failed_at maxChunkSize [n] (status own)).
  { apply (own_run_outcome n ancestors root). exact Ey. }
  destruct (children_failure
              (fun child g' =>
                 getSmartCollapsedChunks child (n :: ancestors) code
                   maxChunkSize false g')
              (children n) own [n] Hown) as [Hd|Hf].
  - eapply Forall_impl; [|exact IH]. intros c Hc h. apply Hc.
  - left. exact Hd.
  - right. destruct n as [t tx sp ep ei fn cs]. exact Hf.
Qed.

(** A node that is [throwing] and not under the budget ends the
    generator at once. *)
Lemma generator_throws (n : node) (ancestors : list node) (root : bool)
    (g : GlobalContext) (e : exn) :
  throwing n e ->
  (maxChunkSize <= countTokens (text n))%Z ->
  yielded (getSmartCollapsedChunks n ancestors code maxChunkSize root g) = []
  /\ status (getSmartCollapsedChunks n ancestors code maxChunkSize root g)
     = Threw e.
Proof.
  intros Ht Hover.
  destruct (throwing_construct n ancestors e Ht) as [Hin [c [Hc Hthrow]]].
  rewrite getSmartCollapsedChunks_unfold.
  assert (Ey : maybeYieldChunk n code maxChunkSize root = None).
  { unfold maybeYieldChunk. destruct (root || _); [|reflexivity].
    destruct (Z.ltb_spec (countTokens (text n)) maxChunkSize);
      [lia|reflexivity]. }
  rewrite Ey.
  rewrite (children_after_throw _ e).
  - unfold own_run. rewrite Hin, Hc, Hthrow. split; reflexivity.
  - unfold own_run. rewrite Hin, Hc, Hthrow. reflexivity.
Qed.

End Failure.

(** X4: the generator ends without an exception unless the walk reaches a
    node whose text is not under the budget and on which the call of the
    table entry throws: a node that [collapsedNodeConstructors] maps to
    [constructFunctionDefinitionChunk] and that has no child (the type
    error of reading a property of [undefined]), or a node whose type is
    [__proto__] (the entry is not a function), [__defineGetter__] or
    [__defineSetter__] (which refuse the source as a getter or setter).
    It ends normally on a tree without such a node; and called on such a
    node, it yields nothing and ends by that exception. *)
Theorem generator_failure (code : jsstring) (maxChunkSize : Z) (n : node)
    (ancestors : list node) (root : bool) (g : GlobalContext) :
  (status (getSmartCollapsedChunks n ancestors code maxChunkSize root g)
   = Done
   \/ failed_at maxChunkSize (preorder n)
        (status (getSmartCollapsedChunks n ancestors code maxChunkSize
                   root g)))
  /\ ((forall m, In m (preorder n) ->
         (constructor_of (type m) = Some (Own FunctionDefinitionChunk) ->
          children m <> [])
         /\ type m <> "__proto__"%string
         /\ type m <> "__defineGetter__"%string
         /\ type m <> "__defineSetter__"%string) ->
      status (getSmartCollapsedChunks n ancestors code maxChunkSize root g)
      = Done)
  /\ (forall e,
        throwing n e ->
        (maxChunkSize <= countTokens (text n))%Z ->
        yielded (getSmartCollapsedChunks n ancestors code maxChunkSize
                   root g) = []
        /\ status (getSmartCollapsedChunks n ancestors code maxChunkSize
                     root g) = Threw e).
Proof.
  pose proof (generator_outcome code maxChunkSize n ancestors root g) as H.
  split; [exact H|]. split.
  - intros Hall. destruct H as [Hd|[e [m [_ [Hm [Ht _]]]]]]; [exact Hd|].
    exfalso. destruct (Hall m Hm) as [Hc [Hp [Hg Hs]]].
    destruct Ht as [m Hf Hnil|m Ht|m Ht|m Ht];
      [apply (Hc Hf Hnil)|apply (Hp Ht)|apply (Hg Ht)|apply (Hs Ht)].
  - intros e. apply generator_throws.
Qed.

Lemma generator_failure_witness :
  status (getSmartCollapsedChunks impl_item [] impl_code 10 true
            globalContext) = Done
  /\ status (getSmartCollapsedChunks empty_function []
               (text empty_function) 3 true globalContext)
     = Threw (TypeError
                "Cannot read properties of undefined (reading 'startPosition')").
Proof.
  split.
  - apply (generator_failure impl_code 10 impl_item [] true globalContext).
    intros m Hm. simpl in Hm.
    repeat (destruct Hm as [<-|Hm];
            [repeat split; try discriminate;
             intros Hc; try discriminate Hc; discriminate|]).
    destruct Hm.
  - apply (generator_failure (text empty_function) 3 empty_function [] true
             globalContext).
    + apply throwing_childless; reflexivity.
    + vm_compute. discriminate.
Defined.

(** ** Bounds of the estimator *)

Lemma countTokens_positive (text : jsstring) : (1 <= countTokens text)%Z.
Proof. rewrite countTokens_ws_runs. lia. Qed.

(** X5: the estimate of a text is at least 1, the empty text included; so
    under a budget of 1 or less no node is emitted verbatim, not even an
    empty root, and every chunk comes from the collapsed path: it is the
    chunk of a node whose type is [in collapsedNodeConstructors]. *)
Theorem no_verbatim_chunk_under_budget_1 (code : jsstring)
    (maxChunkSize : Z) (n : node) (ancestors : list node) (root : bool)
    (g : GlobalContext) :
  (maxChunkSize <= 1)%Z ->
  (1 <= countTokens (text n))%Z
  /\ maybeYieldChunk n code maxChunkSize root = None
  /\ exists ms,
       yielded (getSmartCollapsedChunks n ancestors code maxChunkSize root g)
       = map node_chunk ms
       /\ Forall (fun m => collapsible m = true) ms.
Proof.
  intros Hmax. split; [apply countTokens_positive|]. split.
  - unfold maybeYieldChunk. destruct (root || _); [|reflexivity].
    pose proof (countTokens_positive (text n)).
    destruct (Z.ltb_spec (countTokens (text n)) maxChunkSize);
      [lia|reflexivity].
  - destruct (chunks_of_nodes code maxChunkSize n ancestors root g)
      as [ms [Hy [_ Hp]]].
    exists ms. split; [exact Hy|].
    eapply Forall_impl; [|exact Hp].
    intros m [Hc|[_ [_ Hfit]]]; [exact Hc|].
    pose proof (countTokens_positive (text n)). lia.
Qed.

Lemma no_verbatim_chunk_under_budget_1_witness :
  (1 <= 1)%Z
  /\ maybeYieldChunk keyword_root keyword_code 1 true = None
  /\ exists ms,
       yielded (getSmartCollapsedChunks keyword_root [] keyword_code 1 true
                  globalContext)
       = map node_chunk ms
       /\ Forall (fun m => collapsible m = true) ms.
Proof.
  split; [lia|].
  apply (no_verbatim_chunk_under_budget_1 keyword_code 1 keyword_root []
           true globalContext).
  lia.
Defined.

(** A node whose type is the name of an inherited member goes down the
    collapsed path as the nodes of the seven keys do: [constructor] is
    [in] the table, the call of [Object] returns, and the chunk of the
    node is yielded. *)
Lemma inherited_key_gives_chunk :
  constructor_of "constructor" = Some (Inherited Object_constructor)
  /\ collapsible keyword_node = true
  /\ yielded (getSmartCollapsedChunks keyword_root [] keyword_code 1 true
                globalContext)
     = [node_chunk keyword_node]
  /\ obj_get "content" (node_chunk keyword_node) = VStr (js "constructor").
Proof. repeat split; reflexivity. Qed.

(** ** Removing text never adds tokens *)

Lemma nonws_runs_go_flag (s : jsstring) :
  nonws_runs_go true s <= nonws_runs_go false s
  /\ nonws_runs_go false s <= S (nonws_runs_go true s).
Proof.
  destruct s as [|c s]; simpl; [lia|]. destruct (is_ws c); simpl; lia.
Qed.

Lemma ends_in_run (mid : jsstring) :
  forall in_run,
    negb (last_ws (negb in_run) mid) = true ->
    in_run = true \/ 1 <= nonws_runs_go in_run mid.
Proof.
  induction mid as [|c mid IH]; intros in_run H; simpl in *.
  - rewrite negb_involutive in H. left. exact H.
  - destruct (is_ws c) eqn:E.
    + destruct (IH false H) as [Hf|Hr]; [discriminate|right; exact Hr].
    + destruct in_run; [left; reflexivity|right; simpl; lia].
Qed.

Lemma nonws_runs_go_insert (mid post : jsstring) (in_run : bool) :
  nonws_runs_go in_run post <= nonws_runs_go in_run (mid ++ post).
Proof.
  rewrite nonws_runs_go_app.
  destruct (nonws_runs_go_flag post) as [H1 H2].
  destruct (negb (last_ws (negb in_run) mid)) eqn:E.
  - destruct (ends_in_run mid in_run E) as [->|Hr]; [lia|].
    destruct in_run; lia.
  - destruct in_run; lia.
Qed.

Lemma nonws_runs_insert (pre mid post : jsstring) :
  nonws_runs (pre ++ post) <= nonws_runs (pre ++ mid ++ post).
Proof.
  unfold nonws_runs. rewrite (nonws_runs_go_app pre post).
  rewrite (nonws_runs_go_app pre (mid ++ post)).
  apply Nat.add_le_mono_l. apply nonws_runs_go_insert.
Qed.

Lemma cut_removes (code : jsstring) (i len : nat) :
  cut code i len = firstn i code ++ skipn (i + len) code
  /\ code = firstn i code ++ firstn len (skipn i code)
            ++ skipn (i + len) code.
Proof.
  split.
  - unfold cut, slice, slice_from. rewrite Nat.sub_0_r. reflexivity.
  - rewrite (Nat.add_comm i len), <- skipn_skipn.
    rewrite firstn_skipn, firstn_skipn. reflexivity.
Qed.

Lemma evict_text_tokens (code u : jsstring) :
  (countTokens (trim (evict_text code u)) <= countTokens (trim code))%Z.
Proof.
  unfold evict_text. destruct (0 <? lastIndexOf code u)%Z; [|lia].
  destruct (cut_removes code (Z.to_nat (lastIndexOf code u)) (length u))
    as [Hc Hcode].
  rewrite Hc, !countTokens_trim.
  pose proof (nonws_runs_insert
                (firstn (Z.to_nat (lastIndexOf code u)) code)
                (firstn (length u)
                        (skipn (Z.to_nat (lastIndexOf code u)) code))
                (skipn (Z.to_nat (lastIndexOf code u) + length u) code))
    as H.
  rewrite <- Hcode in H. lia.
Qed.

Lemma evict_loop_tokens (maxChunkSize : Z) :
  forall fuel st st',
    evict_loop countTokens fuel maxChunkSize st = Some st' ->
    (countTokens (trim (ev_code st')) <= countTokens (trim (ev_code st)))%Z.
Proof.
  induction fuel as [|fuel IH]; intros st st' H; [discriminate|].
  simpl in H. destruct (evict_guard countTokens maxChunkSize st).
  - apply IH in H. unfold evict_body in H. cbn [ev_code] in H.
    pose proof (evict_text_tokens (ev_code st) (last (ev_units st) [])).
    lia.
  - inversion H; subst. lia.
Qed.

(** X6: the default estimator keeps the contract the loop relies on:
    taking a piece out of a text never raises the token count of the
    trimmed text; so no turn of the loop raises the estimate, and the
    rendering of a container has at most the tokens of its collapsed
    text. *)
Theorem removal_never_adds_tokens (pre mid post : jsstring) (n : node)
    (code : jsstring) (blockTypes : grammar_name)
    (collapseTypes : list string) (collapseBlockTypes : grammar_name)
    (maxChunkSize : Z) :
  (countTokens (trim (pre ++ post))
   <= countTokens (trim (pre ++ mid ++ post)))%Z
  /\ (forall text u,
        (countTokens (trim (evict_text text u))
         <= countTokens (trim text))%Z)
  /\ exists rendering,
       collapseChildren countTokens n code blockTypes collapseTypes
         collapseBlockTypes maxChunkSize = Some rendering
       /\ (countTokens (trim rendering)
           <= countTokens
                (trim (fst (collapse_phase n code blockTypes collapseTypes
                                           collapseBlockTypes))))%Z.
Proof.
  split.
  { rewrite !countTokens_trim.
    pose proof (nonws_runs_insert pre mid post). lia. }
  split; [apply evict_text_tokens|].
  destruct (collapseChildren_stops countTokens n code blockTypes
              collapseTypes collapseBlockTypes maxChunkSize)
    as [st [Hrun [Hres _]]].
  eexists. split; [exact Hres|].
  apply evict_loop_tokens in Hrun. cbn [ev_code] in Hrun.
  destruct (ev_removed st); [rewrite normalize_keeps_tokens|]; exact Hrun.
Qed.

(** ** What the normalization keeps *)

Lemma subseq_skipn {A : Type} (k : nat) (l : list A) : subseq (skipn k l) l.
Proof.
  revert l. induction k as [|k IH]; intros l; [apply subseq_refl|].
  destruct l as [|x l]; [constructor|]. simpl. constructor. apply IH.
Qed.

Lemma squeeze_subseq (lines : list jsstring) :
  subseq (fst (squeeze lines)) lines.
Proof.
  unfold squeeze. induction lines as [|l rest IH]; [constructor|].
  cbn [fold_right].
  destruct (fold_right squeeze_step ([], 0) rest) as [out group].
  cbn [fst] in IH. unfold squeeze_step.
  destruct (blank l); cbn [fst]; apply subseq_take; [exact IH|].
  destruct (1 <? group); [|exact IH].
  clear -IH. revert IH. generalize (subseq_skipn group out).
  generalize (skipn group out). intros l1 H1 H2.
  revert l1 H1. induction H2; intros l0 H0.
  - exact H0.
  - constructor. apply IHsubseq. exact H0.
  - inversion H0; subst.
    + constructor. apply IHsubseq. assumption.
    + apply subseq_take. apply IHsubseq. assumption.
Qed.

Lemma lines_of_normalize (code : jsstring) :
  split_nl (normalize code) = fst (squeeze (split_nl code)).
Proof.
  rewrite normalize_squeeze. apply split_join.
  - apply squeeze_nonempty, split_nl_nonempty.
  - apply Forall_forall. intros l Hl. apply squeeze_incl in Hl.
    pose proof (split_nl_no_newline code) as H.
    rewrite Forall_forall in H. apply H. exact Hl.
Qed.

Lemma text_lines_skip_blanks (lines : list jsstring) :
  filter (fun l => negb (blank l)) (skipn (lead_blanks lines) lines)
  = filter (fun l => negb (blank l)) lines.
Proof.
  induction lines as [|l rest IH]; [reflexivity|].
  simpl. destruct (blank l) eqn:E; simpl; [exact IH|].
  rewrite E. reflexivity.
Qed.

Lemma squeeze_text_lines (lines : list jsstring) :
  filter (fun l => negb (blank l)) (fst (squeeze lines))
  = filter (fun l => negb (blank l)) lines.
Proof.
  induction lines as [|l rest IH]; [reflexivity|].
  pose proof (squeeze_tidy rest) as [Hc _].
  unfold squeeze in *. cbn [fold_right].
  destruct (fold_right squeeze_step ([], 0) rest) as [out group].
  cbn [fst snd] in IH, Hc. unfold squeeze_step.
  destruct (blank l) eqn:E; cbn [fst filter]; rewrite E; cbn [negb].
  - exact IH.
  - f_equal. destruct (1 <? group); [|exact IH].
    rewrite Hc, text_lines_skip_blanks. exact IH.
Qed.

(** X7: the normalization only takes blank lines out: the lines of the
    result are lines of the text, in their order, and the lines that are
    not blank are all there. *)
Theorem normalize_keeps_text_lines (code : jsstring) :
  subseq (split_nl (normalize code)) (split_nl code)
  /\ filter (fun l => negb (blank l)) (split_nl (normalize code))
     = filter (fun l => negb (blank l)) (split_nl code).
Proof.
  rewrite lines_of_normalize. split.
  - apply squeeze_subseq.
  - apply squeeze_text_lines.
Qed.

(** X8: in a normalized text no line with text is followed by two blank
    lines or more (blank lines that open the text are kept as they are);
    and a text that is already so is returned unchanged. *)
Theorem normalize_result (code : jsstring) :
  tidy (split_nl (normalize code))
  /\ (tidy (split_nl code) -> normalize code = code).
Proof.
  split.
  - rewrite lines_of_normalize. apply squeeze_tidy.
  - intros H. rewrite normalize_squeeze, (squeeze_of_tidy _ H).
    apply join_split.
Qed.

Lemma normalize_result_witness :
  tidy (split_nl spaced_text) /\ normalize spaced_text = spaced_text.
Proof.
  assert (H : tidy (split_nl spaced_text)).
  { vm_compute. repeat split; intros; try discriminate; lia. }
  split; [exact H|].
  apply (normalize_result spaced_text). exact H.
Defined.

(** X9: the normalization is cosmetic: it changes neither the number of
    words of the text nor the estimate of the trimmed text, the one the
    loop has tested. *)
Theorem normalization_is_cosmetic (code : jsstring) :
  nonws_runs (normalize code) = nonws_runs code
  /\ countTokens (trim (normalize code)) = countTokens (trim code).
Proof.
  split; [apply normalize_words|apply normalize_keeps_tokens].
Qed.

(** ** The length of a rendering *)

Lemma join_nl_length (l : jsstring) (rest : list jsstring) :
  length (join_nl (l :: rest))
  = length l + match rest with
               | [] => 0
               | _ :: _ => S (length (join_nl rest))
               end.
Proof.
  destruct rest as [|l' rest']; [simpl; lia|].
  change (join_nl (l :: l' :: rest'))
    with (l ++ newline :: join_nl (l' :: rest')).
  rewrite length_app. reflexivity.
Qed.

Lemma join_nl_subseq (l1 l2 : list jsstring) :
  subseq l1 l2 -> length (join_nl l1) <= length (join_nl l2).
Proof.
  intros H. induction H.
  - lia.
  - rewrite join_nl_length. destruct l2; [inversion H; subst; simpl; lia|].
    lia.
  - rewrite !join_nl_length. destruct l1 as [|a l1].
    + lia.
    + destruct l2 as [|b l2]; [inversion H|]. lia.
Qed.

Lemma normalize_length (code : jsstring) :
  length (normalize code) <= length code.
Proof.
  rewrite <- (join_split code) at 2. rewrite normalize_squeeze.
  apply join_nl_subseq, squeeze_subseq.
Qed.

Lemma evict_text_length (code u : jsstring) :
  length (evict_text code u) <= length code.
Proof.
  unfold evict_text. destruct (0 <? lastIndexOf code u)%Z; [|lia].
  destruct (cut_removes code (Z.to_nat (lastIndexOf code u)) (length u))
    as [Hc _].
  rewrite Hc, length_app, length_firstn, length_skipn. lia.
Qed.

Lemma evict_loop_length (estimate : jsstring -> Z) (maxChunkSize : Z) :
  forall fuel st st',
    evict_loop estimate fuel maxChunkSize st = Some st' ->
    length (ev_code st') <= length (ev_code st).
Proof.
  induction fuel as [|fuel IH]; intros st st' H; [discriminate|].
  simpl in H. destruct (evict_guard estimate maxChunkSize st).
  - apply IH in H. unfold evict_body in H. cbn [ev_code] in H.
    pose proof (evict_text_length (ev_code st) (last (ev_units st) [])).
    lia.
  - inversion H; subst. lia.
Qed.

(** X10: whatever the estimator, eviction and normalization only take
    text away: the rendering of a container is never longer than its
    collapsed text, and a turn of the loop that changes the text
    shortens it by the length of the unit. *)
Theorem rendering_never_longer (estimate : jsstring -> Z) (n : node)
    (code : jsstring) (blockTypes : grammar_name)
    (collapseTypes : list string) (collapseBlockTypes : grammar_name)
    (maxChunkSize : Z) :
  (exists rendering,
      collapseChildren estimate n code blockTypes collapseTypes
        collapseBlockTypes maxChunkSize = Some rendering
      /\ length rendering
         <= length (fst (collapse_phase n code blockTypes collapseTypes
                                        collapseBlockTypes)))
  /\ (forall text u,
        evict_text text u <> text ->
        length (evict_text text u) + length u = length text)
  /\ (forall text, length (normalize text) <= length text).
Proof.
  split; [|split].
  - destruct (collapseChildren_stops estimate n code blockTypes
                collapseTypes collapseBlockTypes maxChunkSize)
      as [st [Hrun [Hres _]]].
    eexists. split; [exact Hres|].
    apply evict_loop_length in Hrun. cbn [ev_code] in Hrun.
    destruct (ev_removed st); [|exact Hrun].
    pose proof (normalize_length (ev_code st)). lia.
  - intros text u Hne.
    destruct (evict_text_changed text u Hne) as [i [Hi Hl]].
    rewrite (evict_text_found text u i Hl Hi).
    destruct Hl as [[pre [post [-> <-]]] _].
    rewrite !length_app, length_firstn, length_skipn, !length_app. lia.
  - apply normalize_length.
Qed.

Lemma rendering_never_longer_witness :
  evict_text (js "ab cd ef") (js "ef") <> js "ab cd ef"
  /\ length (evict_text (js "ab cd ef") (js "ef")) + length (js "ef")
     = length (js "ab cd ef").
Proof.
  assert (H : evict_text (js "ab cd ef") (js "ef") <> js "ab cd ef").
  { vm_compute. discriminate. }
  split; [exact H|].
  destruct (rendering_never_longer countTokens impl_item impl_code
              (Tags CLASS_BLOCK_NODE_TYPES) FUNCTION_DECLARATION_NODE_TYPES
              (Tags FUNCTION_BLOCK_NODE_TYPES) 10) as [_ [Hcut _]].
  apply Hcut. exact H.
Defined.

(** ** The enrichment pass *)

Lemma traverseNode_unfold {S : Type} (n : node) (callback : node -> S -> S)
    (s : S) :
  traverseNode n callback s
  = fold_left (fun s' child => traverseNode child callback s')
              (children n) (callback n s).
Proof. destruct n; reflexivity. Qed.

Lemma traverse_children {S : Type} (callback : node -> S -> S) :
  forall cs s,
    Forall (fun c => forall s',
                traverseNode c callback s'
                = fold_left (fun acc m => callback m acc) (preorder c) s')
           cs ->
    fold_left (fun s' child => traverseNode child callback s') cs s
    = fold_left (fun acc m => callback m acc) (flat_map preorder cs) s.
Proof.
  induction cs as [|c cs IH]; intros s H; [reflexivity|].
  inversion H as [|? ? Hc Hrest]; subst. cbn [fold_left flat_map].
  rewrite fold_left_app, Hc. apply IH. exact Hrest.
Qed.

(** X11: [traverseNode] calls the callback once on every node of the
    subtree, a node before its children and the children from left to
    right. *)
Theorem traverseNode_preorder {S : Type} (callback : node -> S -> S) :
  forall n s,
    traverseNode n callback s
    = fold_left (fun acc m => callback m acc) (preorder n) s.
Proof.
  induction n as [n IH] using node_children_ind. intros s.
  rewrite traverseNode_unfold.
  rewrite (traverse_children callback (children n) (callback n s) IH).
  destruct n; reflexivity.
Qed.

Lemma traverseNode_list {S : Type} (callback : node -> S -> S) (n : node)
    (s : S) :
  traverseNode n callback s
  = fold_left (fun acc m => callback m acc) (preorder n) s.
Proof.
  revert s. induction n as [n IH] using node_children_ind. intros s.
  rewrite traverseNode_unfold.
  rewrite (traverse_children callback (children n) (callback n s) IH).
  destruct n; reflexivity.
Qed.

Lemma body_callback_fold (l : list node) :
  forall b,
    fold_left (fun acc m => body_callback m acc) l b
    = mkBody
        (bd_variables b ++ map variable_entry (filter is_declaration l))
        (bd_controlStructures b ++ map control_entry (filter is_control l))
        (bd_functionCalls b ++ map call_entry (filter is_call l)).
Proof.
  induction l as [|m l IH]; intros b.
  - simpl. rewrite !app_nil_r. destruct b; reflexivity.
  - cbn [fold_left]. rewrite IH. unfold body_callback.
    cbn [filter]. unfold is_declaration, is_control, is_call.
    destruct (String.eqb_spec (type m) "declaration") as [E|E].
    + rewrite E. cbn [includes existsb String.eqb Ascii.eqb Bool.eqb orb
                        bd_variables bd_controlStructures bd_functionCalls
                        map].
      rewrite <- app_assoc. reflexivity.
    + destruct (includes _ (type m)) eqn:Ec.
      * assert (En : String.eqb (type m) "call_expression" = false).
        { unfold includes in Ec. cbn [existsb] in Ec.
          destruct (String.eqb_spec (type m) "call_expression") as [Ek|Ek];
            [|reflexivity].
          rewrite Ek in Ec. discriminate. }
        rewrite En. cbn [bd_variables bd_controlStructures bd_functionCalls
                           map].
        rewrite <- app_assoc. reflexivity.
      * destruct (String.eqb (type m) "call_expression");
          cbn [bd_variables bd_controlStructures bd_functionCalls map];
          rewrite <- ?app_assoc; reflexivity.
Qed.

Lemma extractFunctionBody_some (b : node) (code : jsval) :
  extractFunctionBody (Some b) code
  = VObj [("variables",
           VArr (map variable_entry (filter is_declaration (preorder b))));
          ("controlStructures",
           VArr (map control_entry (filter is_control (preorder b))));
          ("functionCalls",
           VArr (map call_entry (filter is_call (preorder b))))]%string.
Proof.
  unfold extractFunctionBody.
  rewrite traverseNode_list, body_callback_fold. reflexivity.
Qed.

(** X12: the three arrays [extractFunctionBody] returns list the
    declarations, the [if]/[for]/[while]/[do] statements and the calls of
    the whole subtree of the body, nested ones included, each in the
    order of the source; without a body the result is the empty
    string. *)
Theorem extractFunctionBody_arrays (bodyNode : option node) (code : jsval) :
  extractFunctionBody bodyNode code
  = match bodyNode with
    | None => VStr []
    | Some b =>
        VObj [("variables",
               VArr (map variable_entry
                         (filter is_declaration (preorder b))));
              ("controlStructures",
               VArr (map control_entry (filter is_control (preorder b))));
              ("functionCalls",
               VArr (map call_entry (filter is_call (preorder b))))]%string
    end.
Proof.
  destruct bodyNode as [b|]; [apply extractFunctionBody_some|reflexivity].
Qed.

(** *** The context after [processNode] *)

Lemma processNode_unfold (n : node) (code filePath : jsval)
    (g : GlobalContext) :
  processNode n code filePath g
  = (fst (extractNodeDetails n code (set_currentFile filePath g)),
     updateGlobalContext
       (fst (extractNodeDetails n code (set_currentFile filePath g))) n
       (snd (extractNodeDetails n code (set_currentFile filePath g)))).
Proof.
  destruct n as [t tx sp ep ei fn cs]. cbn [processNode].
  destruct (extractNodeDetails _ _ _) as [details g1]. reflexivity.
Qed.

Lemma extractNodeDetails_context (n : node) (code : jsval)
    (g : GlobalContext) :
  variables (snd (extractNodeDetails n code g)) = variables g
  /\ functions (snd (extractNodeDetails n code g)) = functions g
  /\ macros (snd (extractNodeDetails n code g)) = macros g
  /\ currentFile (snd (extractNodeDetails n code g)) = currentFile g.
Proof.
  unfold extractNodeDetails. split_ifs; repeat split; reflexivity.
Qed.

Lemma update_switch_currentFile (details : obj) (g : GlobalContext) :
  currentFile (update_switch details g) = currentFile g.
Proof.
  unfold update_switch. destruct (obj_get "type" details); try reflexivity.
  split_ifs; reflexivity.
Qed.

Lemma children_currentFile :
  forall cs g,
    Forall (fun c => forall code filePath g',
                currentFile (snd (processNode c code filePath g'))
                = match children c with
                  | [] => filePath
                  | _ :: _ => VUndefined
                  end) cs ->
    currentFile
      (fold_left (fun g' child =>
                    snd (processNode child (currentFile g') VUndefined g'))
                 cs g)
    = match cs with
      | [] => currentFile g
      | _ :: _ => VUndefined
      end.
Proof.
  induction cs as [|c cs IH]; intros g H; [reflexivity|].
  inversion H as [|? ? Hc Hrest]; subst. cbn [fold_left].
  rewrite (IH _ Hrest). destruct cs as [|c' cs']; [|reflexivity].
  rewrite Hc. destruct (children c); reflexivity.
Qed.

Lemma processNode_currentFile :
  forall n code filePath g,
    currentFile (snd (processNode n code filePath g))
    = match children n with
      | [] => filePath
      | _ :: _ => VUndefined
      end.
Proof.
  induction n as [n IH] using node_children_ind. intros code filePath g.
  rewrite processNode_unfold. cbn [snd]. unfold updateGlobalContext.
  rewrite (children_currentFile (children n) _ IH).
  destruct (children n); [|reflexivity].
  rewrite update_switch_currentFile.
  destruct (extractNodeDetails_context n code (set_currentFile filePath g))
    as [_ [_ [_ H]]].
  rewrite H. reflexivity.
Qed.

(** X13: [processNode] forgets the file: the loop of
    [updateGlobalContext] calls it on the children without a file path,
    so after [processNode] on a node with children
    [globalContext.currentFile] is [undefined]; it is the file path
    given only when the node has no child. *)
Theorem processNode_forgets_file (n : node) (code filePath : jsval)
    (g : GlobalContext) :
  currentFile (snd (processNode n code filePath g))
  = match children n with
    | [] => filePath
    | _ :: _ => VUndefined
    end.
Proof. apply processNode_currentFile. Qed.

(** *** The symbol tables *)

Lemma str_eqb_eq (a b : jsstring) : str_eqb a b = true -> a = b.
Proof.
  revert b. induction a as [|x a IH]; intros [|y b] H; simpl in H;
    try discriminate; [reflexivity|].
  apply andb_true_iff in H. destruct H as [Hx Hab].
  apply unit_eqb_eq in Hx. subst y. f_equal. apply IH. exact Hab.
Qed.

Lemma str_eqb_refl (a : jsstring) : str_eqb a a = true.
Proof.
  induction a as [|x a IH]; [reflexivity|]. simpl. rewrite IH.
  unfold unit_eqb. rewrite N.eqb_refl. reflexivity.
Qed.

Lemma key_eqb_eq (a b : jsval) : key_eqb a b = true -> a = b.
Proof.
  destruct a, b; simpl; intros H; try discriminate; try reflexivity.
  - apply Z.eqb_eq in H. subst. reflexivity.
  - apply Bool.eqb_prop in H. subst. reflexivity.
  - apply str_eqb_eq in H. subst. reflexivity.
Qed.

Lemma map_get_set_same (k v : jsval) (m : jsmap) :
  key_eqb k k = true -> map_get k (map_set k v m) = v.
Proof.
  intros Hk. induction m as [|[k1 v1] m IH]; simpl.
  - rewrite Hk. reflexivity.
  - destruct (key_eqb k1 k) eqn:E; simpl.
    + rewrite Hk. reflexivity.
    + rewrite E. exact IH.
Qed.

Lemma registered_set (k k' v : jsval) (m : jsmap) :
  truthy v = true -> registered k m -> registered k (map_set k' v m).
Proof.
  unfold registered. intros Hv. induction m as [|[k1 v1] m IH]; simpl.
  - discriminate.
  - intros H. destruct (key_eqb k1 k') eqn:E1; simpl.
    + destruct (key_eqb k' k) eqn:E2; [exact Hv|].
      destruct (key_eqb k1 k) eqn:E3; [|exact H].
      apply key_eqb_eq in E1. subst k1. congruence.
    + destruct (key_eqb k1 k); [exact H|apply IH; exact H].
Qed.

Lemma registered_push (k k' x : jsval) (field : string) (m : jsmap) :
  registered k m -> registered k (map_push k' field x m).
Proof.
  intros H. unfold map_push.
  destruct (map_get k' m); try exact H.
  destruct (obj_get field o); try exact H.
  apply registered_set; [reflexivity|exact H].
Qed.

Lemma update_switch_grows (details : obj) (g : GlobalContext) (k : jsval) :
  (registered k (variables g) ->
   registered k (variables (update_switch details g)))
  /\ (registered k (functions g) ->
      registered k (functions (update_switch details g)))
  /\ (registered k (macros g) ->
      registered k (macros (update_switch details g))).
Proof.
  unfold update_switch.
  destruct (obj_get "type" details); try (repeat split; intros H; exact H).
  split_ifs; cbn [variables functions macros set_functions set_variables
                    set_macros];
    repeat split; intros H; try exact H;
    try (apply registered_set; [reflexivity|exact H]);
    try (apply registered_push; exact H).
Qed.

Lemma children_grow (k : jsval) :
  forall cs g,
    Forall (fun c => forall code filePath g',
                (registered k (variables g') ->
                 registered k
                   (variables (snd (processNode c code filePath g'))))
                /\ (registered k (functions g') ->
                    registered k
                      (functions (snd (processNode c code filePath g'))))
                /\ (registered k (macros g') ->
                    registered k
                      (macros (snd (processNode c code filePath g'))))) cs ->
    let g1 := fold_left
                (fun g' child =>
                   snd (processNode child (currentFile g') VUndefined g'))
                cs g in
    (registered k (variables g) -> registered k (variables g1))
    /\ (registered k (functions g) -> registered k (functions g1))
    /\ (registered k (macros g) -> registered k (macros g1)).
Proof.
  induction cs as [|c cs IH]; intros g H; [repeat split; intros; assumption|].
  inversion H as [|? ? Hc Hrest]; subst. cbn [fold_left]. cbv zeta.
  destruct (Hc (currentFile g) VUndefined g) as [Hv [Hf Hm]].
  destruct (IH (snd (processNode c (currentFile g) VUndefined g)) Hrest)
    as [Hv' [Hf' Hm']].
  repeat split; intros Hk; auto.
Qed.

Lemma processNode_grows (k : jsval) :
  forall n code filePath g,
    (registered k (variables g) ->
     registered k (variables (snd (processNode n code filePath g))))
    /\ (registered k (functions g) ->
        registered k (functions (snd (processNode n code filePath g))))
    /\ (registered k (macros g) ->
        registered k (macros (snd (processNode n code filePath g)))).
Proof.
  induction n as [n IH] using node_children_ind. intros code filePath g.
  rewrite processNode_unfold. cbn [snd]. unfold updateGlobalContext.
  destruct (extractNodeDetails_context n code (set_currentFile filePath g))
    as [Ev [Ef [Em _]]].
  set (g1 := snd (extractNodeDetails n code (set_currentFile filePath g)))
    in *.
  set (d := fst (extractNodeDetails n code (set_currentFile filePath g))).
  destruct (update_switch_grows d g1 k) as [Hv [Hf Hm]].
  destruct (children_grow k (children n) (update_switch d g1) IH)
    as [Hv' [Hf' Hm']].
  rewrite Ev in Hv. rewrite Ef in Hf. rewrite Em in Hm.
  repeat split; intros Hk; auto.
Qed.

(** X14: the symbol tables only grow: a name that is registered as a
    variable, a function or a macro before [processNode] is still
    registered after it, whatever the subtree processed. *)
Theorem symbol_tables_only_grow (k : jsval) (n : node) (code filePath : jsval)
    (g : GlobalContext) :
  (registered k (variables g) ->
   registered k (variables (snd (processNode n code filePath g))))
  /\ (registered k (functions g) ->
      registered k (functions (snd (processNode n code filePath g))))
  /\ (registered k (macros g) ->
      registered k (macros (snd (processNode n code filePath g)))).
Proof. apply processNode_grows. Qed.

Lemma field_text_key (n : node) (name : string) :
  key_eqb (field_text n name) (field_text n name) = true.
Proof.
  unfold field_text, text_of. destruct (childForFieldName n name);
    [apply str_eqb_refl|reflexivity].
Qed.

Lemma registered_after_children (k : jsval) (n : node) (g : GlobalContext) :
  (registered k (variables g) ->
   registered k
     (variables
        (fold_left (fun g' child =>
                      snd (processNode child (currentFile g') VUndefined g'))
                   (children n) g)))
  /\ (registered k (functions g) ->
      registered k
        (functions
           (fold_left (fun g' child =>
                         snd (processNode child (currentFile g') VUndefined
                                          g'))
                      (children n) g)))
  /\ (registered k (macros g) ->
      registered k
        (macros
           (fold_left (fun g' child =>
                         snd (processNode child (currentFile g') VUndefined
                                          g'))
                      (children n) g))).
Proof.
  apply (children_grow k (children n) g).
  apply Forall_forall. intros c _ code filePath g'.
  apply processNode_grows.
Qed.

(** X15: what [processNode] registers can be looked up afterwards: a
    [function_definition] under the text of its declarator (under
    [undefined] when it has none), a [macro_definition] under the text of
    its name, a [declaration] under the text of its declarator when that
    text is not empty; the nodes below cannot undo it. *)
Theorem definitions_are_registered (n : node) (code filePath : jsval)
    (g : GlobalContext) :
  (type n = "function_definition"%string ->
   registered (field_text n "declarator")
              (functions (snd (processNode n code filePath g))))
  /\ (type n = "macro_definition"%string ->
      registered (field_text n "name")
                 (macros (snd (processNode n code filePath g))))
  /\ (type n = "declaration"%string ->
      truthy (field_text n "declarator") = true ->
      registered (field_text n "declarator")
                 (variables (snd (processNode n code filePath g)))).
Proof.
  rewrite processNode_unfold. cbn [snd]. unfold updateGlobalContext.
  split; [|split].
  - intros Ht.
    apply (registered_after_children _ n).
    unfold extractNodeDetails. rewrite Ht.
    cbn [String.eqb Ascii.eqb Bool.eqb andb fst snd].
    unfold update_switch, base_details. rewrite Ht.
    cbn [obj_set obj_get String.eqb Ascii.eqb Bool.eqb andb].
    change (str_eqb (js "function_definition") (js "function_definition"))
      with true. cbv iota.
    cbn [functions set_functions]. unfold registered.
    rewrite map_get_set_same by apply field_text_key. reflexivity.
  - intros Ht.
    apply (registered_after_children _ n).
    unfold extractNodeDetails. rewrite Ht.
    cbn [String.eqb Ascii.eqb Bool.eqb andb fst snd].
    unfold update_switch, base_details. rewrite Ht.
    cbn [obj_set obj_get String.eqb Ascii.eqb Bool.eqb andb].
    change (str_eqb (js "macro_definition") (js "function_definition"))
      with false.
    change (str_eqb (js "macro_definition") (js "declaration")) with false.
    change (str_eqb (js "macro_definition") (js "identifier")) with false.
    change (str_eqb (js "macro_definition") (js "call_expression"))
      with false.
    change (str_eqb (js "macro_definition") (js "macro_definition"))
      with true.
    cbv iota. cbn [macros set_macros]. unfold registered.
    rewrite map_get_set_same by apply field_text_key. reflexivity.
  - intros Ht Hname.
    apply (registered_after_children _ n).
    unfold extractNodeDetails. rewrite Ht.
    cbn [String.eqb Ascii.eqb Bool.eqb andb fst snd].
    assert (Hsw : forall d,
              obj_get "type" d = VStr (js "declaration") ->
              obj_get "declarationName" d = field_text n "declarator" ->
              registered (field_text n "declarator")
                (variables (update_switch d (set_currentFile filePath g)))).
    { intros d Hty Hdn. unfold update_switch. rewrite Hty.
      change (str_eqb (js "declaration") (js "function_definition"))
        with false.
      change (str_eqb (js "declaration") (js "declaration")) with true.
      cbv iota. rewrite Hdn, Hname. cbn [variables set_variables].
      unfold registered.
      rewrite map_get_set_same by apply field_text_key. reflexivity. }
    unfold base_details. rewrite Ht.
    cbn [obj_set obj_get String.eqb Ascii.eqb Bool.eqb andb].
    destruct (includes_star (field_text n "type")); cbn [fst snd];
      apply Hsw; reflexivity.
Qed.

(** ** The names of the files written *)

Lemma sanitize_app (a b : jsstring) :
  sanitize (a ++ b) = sanitize a ++ sanitize b.
Proof. apply map_app. Qed.

Lemma sanitize_unit (c : code_unit) :
  name_unit (if alnum c
             then (if (65 <=? c) && (c <=? 90) then c + 32 else c)%N
             else 95%N) = true.
Proof.
  unfold name_unit, alnum.
  destruct (N.leb_spec 48 c), (N.leb_spec c 57), (N.leb_spec 65 c),
    (N.leb_spec c 90), (N.leb_spec 97 c), (N.leb_spec c 122); simpl;
    repeat match goal with
           | |- context [(?a <=? ?b)%N] => destruct (N.leb_spec a b)
           | |- context [(?a =? ?b)%N] => destruct (N.eqb_spec a b)
           end; simpl; try reflexivity; lia.
Qed.

Lemma sanitize_name_units (s : jsstring) :
  forallb name_unit (sanitize s) = true.
Proof.
  induction s as [|c s IH]; [reflexivity|].
  cbn [sanitize map forallb]. rewrite sanitize_unit. exact IH.
Qed.

Lemma sanitize_fixes (s : jsstring) :
  forallb name_unit s = true -> sanitize s = s.
Proof.
  induction s as [|c s IH]; intros H; [reflexivity|].
  cbn [forallb] in H. apply andb_true_iff in H. destruct H as [Hc Hs].
  cbn [sanitize map]. fold (sanitize s). rewrite (IH Hs). f_equal.
  unfold name_unit in Hc. unfold alnum.
  destruct (N.leb_spec 48 c), (N.leb_spec c 57), (N.leb_spec 65 c),
    (N.leb_spec c 90), (N.leb_spec 97 c), (N.leb_spec c 122),
    (N.eqb_spec c 95); simpl in *; try reflexivity; try discriminate; lia.
Qed.

Lemma sanitize_idempotent (s : jsstring) : sanitize (sanitize s) = sanitize s.
Proof. apply sanitize_fixes, sanitize_name_units. Qed.

Lemma uint_digits (d : Decimal.uint) :
  forallb name_unit (js (DecimalString.NilEmpty.string_of_uint d)) = true.
Proof.
  induction d; simpl; try reflexivity; exact IHd.
Qed.

Lemma js_injective (a b : string) : js a = js b -> a = b.
Proof.
  unfold js. revert b. induction a as [|x a IH]; intros [|y b] H;
    simpl in H; try discriminate; [reflexivity|].
  inversion H as [[Hx Hab]].
  apply (f_equal ascii_of_N) in Hx. rewrite !ascii_N_embedding in Hx.
  subst y. f_equal. apply IH. exact Hab.
Qed.

Lemma decimal_injective (i j : nat) : decimal i = decimal j -> i = j.
Proof.
  unfold decimal. intros H. apply js_injective in H.
  apply DecimalNat.Unsigned.to_uint_inj.
  pose proof (DecimalString.NilEmpty.usu (Nat.to_uint i)) as Hi.
  pose proof (DecimalString.NilEmpty.usu (Nat.to_uint j)) as Hj.
  rewrite H in Hi. congruence.
Qed.

Lemma output_name_shape (relativeFilePath fileName : jsstring) (k : nat) :
  output_name relativeFilePath (chunkName fileName k)
  = sanitize relativeFilePath ++ js "_" ++ sanitize fileName
    ++ js "_chunk_" ++ decimal k ++ js ".txt".
Proof.
  unfold output_name, chunkName.
  rewrite !sanitize_app, sanitize_idempotent.
  rewrite (sanitize_fixes (decimal k)) by apply uint_digits.
  rewrite <- !app_assoc. reflexivity.
Qed.

Lemma output_name_injective (relativeFilePath fileName : jsstring)
    (i j : nat) :
  output_name relativeFilePath (chunkName fileName i)
  = output_name relativeFilePath (chunkName fileName j) -> i = j.
Proof.
  rewrite !output_name_shape. intros H.
  repeat apply app_inv_head in H.
  apply app_inv_tail in H. apply decimal_injective. exact H.
Qed.

(** X16: the file of the chunk of index [i] is named by the sanitized
    relative path, [_], the sanitized file name, [_chunk_], the index and
    [.txt]; sanitizing twice changes nothing; the name before [.txt] is
    made of [a-z], [0-9] and [_] only; and two chunks of one source file
    never get the same name. *)
Theorem output_name_of_chunk (relativeFilePath fileName : jsstring)
    (i j : nat) :
  output_name relativeFilePath (chunkName fileName i)
  = sanitize relativeFilePath ++ js "_" ++ sanitize fileName
    ++ js "_chunk_" ++ decimal i ++ js ".txt"
  /\ forallb name_unit
       (sanitize relativeFilePath ++ js "_" ++ sanitize fileName
        ++ js "_chunk_" ++ decimal i) = true
  /\ (output_name relativeFilePath (chunkName fileName i)
      = output_name relativeFilePath (chunkName fileName j) -> i = j).
Proof.
  split; [apply output_name_shape|]. split.
  - rewrite !forallb_app, !sanitize_name_units.
    unfold decimal. rewrite uint_digits. reflexivity.
  - apply output_name_injective.
Qed.

Lemma output_name_of_chunk_witness :
  output_name (js "src/a.c") (chunkName (js "a.c") 0)
  = output_name (js "src/a.c") (chunkName (js "a.c") 0)
  /\ 0 = 0.
Proof.
  split; [reflexivity|].
  destruct (output_name_of_chunk (js "src/a.c") (js "a.c") 0 0)
    as [_ [_ H]].
  apply H. reflexivity.
Defined.

(** ** The content of the files written *)

Lemma mapM_total {A B : Type} (f : A -> result B) (l : list A) :
  (forall a, In a l -> exists b, f a = inr b) ->
  exists bs, mapM f l = inr bs /\ length bs = length l.
Proof.
  induction l as [|a l IH]; intros H.
  - exists []. split; reflexivity.
  - destruct (H a (or_introl eq_refl)) as [b Hb].
    destruct IH as [bs [Hbs Hlen]]; [intros x Hx; apply H; right; exact Hx|].
    exists (b :: bs). cbn [mapM]. rewrite Hb. cbn [bind]. rewrite Hbs.
    split; [reflexivity|simpl; congruence].
Qed.

Lemma str_eqb_js (a b : string) : str_eqb (js a) (js b) = String.eqb a b.
Proof.
  destruct (String.eqb_spec a b) as [->|Hne].
  - apply str_eqb_refl.
  - destruct (str_eqb (js a) (js b)) eqn:E; [|reflexivity].
    apply str_eqb_eq, js_injective in E. contradiction.
Qed.

Lemma node_chunk_fields (n : node) :
  obj_get "type" (node_chunk n) = VStr (js (type n))
  /\ obj_get "content" (node_chunk n) = VStr (text n)
  /\ obj_get "startLine" (node_chunk n)
     = VNum (Z.of_nat (row (startPosition n)) + 1)
  /\ obj_get "endLine" (node_chunk n)
     = VNum (Z.of_nat (row (endPosition n)) + 1).
Proof.
  unfold node_chunk, details_of, extractNodeDetails, base_details,
    collapsed_chunk.
  split_ifs; repeat split; reflexivity.
Qed.

Lemma function_chunk_fields (n : node) :
  type n = "function_definition"%string ->
  obj_get "parameters" (node_chunk n)
  = extractParameters (childForFieldName n "parameters")
  /\ obj_get "body" (node_chunk n)
     = extractFunctionBody (childForFieldName n "body") VUndefined.
Proof.
  intros Ht.
  unfold node_chunk, details_of, extractNodeDetails, base_details,
    collapsed_chunk.
  rewrite Ht. split; reflexivity.
Qed.

Lemma entries_print (entry : node -> jsval) (f : jsval -> result jsstring)
    (l : list node) :
  (forall m, exists s, f (entry m) = inr s) ->
  exists bs, mapM f (map entry l) = inr bs.
Proof.
  intros H.
  destruct (mapM_total f (map entry l)) as [bs [Hbs _]].
  - intros a Ha. apply in_map_iff in Ha. destruct Ha as [m [<- _]].
    apply H.
  - exists bs. exact Hbs.
Qed.

Lemma bind_ok {A B : Type} (c : result A) (k : A -> result B) (a : A) :
  c = inr a -> (exists b, k a = inr b) -> exists b, bind c k = inr b.
Proof. intros -> H. exact H. Qed.

Lemma bind_inr {A B : Type} (c : result A) (k : A -> result B) (a : A) :
  c = inr a -> bind c k = k a.
Proof. intros ->. reflexivity. Qed.

Lemma parameters_array (n : node) :
  exists l,
    extractParameters (childForFieldName n "parameters") = VArr l
    /\ forall p, In p l -> exists o, p = VObj o.
Proof.
  unfold extractParameters.
  destruct (childForFieldName n "parameters") as [pn|].
  - eexists. split; [reflexivity|].
    intros p Hin. apply in_map_iff in Hin. destruct Hin as [x [<- _]].
    eexists. reflexivity.
  - exists []. split; [reflexivity|]. intros p [].
Qed.

Lemma parameters_print (n : node) (f : jsval -> result jsstring) :
  (forall o, exists s, f (VObj o) = inr s) ->
  exists ps bs,
    array_for "map" (extractParameters (childForFieldName n "parameters"))
    = inr ps
    /\ mapM f ps = inr bs.
Proof.
  intros H. destruct (parameters_array n) as [ps [-> Hobj]].
  destruct (mapM_total f ps) as [bs [Hbs _]].
  - intros p Hin. destruct (Hobj p Hin) as [o ->]. apply H.
  - exists ps, bs. split; [reflexivity|exact Hbs].
Qed.

Lemma function_section_with_body (n b : node) :
  type n = "function_definition"%string ->
  childForFieldName n "body" = Some b ->
  exists section, function_section (node_chunk n) = inr section.
Proof.
  intros Ht Hb. destruct (function_chunk_fields n Ht) as [Hp Hbody].
  unfold function_section. rewrite Hp, Hbody, Hb, extractFunctionBody_some.
  match goal with
  | |- context [mapM ?f _] =>
      destruct (parameters_print n f) as [ps [bs [Hps Hbs]]];
        [intros o; eexists; reflexivity|]
  end.
  eapply bind_ok; [exact Hps|].
  eapply bind_ok; [exact Hbs|].
  eapply bind_ok; [reflexivity|].
  eapply bind_ok; [reflexivity|].
  match goal with
  | |- context [mapM ?f (map variable_entry ?l)] =>
      destruct (entries_print variable_entry f l) as [variables Hvs];
        [intros m; eexists; reflexivity|]
  end.
  eapply bind_ok; [exact Hvs|].
  eapply bind_ok; [reflexivity|].
  eapply bind_ok; [reflexivity|].
  match goal with
  | |- context [mapM ?f (map control_entry ?l)] =>
      destruct (entries_print control_entry f l) as [controls Hcs];
        [intros m; eexists; reflexivity|]
  end.
  eapply bind_ok; [exact Hcs|].
  eapply bind_ok; [reflexivity|].
  eapply bind_ok; [reflexivity|].
  match goal with
  | |- context [mapM ?f (map call_entry ?l)] =>
      destruct (entries_print call_entry f l) as [calls Hfs]
  end.
  { intros m. unfold call_entry, extractArguments.
    destruct (childForFieldName m "arguments"); eexists; reflexivity. }
  eapply bind_ok; [exact Hfs|].
  eexists. reflexivity.
Qed.

Lemma function_section_without_body (n : node) :
  type n = "function_definition"%string ->
  childForFieldName n "body" = None ->
  function_section (node_chunk n)
  = inl (TypeError "Cannot read properties of undefined (reading 'map')").
Proof.
  intros Ht Hb. destruct (function_chunk_fields n Ht) as [Hp Hbody].
  unfold function_section. rewrite Hp, Hbody, Hb.
  match goal with
  | |- context [mapM ?f _] =>
      destruct (parameters_print n f) as [ps [bs [Hps Hbs]]];
        [intros o; eexists; reflexivity|]
  end.
  rewrite (bind_inr _ _ _ Hps). cbv beta.
  rewrite (bind_inr _ _ _ Hbs). reflexivity.
Qed.

Lemma other_section_total (n : node) :
  String.eqb (type n) "function_definition" = false ->
  exists section, other_section (node_chunk n) = inr section.
Proof.
  intros Ht.
  unfold other_section, node_chunk, details_of, extractNodeDetails,
    base_details, collapsed_chunk.
  rewrite Ht. unfold extractArguments.
  repeat match goal with
         | |- context [String.eqb (type n) ?s] =>
             destruct (String.eqb (type n) s)
         end;
    try destruct (includes_star _);
    destruct (childForFieldName n "arguments");
    cbn [fst spread fold_left obj_set obj_get snd String.eqb Ascii.eqb
         Bool.eqb andb truthy array_for bind];
    eexists; reflexivity.
Qed.

Lemma content_of_node_chunk (n : node) (filePath fileName : jsstring) :
  (bodiless_function n ->
   writeChunkToFile_content (node_chunk n) filePath fileName
   = inl (TypeError "Cannot read properties of undefined (reading 'map')"))
  /\ (~ bodiless_function n ->
      exists section,
        writeChunkToFile_content (node_chunk n) filePath fileName
        = inr (file_content n filePath fileName section)).
Proof.
  destruct (node_chunk_fields n) as [Hty [Hco [Hsl Hel]]].
  unfold writeChunkToFile_content, bodiless_function.
  rewrite Hty. cbn [key_eqb]. rewrite str_eqb_js.
  destruct (String.eqb_spec (type n) "function_definition") as [Ht|Ht].
  - destruct (childForFieldName n "body") as [b|] eqn:Hb.
    + split; [intros [_ H]; discriminate|]. intros _.
      destruct (function_section_with_body n b Ht Hb) as [section Hs].
      exists section. rewrite Hs. cbn [bind].
      unfold content_header, content_footer, file_content.
      rewrite Hty, Hco, Hsl, Hel. cbn [to_js_string].
      rewrite <- !app_assoc. reflexivity.
    + split; [|intros H; exfalso; apply H; split; [exact Ht|reflexivity]].
      intros _. rewrite (function_section_without_body n Ht Hb). reflexivity.
  - split; [intros [H _]; contradiction|]. intros _.
    destruct (other_section_total n) as [section Hs].
    { destruct (String.eqb_spec (type n) "function_definition");
        [contradiction|reflexivity]. }
    exists section. rewrite Hs. cbn [bind].
    unfold content_header, content_footer, file_content.
    rewrite Hty, Hco, Hsl, Hel. cbn [to_js_string].
    rewrite <- !app_assoc. reflexivity.
Qed.

(** X17: for the chunk of a node, [writeChunkToFile] throws (reading
    [map] of [undefined]) exactly when the node is a
    [function_definition] without a child for the field [body], for which
    [extractFunctionBody] answers the empty string; for every other node
    the content is written: the five header lines, the lines of the
    type, and the [Content:] section with the whole text of the node. *)
Theorem chunk_file_content (n : node) (filePath fileName : jsstring) :
  (bodiless_function n ->
   writeChunkToFile_content (node_chunk n) filePath fileName
   = inl (TypeError "Cannot read properties of undefined (reading 'map')"))
  /\ (~ bodiless_function n ->
      exists section,
        writeChunkToFile_content (node_chunk n) filePath fileName
        = inr (file_content n filePath fileName section)).
Proof. apply content_of_node_chunk. Qed.

Lemma chunk_file_content_witness :
  bodiless_function empty_function
  /\ writeChunkToFile_content (node_chunk empty_function) (js "a.c")
       (js "a.c")
     = inl (TypeError "Cannot read properties of undefined (reading 'map')").
Proof.
  assert (H : bodiless_function empty_function) by (split; reflexivity).
  split; [exact H|].
  apply (chunk_file_content empty_function (js "a.c") (js "a.c")). exact H.
Defined.

(** ** The files of a source file *)

Section Files.

Variables relativeFilePath fileName filePath : jsstring.

Lemma write_chunks_files :
  forall ms i,
    let w := write_chunks relativeFilePath fileName filePath i
                          (map node_chunk ms) in
    map fst (fst w)
    = map (fun k => output_name relativeFilePath (chunkName fileName k))
          (seq i (length (fst w)))
    /\ length (fst w) <= length ms
    /\ Forall (fun f =>
                 exists m section,
                   In m ms
                   /\ snd f = file_content m filePath fileName section)
              (fst w)
    /\ (Forall (fun m => ~ bodiless_function m) ms ->
        length (fst w) = length ms /\ snd w = None).
Proof.
  induction ms as [|m ms IH]; intros i; cbv zeta.
  - simpl. repeat split; try constructor.
  - cbn [map write_chunks]. unfold writeChunkToFile.
    destruct (content_of_node_chunk m filePath fileName) as [Hbad Hgood].
    destruct (writeChunkToFile_content (node_chunk m) filePath fileName)
      as [e|content] eqn:Ec; cbn [bind].
    + cbn [fst snd length map seq]. split; [reflexivity|].
      split; [lia|]. split; [constructor|].
      intros Hall. inversion Hall as [|? ? Hm _]; subst.
      destruct (Hgood Hm) as [section Hs]. discriminate Hs.
    + specialize (IH (S i)). cbv zeta in IH.
      destruct (write_chunks relativeFilePath fileName filePath (S i)
                             (map node_chunk ms)) as [files e].
      cbn [fst snd] in *. destruct IH as [Hn [Hl [Hc Hall]]].
      cbn [map fst length seq]. split; [rewrite Hn; reflexivity|].
      split; [lia|]. split.
      * constructor.
        -- assert (Hm : ~ bodiless_function m).
           { intros H. specialize (Hbad H). discriminate Hbad. }
           destruct (Hgood Hm) as [section Hs]. exists m, section.
           split; [left; reflexivity|]. cbn [snd]. congruence.
        -- eapply Forall_impl; [|exact Hc].
           intros f [m' [section [Hin Hf]]]. exists m', section.
           split; [right; exact Hin|exact Hf].
      * intros Hms. inversion Hms as [|? ? _ Hrest]; subst.
        destruct (Hall Hrest) as [Hlen He]. split; [lia|exact He].
Qed.

Lemma names_distinct (i n : nat) :
  NoDup (map (fun k => output_name relativeFilePath (chunkName fileName k))
             (seq i n)).
Proof.
  revert i. induction n as [|n IH]; intros i; [constructor|].
  cbn [seq map]. constructor; [|apply IH].
  intros Hin. apply in_map_iff in Hin. destruct Hin as [k [Hk Hseq]].
  apply output_name_injective in Hk. apply in_seq in Hseq. lia.
Qed.

End Files.

(** X18: the files [processFile] writes for a source file have names
    that are all different; there are at most as many as nodes in the
    tree; each holds the header and the whole text of a node of the
    tree; and when no node of the tree is a [function_definition] without
    a [body] field, every chunk the generator yields is written and the
    run ends as the generator ends. *)
Theorem processFile_files (rootNode : node) (code : jsstring)
    (relativeFilePath fileName filePath : jsstring) (g : GlobalContext) :
  let written :=
    processFile rootNode code relativeFilePath fileName filePath g in
  let r := getSmartCollapsedChunks rootNode [] code 1000 true g in
  NoDup (map fst (fst written))
  /\ length (fst written) <= length (preorder rootNode)
  /\ Forall (fun f =>
               exists m section,
                 In m (preorder rootNode)
                 /\ snd f = file_content m filePath fileName section)
            (fst written)
  /\ ((forall m, In m (preorder rootNode) -> ~ bodiless_function m) ->
      length (fst written) = length (yielded r)
      /\ snd written = status r).
Proof.
  cbv zeta. unfold processFile.
  destruct (chunks_of_nodes code 1000 rootNode [] true g)
    as [ms [Hy [Hs _]]].
  rewrite Hy.
  pose proof (write_chunks_files relativeFilePath fileName filePath ms 0)
    as H.
  cbv zeta in H.
  destruct (write_chunks relativeFilePath fileName filePath 0
                         (map node_chunk ms)) as [files e].
  cbn [fst snd] in H. destruct H as [Hn [Hl [Hc Hall]]].
  assert (Hfiles : fst (match e with
                        | Some e0 => (files, Threw e0)
                        | None =>
                            (files,
                             status (getSmartCollapsedChunks rootNode []
                                       code 1000 true g))
                        end) = files) by (destruct e; reflexivity).
  rewrite Hfiles. split; [rewrite Hn; apply names_distinct|].
  split.
  { pose proof (subseq_length ms _ Hs). lia. }
  split.
  { eapply Forall_impl; [|exact Hc].
    intros f [m [section [Hin Hf]]]. exists m, section.
    split; [apply (subseq_incl ms _ Hs); exact Hin|exact Hf]. }
  intros Hno. destruct Hall as [Hlen He].
  { apply Forall_forall. intros m Hm. apply Hno.
    apply (subseq_incl ms _ Hs). exact Hm. }
  subst e. rewrite length_map. split; [exact Hlen|reflexivity].
Qed.

Lemma processFile_files_witness :
  (forall m, In m (preorder c_function) -> ~ bodiless_function m)
  /\ length (fst (processFile c_function c_code (js "a.c") (js "a.c")
                    (js "a.c") globalContext))
     = length (yielded (getSmartCollapsedChunks c_function [] c_code 1000
                          true globalContext)).
Proof.
  assert (H : forall m, In m (preorder c_function) -> ~ bodiless_function m).
  { intros m Hm [Ht Hb]. simpl in Hm.
    repeat (destruct Hm as [<-|Hm]; [discriminate|]). destruct Hm. }
  split; [exact H|].
  destruct (processFile_files c_function c_code (js "a.c") (js "a.c")
              (js "a.c") globalContext) as [_ [_ [_ Hall]]].
  apply Hall. exact H.
Defined.

(** ** The collapsed text *)

Section CollapsedText.

Variable collapseBlockTypes : grammar_name.
Variable code0 : jsstring.

Lemma collapsedReplacement_length (n : node) :
  3 <= length (collapsedReplacement n) <= 7.
Proof.
  unfold collapsedReplacement. destruct (_ || _); simpl; lia.
Qed.

(** The working text is as long as the text the phase started from and
    all the units together. *)
Lemma working_text_length :
  forall members,
    length (working_text code0 collapseBlockTypes members)
    = length code0
      + list_sum (map (@length code_unit)
                      (units_of code0 collapseBlockTypes members)).
Proof.
  induction members as [|m rest IH]; cbn [working_text units_of].
  - simpl. lia.
  - destruct (firstChild m collapseBlockTypes) as [gc|]; [|exact IH].
    cbn [map list_sum fold_right]. fold (list_sum (map (@length code_unit)
      (units_of code0 collapseBlockTypes rest))).
    rewrite !length_app, IH. lia.
Qed.

(** It doubles with every member that has a body block. *)
Lemma working_text_doubles :
  forall members,
    2 ^ length (with_body collapseBlockTypes members) * (length code0 + 3)
    <= length (working_text code0 collapseBlockTypes members) + 3
    /\ length (working_text code0 collapseBlockTypes members) + 7
       <= 2 ^ length (with_body collapseBlockTypes members)
          * (length code0 + 7).
Proof.
  unfold with_body.
  induction members as [|m rest IH]; cbn [working_text filter].
  - simpl. lia.
  - destruct (firstChild m collapseBlockTypes) as [gc|]; [|exact IH].
    cbn [length]. rewrite Nat.pow_succ_r'.
    pose proof (collapsedReplacement_length gc) as Hr.
    rewrite !length_app. destruct IH as [IHl IHu].
    split; nia.
Qed.

(** Every unit opens the working text. *)
Lemma units_open_working_text :
  forall members,
    Forall (fun u =>
              exists rest,
                working_text code0 collapseBlockTypes members = u ++ rest)
           (units_of code0 collapseBlockTypes members).
Proof.
  induction members as [|m rest IH]; cbn [working_text units_of];
    [constructor|].
  destruct (firstChild m collapseBlockTypes) as [gc|]; [|exact IH].
  constructor.
  - eexists. rewrite <- app_assoc. reflexivity.
  - eapply Forall_impl; [|exact IH].
    intros u [r E]. rewrite E. eexists. rewrite <- app_assoc. reflexivity.
Qed.

End CollapsedText.

(** X19: no position has an [index], so the collapsing phase of a
    container with a body block replaces nothing: every member that has a
    body block turns the working text [t] into [t], its placeholder and
    [t] again, from the last member to the first, and records [t] and the
    placeholder as its unit.  So every unit opens the working text, and
    the working text doubles with each such member: with [k] of them it
    holds the source up to the end of the container [2 ^ k] times. *)
Theorem collapsed_text_of_container (n block : node) (code : jsstring)
    (blockTypes : grammar_name) (collapseTypes : list string)
    (collapseBlockTypes : grammar_name) :
  let code0 := slice code 0 (endIndex n) in
  let members :=
    filter (fun child => includes collapseTypes (type child))
           (children block) in
  let k := length (with_body collapseBlockTypes members) in
  let phase :=
    collapse_phase n code blockTypes collapseTypes collapseBlockTypes in
  firstChild n blockTypes = Some block ->
  fst phase = working_text code0 collapseBlockTypes members
  /\ snd phase = units_of code0 collapseBlockTypes members
  /\ length (snd phase) = k
  /\ Forall (fun u => exists rest, fst phase = u ++ rest) (snd phase)
  /\ 2 ^ k * (length code0 + 3) <= length (fst phase) + 3
  /\ length (fst phase) + 7 <= 2 ^ k * (length code0 + 7).
Proof.
  cbv zeta. intros Hb.
  rewrite (collapse_phase_text n block code blockTypes collapseTypes
             collapseBlockTypes Hb).
  cbn [fst snd]. split; [reflexivity|]. split; [reflexivity|].
  split; [apply units_of_length|].
  split; [apply units_open_working_text|].
  apply working_text_doubles.
Qed.

Lemma collapsed_text_of_container_witness :
  fst (class_phase impl_item impl_code)
  = impl_code ++ js "..." ++ impl_code ++ js "..." ++ impl_code ++ js "..."
    ++ impl_code
  /\ 2 ^ 2 * (44 + 3) <= length (fst (class_phase impl_item impl_code)) + 3.
Proof.
  destruct (collapsed_text_of_container impl_item impl_list impl_code
              (Tags CLASS_BLOCK_NODE_TYPES) FUNCTION_DECLARATION_NODE_TYPES
              (Tags FUNCTION_BLOCK_NODE_TYPES) eq_refl)
    as [Ht [_ [_ [_ [Hl _]]]]].
  split; [|exact Hl].
  etransitivity; [exact Ht|]. vm_compute. reflexivity.
Defined.

(** ** What the eviction loop leaves *)

(** A turn shortens the text by the length of the unit at most. *)
Lemma evict_text_at_most (code u : jsstring) :
  length code <= length (evict_text code u) + length u.
Proof.
  destruct (evict_text_turn code u) as [[i [Hi [Hl E]]]|[_ E]];
    rewrite E; [|lia].
  destruct Hl as [[pre [post [-> <-]]] _].
  rewrite !length_app, length_firstn, length_skipn, !length_app. lia.
Qed.

Lemma evictions_at_most :
  forall popped code,
    length code
    <= length (fold_left evict_text popped code)
       + list_sum (map (@length code_unit) popped).
Proof.
  induction popped as [|u popped IH]; intros code; simpl; [lia|].
  pose proof (IH (evict_text code u)).
  pose proof (evict_text_at_most code u). lia.
Qed.

Lemma list_sum_firstn (k : nat) (l : list nat) :
  list_sum (firstn k l) <= list_sum l.
Proof.
  revert k. induction l as [|x l IH]; intros [|k]; simpl; try lia.
  specialize (IH k). lia.
Qed.

Lemma list_sum_rev (l : list nat) : list_sum (rev l) = list_sum l.
Proof.
  induction l as [|x l IH]; [reflexivity|].
  simpl. rewrite list_sum_app, IH. simpl. lia.
Qed.

(** The loop on the working text of a phase ends with a text at least as
    long as the text the phase started from. *)
Lemma evict_loop_keeps_source (estimate : jsstring -> Z) (maxChunkSize : Z)
    (collapseBlockTypes : grammar_name) (code0 : jsstring)
    (members : list node) :
  exists st,
    evict_loop estimate
      (S (length (units_of code0 collapseBlockTypes members))) maxChunkSize
      (mkEvict (working_text code0 collapseBlockTypes members)
               (units_of code0 collapseBlockTypes members) false)
    = Some st
    /\ length code0 <= length (ev_code st).
Proof.
  set (units := units_of code0 collapseBlockTypes members).
  set (text := working_text code0 collapseBlockTypes members).
  destruct (evict_loop_order estimate maxChunkSize text units
              (S (length units)) (Nat.lt_succ_diag_r _))
    as [k [Hk [Hrun _]]].
  eexists. split; [exact Hrun|]. cbn [ev_code].
  pose proof (evictions_at_most (firstn k (rev units)) text) as Hcut.
  pose proof (working_text_length collapseBlockTypes code0 members) as Hlen.
  fold units text in Hlen.
  pose proof (list_sum_firstn k (map (@length code_unit) (rev units)))
    as Hsum.
  rewrite <- firstn_map in Hcut.
  rewrite map_rev in Hcut, Hsum. rewrite list_sum_rev in Hsum.
  clearbody text units.
  apply (Nat.add_le_mono_r _ _
           (list_sum (map (@length code_unit) units))).
  rewrite <- Hlen. etransitivity; [exact Hcut|].
  apply Nat.add_le_mono_l. exact Hsum.
Qed.

(** X20: the collapsing phase and the eviction loop together never give
    a text shorter than the source up to the end of the node, whatever
    the estimator and the budget: the working text of the phase is as
    long as that source and all the units together, and a turn of the
    loop takes the length of its unit away at most. *)
Theorem eviction_keeps_the_source (estimate : jsstring -> Z) (n : node)
    (code : jsstring) (blockTypes : grammar_name)
    (collapseTypes : list string) (collapseBlockTypes : grammar_name)
    (maxChunkSize : Z) :
  let code0 := slice code 0 (endIndex n) in
  let phase :=
    collapse_phase n code blockTypes collapseTypes collapseBlockTypes in
  length (fst phase)
  = length code0 + list_sum (map (@length code_unit) (snd phase))
  /\ (forall text u, length text <= length (evict_text text u) + length u)
  /\ exists st,
       evict_loop estimate (S (length (snd phase))) maxChunkSize
                  (mkEvict (fst phase) (snd phase) false) = Some st
       /\ length code0 <= length (ev_code st).
Proof.
  cbv zeta.
  destruct (firstChild n blockTypes) as [block|] eqn:Hb.
  - rewrite (collapse_phase_text n block code blockTypes collapseTypes
               collapseBlockTypes Hb).
    cbn [fst snd]. split; [apply working_text_length|].
    split; [apply evict_text_at_most|].
    apply evict_loop_keeps_source.
  - rewrite (collapse_phase_without_block n code blockTypes collapseTypes
               collapseBlockTypes Hb).
    cbn [fst snd map list_sum fold_right length].
    split; [lia|]. split; [apply evict_text_at_most|].
    eexists. cbn [evict_loop]. unfold evict_guard.
    cbn [ev_units length Nat.ltb Nat.leb]. rewrite andb_false_r.
    split; [reflexivity|]. cbn [ev_code]. lia.
Qed.

(** X21: a container in which no child of the wanted block type is found
    is rendered as the source from its first code unit to the end index
    of the node, whatever the estimator and the budget are: nothing is
    collapsed, nothing evicted, no normalization runs, and the text in
    front of the node is not cut off. *)
Theorem container_without_block (estimate : jsstring -> Z) (n : node)
    (code : jsstring) (blockTypes : grammar_name)
    (collapseTypes : list string) (collapseBlockTypes : grammar_name)
    (maxChunkSize : Z) :
  firstChild n blockTypes = None ->
  collapseChildren estimate n code blockTypes collapseTypes
    collapseBlockTypes maxChunkSize
  = Some (slice code 0 (endIndex n)).
Proof.
  intros Hb. rewrite collapseChildren_unfold.
  rewrite (collapse_phase_without_block n code blockTypes collapseTypes
             collapseBlockTypes Hb).
  cbn [fst snd length evict_loop].
  unfold evict_guard. cbn [ev_units length Nat.ltb Nat.leb].
  rewrite andb_false_r. reflexivity.
Qed.

Lemma container_without_block_witness :
  firstChild forward_class (Tags CLASS_BLOCK_NODE_TYPES) = None
  /\ text forward_class = js "class A;"
  /\ constructClassDefinitionChunk countTokens forward_class forward_code 0
     = Some (js "import b; class A;").
Proof.
  split; [reflexivity|]. split; [reflexivity|].
  apply (container_without_block countTokens forward_class forward_code
           (Tags CLASS_BLOCK_NODE_TYPES) FUNCTION_DECLARATION_NODE_TYPES
           (Tags FUNCTION_BLOCK_NODE_TYPES) 0).
  reflexivity.
Defined.

(** ** The eviction loop on the collapsed path of the generator *)

Lemma last_ws_app (a b : jsstring) :
  forall p, last_ws p (a ++ b) = last_ws (last_ws p a) b.
Proof.
  induction a as [|c a IH]; intros p; simpl; [reflexivity|apply IH].
Qed.

(** A text that ends in a word ends in a word whatever came before. *)
Lemma last_ws_word (s : jsstring) :
  last_ws true s = false -> forall p, last_ws p s = false.
Proof.
  destruct s as [|c s]; simpl; [discriminate|]. intros H p. exact H.
Qed.

Lemma words_app_ge (a b : jsstring) :
  nonws_runs a + nonws_runs b <= S (nonws_runs (a ++ b)).
Proof.
  unfold nonws_runs. rewrite nonws_runs_go_app.
  destruct (nonws_runs_go_flag b) as [_ H].
  destruct (negb (last_ws (negb false) a)); lia.
Qed.

(** Taking out a piece that ends in a word takes its words away at
    most. *)
Lemma words_cut_word (p u q : jsstring) :
  last_ws true u = false ->
  nonws_runs (p ++ u ++ q) <= nonws_runs (p ++ q) + nonws_runs u.
Proof.
  intros Hu. unfold nonws_runs.
  rewrite (nonws_runs_go_app p (u ++ q)), (nonws_runs_go_app p q).
  rewrite (nonws_runs_go_app u q).
  rewrite (last_ws_word u Hu). cbn [negb].
  destruct (nonws_runs_go_flag u) as [Hu1 _].
  destruct (nonws_runs_go_flag q) as [Hq1 _].
  destruct (negb (last_ws true p)); lia.
Qed.

Lemma evict_text_words (code u : jsstring) :
  last_ws true u = false ->
  nonws_runs code <= nonws_runs (evict_text code u) + nonws_runs u.
Proof.
  intros Hu.
  destruct (evict_text_turn code u) as [[i [Hi [Hl E]]]|[_ E]];
    rewrite E; [|lia].
  destruct Hl as [[pre [post [-> <-]]] _].
  rewrite firstn_app, firstn_all, Nat.sub_diag, firstn_0, app_nil_r.
  rewrite skipn_app, skipn_all2 by lia.
  replace (length pre + length u - length pre) with (length u) by lia.
  rewrite skipn_app, skipn_all, Nat.sub_diag. cbn [skipn app].
  apply words_cut_word. exact Hu.
Qed.

Lemma evictions_words :
  forall popped code,
    Forall (fun u => last_ws true u = false) popped ->
    nonws_runs code
    <= nonws_runs (fold_left evict_text popped code)
       + list_sum (map nonws_runs popped).
Proof.
  induction popped as [|u popped IH]; intros code H; simpl; [lia|].
  inversion H as [|? ? Hu Hrest]; subst.
  pose proof (IH (evict_text code u) Hrest).
  pose proof (evict_text_words code u Hu). lia.
Qed.

(** A placeholder is made of words and ends in one. *)
Lemma collapsedReplacement_word (n : node) :
  1 <= nonws_runs (collapsedReplacement n)
  /\ forall p, last_ws p (collapsedReplacement n) = false.
Proof.
  unfold collapsedReplacement.
  destruct (_ || _); (split; [vm_compute; lia|intros p; reflexivity]).
Qed.

Section Outweighs.

Variable collapseBlockTypes : grammar_name.
Variable code0 : jsstring.
Hypothesis two_words : 2 <= nonws_runs code0.

Lemma units_of_word :
  forall members,
    Forall (fun u => last_ws true u = false)
           (units_of code0 collapseBlockTypes members).
Proof.
  induction members as [|m rest IH]; cbn [units_of]; [constructor|].
  destruct (firstChild m collapseBlockTypes) as [gc|]; [|exact IH].
  constructor; [|exact IH].
  rewrite last_ws_app. apply collapsedReplacement_word.
Qed.

(** The words of the working text against those of the units: with [k]
    members that have a body block, the text has more than [2 ^ k]
    words, and at most [k] words less than the source and the units
    together. *)
Lemma working_text_words :
  forall members,
    2 ^ length (with_body collapseBlockTypes members) + 1
    <= nonws_runs (working_text code0 collapseBlockTypes members)
    /\ list_sum (map nonws_runs (units_of code0 collapseBlockTypes members))
       + nonws_runs code0
       <= nonws_runs (working_text code0 collapseBlockTypes members)
          + length (with_body collapseBlockTypes members).
Proof.
  unfold with_body.
  induction members as [|m rest IH]; cbn [working_text units_of filter].
  - simpl. lia.
  - destruct (firstChild m collapseBlockTypes) as [gc|]; [|exact IH].
    destruct IH as [IH2 IH1]. cbn [length map list_sum fold_right].
    fold (list_sum (map nonws_runs
                        (units_of code0 collapseBlockTypes rest))).
    set (t := working_text code0 collapseBlockTypes rest) in *.
    set (r := collapsedReplacement gc).
    destruct (collapsedReplacement_word gc) as [Hr _]. fold r in Hr.
    rewrite (app_assoc t r t).
    pose proof (words_app_ge (t ++ r) t).
    pose proof (words_app_ge t r).
    rewrite Nat.pow_succ_r'.
    split; lia.
Qed.

(** The working text has more words than the source and all the units
    but the first together. *)
Lemma working_text_outweighs :
  forall members head tail,
    units_of code0 collapseBlockTypes members = head :: tail ->
    nonws_runs code0 + 1 + list_sum (map nonws_runs tail)
    <= nonws_runs (working_text code0 collapseBlockTypes members).
Proof.
  induction members as [|m rest IH]; intros head tail;
    cbn [working_text units_of]; [discriminate|].
  destruct (firstChild m collapseBlockTypes) as [gc|]; [|apply IH].
  intros E. inversion E; subst.
  destruct (working_text_words rest) as [H2 H1].
  pose proof (Nat.pow_gt_lin_r 2
                (length (with_body collapseBlockTypes rest))
                (Nat.lt_succ_diag_r 1)) as Hp.
  set (t := working_text code0 collapseBlockTypes rest) in *.
  set (r := collapsedReplacement gc).
  destruct (collapsedReplacement_word gc) as [Hr _]. fold r in Hr.
  rewrite (app_assoc t r t).
  pose proof (words_app_ge (t ++ r) t).
  pose proof (words_app_ge t r).
  lia.
Qed.

(** So, under a budget that is at most the number of words of the
    source, the loop is over the budget as long as a unit is left. *)
Lemma evictions_stay_over (maxChunkSize : Z) (members : list node) (j : nat) :
  (maxChunkSize <= Z.of_nat (nonws_runs code0))%Z ->
  j < length (units_of code0 collapseBlockTypes members) ->
  (maxChunkSize
   < countTokens
       (trim (fold_left evict_text
                (firstn j (rev (units_of code0 collapseBlockTypes members)))
                (working_text code0 collapseBlockTypes members))))%Z.
Proof.
  intros Hmax Hj.
  pose proof (units_of_word members) as Hword.
  destruct (units_of code0 collapseBlockTypes members) as [|head tail] eqn:E;
    [simpl in Hj; lia|].
  pose proof (working_text_outweighs members head tail E) as Hout.
  cbn [rev]. cbn [length] in Hj.
  rewrite firstn_app, length_rev.
  replace (j - length tail) with 0 by lia. rewrite firstn_0, app_nil_r.
  pose proof (evictions_words (firstn j (rev tail))
                (working_text code0 collapseBlockTypes members)) as Hw.
  pose proof (list_sum_firstn j (map nonws_runs (rev tail))) as Hs.
  rewrite <- firstn_map in Hw.
  rewrite map_rev in Hw, Hs. rewrite list_sum_rev in Hs.
  rewrite countTokens_trim.
  assert (Hpopped : Forall (fun u => last_ws true u = false)
                           (firstn j (rev tail))).
  { apply Forall_forall. intros u Hu. apply in_firstn in Hu.
    apply in_rev in Hu. inversion Hword as [|? ? _ Htail]; subst.
    rewrite Forall_forall in Htail. apply Htail. exact Hu. }
  specialize (Hw Hpopped). lia.
Qed.

End Outweighs.

(** The loop of a container under such a budget pops every unit. *)
Lemma evict_loop_runs_out (maxChunkSize : Z)
    (collapseBlockTypes : grammar_name) (code0 : jsstring)
    (members : list node) :
  2 <= nonws_runs code0 ->
  (maxChunkSize <= Z.of_nat (nonws_runs code0))%Z ->
  exists final,
    evict_loop countTokens
      (S (length (units_of code0 collapseBlockTypes members))) maxChunkSize
      (mkEvict (working_text code0 collapseBlockTypes members)
               (units_of code0 collapseBlockTypes members) false)
    = Some (mkEvict final []
              (0 <? length (units_of code0 collapseBlockTypes members))).
Proof.
  intros H2 Hmax.
  set (units := units_of code0 collapseBlockTypes members).
  set (text := working_text code0 collapseBlockTypes members).
  destruct (evict_loop_order countTokens maxChunkSize text units
              (S (length units)) (Nat.lt_succ_diag_r _))
    as [k [Hk [Hrun [_ Hstop]]]].
  assert (Ek : k = length units).
  { destruct Hstop as [Hs|Hs]; [|exact Hs].
    destruct (Nat.eq_dec k (length units)) as [E|Hne]; [exact E|].
    pose proof (evictions_stay_over collapseBlockTypes code0 H2
                  maxChunkSize members k Hmax) as Hover.
    fold units text in Hover.
    assert (Hlt : k < length units) by lia.
    specialize (Hover Hlt). lia. }
  rewrite Hrun, Ek, Nat.sub_diag. cbn [firstn].
  eexists. reflexivity.
Qed.

(** The number of tokens of a text without white space at its ends. *)
Lemma countTokens_bare (text : jsstring) :
  starts_ws text = false -> ends_ws text = false ->
  1 <= nonws_runs text ->
  countTokens text = Z.of_nat (nonws_runs text).
Proof.
  intros Hs He Hw. rewrite countTokens_words.
  destruct text as [|c t]; [cbv in Hw; lia|].
  rewrite Hs, He. cbn [b2n]. f_equal. lia.
Qed.

(** X22: on the collapsed path of the generator the budget never stops
    the loop of a container.  The generator renders a node only when the
    token count of its text is at least the budget; when that text has no
    white space at its ends and two words or more, and ends the source up
    to the end of the node, every turn leaves the working text over the
    budget, so the loop pops every unit, and the rendering is the text
    the last turn leaves, normalized when there was a unit. *)
Theorem eviction_runs_out (n : node) (code pre : jsstring)
    (blockTypes : grammar_name) (collapseTypes : list string)
    (collapseBlockTypes : grammar_name) (maxChunkSize : Z) (root : bool) :
  let phase :=
    collapse_phase n code blockTypes collapseTypes collapseBlockTypes in
  slice code 0 (endIndex n) = pre ++ text n ->
  starts_ws (text n) = false ->
  ends_ws (text n) = false ->
  2 <= nonws_runs (text n) ->
  collapsible n = true ->
  maybeYieldChunk n code maxChunkSize root = None ->
  exists final,
    evict_loop countTokens (S (length (snd phase))) maxChunkSize
               (mkEvict (fst phase) (snd phase) false)
    = Some (mkEvict final [] (0 <? length (snd phase)))
    /\ collapseChildren countTokens n code blockTypes collapseTypes
         collapseBlockTypes maxChunkSize
       = Some (if 0 <? length (snd phase) then normalize final else final).
Proof.
  intros phase Hcode Hs He Hw Hc Hy.
  pose proof (maybeYieldChunk_none n code maxChunkSize root Hy Hc) as Hover.
  rewrite (countTokens_bare (text n) Hs He) in Hover by lia.
  pose proof (nonws_runs_insert [] pre (text n)) as Hpart.
  cbn [app] in Hpart. rewrite <- Hcode in Hpart.
  destruct (collapseChildren_stops countTokens n code blockTypes
              collapseTypes collapseBlockTypes maxChunkSize)
    as [st [Hrun [Hres _]]].
  fold phase in Hrun.
  assert (Hout : exists final,
             evict_loop countTokens (S (length (snd phase))) maxChunkSize
                        (mkEvict (fst phase) (snd phase) false)
             = Some (mkEvict final [] (0 <? length (snd phase)))).
  { subst phase.
    destruct (firstChild n blockTypes) as [block|] eqn:Hb.
    - rewrite (collapse_phase_text n block code blockTypes collapseTypes
                 collapseBlockTypes Hb).
      cbn [fst snd].
      apply evict_loop_runs_out; lia.
    - rewrite (collapse_phase_without_block n code blockTypes collapseTypes
                 collapseBlockTypes Hb).
      cbn [fst snd length evict_loop]. unfold evict_guard.
      cbn [ev_units length Nat.ltb Nat.leb]. rewrite andb_false_r.
      eexists. reflexivity. }
  destruct Hout as [final Hfinal]. exists final.
  split; [exact Hfinal|].
  rewrite Hfinal in Hrun. injection Hrun as <-.
  exact Hres.
Qed.

Lemma eviction_runs_out_witness :
  exists final,
    evict_loop countTokens 3 10 (mkEvict impl_collapsed impl_units false)
    = Some (mkEvict final [] true)
    /\ constructClassDefinitionChunk countTokens impl_item impl_code 10
       = Some (normalize final).
Proof.
  apply (eviction_runs_out impl_item impl_code []
           (Tags CLASS_BLOCK_NODE_TYPES) FUNCTION_DECLARATION_NODE_TYPES
           (Tags FUNCTION_BLOCK_NODE_TYPES) 10%Z true);
    try reflexivity.
  vm_compute. lia.
Defined.

(** ** The slices of a function-like node *)

(** X23: no position of a node has an [index], so every bound the
    rendering of a function-like node slices the source by is
    [undefined], and every slice is the whole source.  On its own the
    rendering is the source followed by the placeholder of the last
    child; under a parent tagged [block] or [declaration_list] and a
    grandparent tagged [class_definition] or [impl_item] it is the
    source, an ellipsis line, the indentation of the node, and the source
    followed by the placeholder. *)
Theorem function_rendering_is_source (n bodyNode : node)
    (ancestors : list node) (code : jsstring) (maxChunkSize : Z) :
  lastChild n = Some bodyNode ->
  (forall classBlock classNode above,
      ancestors = classBlock :: classNode :: above ->
      includes ["block"; "declaration_list"]%string (type classBlock) = true ->
      includes ["class_definition"; "impl_item"]%string (type classNode)
      = true ->
      constructFunctionDefinitionChunk n ancestors code maxChunkSize
      = inr (code ++ js "..." ++ [newline; newline]
             ++ repeat_space (column (startPosition n))
             ++ code ++ collapsedReplacement bodyNode))
  /\ ((forall classBlock classNode above,
         ancestors = classBlock :: classNode :: above ->
         includes ["block"; "declaration_list"]%string (type classBlock)
         && includes ["class_definition"; "impl_item"]%string
                     (type classNode)
         = false) ->
      constructFunctionDefinitionChunk n ancestors code maxChunkSize
      = inr (code ++ collapsedReplacement bodyNode)).
Proof.
  intros Hb. split.
  - intros classBlock classNode above -> Hp Hg.
    apply function_chunk_in_container; assumption.
  - apply function_chunk_plain. exact Hb.
Qed.

Lemma function_rendering_is_source_witness :
  constructFunctionDefinitionChunk c_function [] c_code 5
  = inr (js "int f() { g(1); }{ ... }")
  /\ constructFunctionDefinitionChunk impl_f [impl_list; impl_item]
       impl_code 5
     = inr (impl_code ++ js "..." ++ [newline; newline] ++ js "         "
            ++ impl_code ++ js "...").
Proof.
  split.
  - apply (function_rendering_is_source c_function (field "body" c_body)
             [] c_code 5%Z eq_refl).
    intros classBlock classNode above E. discriminate E.
  - apply (proj1 (function_rendering_is_source impl_f impl_f_block
                    [impl_list; impl_item] impl_code 5%Z eq_refl)
                 impl_list impl_item [] eq_refl); reflexivity.
Defined.

(** ** The symbol tables on the C function of the examples *)

Lemma symbol_tables_only_grow_witness :
  let g :=
    snd (processNode c_function (VStr c_code) (VStr (js "a.c"))
           globalContext) in
  registered (field_text c_function "declarator") (functions g)
  /\ registered (field_text c_function "declarator")
       (functions (snd (processNode c_call (VStr c_code) (VStr (js "b.c")) g))).
Proof.
  cbv zeta. split; [vm_compute; reflexivity|].
  destruct (symbol_tables_only_grow (field_text c_function "declarator")
              c_call (VStr c_code) (VStr (js "b.c"))
              (snd (processNode c_function (VStr c_code) (VStr (js "a.c"))
                      globalContext))) as [_ [H _]].
  apply H. vm_compute. reflexivity.
Defined.

Lemma definitions_are_registered_witness :
  type c_function = "function_definition"%string
  /\ registered (field_text c_function "declarator")
       (functions (snd (processNode c_function (VStr c_code)
                          (VStr (js "a.c")) globalContext))).
Proof.
  split; [reflexivity|].
  destruct (definitions_are_registered c_function (VStr c_code)
              (VStr (js "a.c")) globalContext) as [H _].
  apply H. reflexivity.
Defined.
